(** * The repository-summary markdown renderer of the portfolio frontend

    A shallow embedding of [renderMarkdown] and of its caller [RepoModal]
    (frontend/src/components/RepoModal.tsx) and of the data-fetching
    functions of the thesis and home pages, together with the properties
    the design document states about them, and the renderer as the
    design document describes it, a scanner with five stages, for the
    comparison with [renderMarkdown].

    A JavaScript string is a sequence of UTF-16 code units; the regular
    expressions of [renderMarkdown] carry no [u] flag, so they work on
    code units.  [String.prototype.replace] with a global regular
    expression is modelled after ECMA-262: a backtracking matcher whose
    results are listed in priority order, a left-to-right scan for
    successive matches, and the expansion of the replacement template. *)

(** The last part, on further properties of the code, also embeds the
    effect of RepoModal on the scrolling of the page, [getBackendUrl]
    (frontend/src/lib/backend.ts), the rendering of the thesis page and
    of the home page with the grid of repositories, its cards and the
    thesis card, the home page of frontend/src/app/page.tsx, and the
    theme button of the navigation bar. *)

From Stdlib Require Import Ascii String NArith Arith Bool Lia List.
Import ListNotations.

(** ** Strings and character classes *)

Definition char := N.
Definition jsstring := list char.

(** The code units of an ASCII literal. *)
Definition str (s : string) : jsstring :=
  map N_of_ascii (list_ascii_of_string s).

Definition LF : char := 10%N.
Definition SPACE : char := 32%N.
Definition STAR : char := 42%N.
Definition DASH : char := 45%N.
Definition BACKTICK : char := 96%N.
Definition LT : char := 60%N.
Definition GT : char := 62%N.
Definition UNDERSCORE : char := 95%N.

(** LineTerminator :: LF | CR | LS | PS *)
Definition is_line_terminator (c : char) : bool :=
  ((c =? 10) || (c =? 13) || (c =? 0x2028) || (c =? 0x2029))%N.

(** WhiteSpace :: TAB | VT | FF | ZWNBSP | USP (the Space_Separator category) *)
Definition is_white_space (c : char) : bool :=
  ((c =? 9) || (c =? 11) || (c =? 12) || (c =? 32) || (c =? 0xA0)
   || (c =? 0x1680) || ((0x2000 <=? c) && (c <=? 0x200A))
   || (c =? 0x202F) || (c =? 0x205F) || (c =? 0x3000) || (c =? 0xFEFF))%N.

(** [\s] *)
Definition class_s (c : char) : bool := is_white_space c || is_line_terminator c.
(** [.] without the [s] flag *)
Definition class_dot (c : char) : bool := negb (is_line_terminator c).
(** [[\s\S]] *)
Definition class_any (c : char) : bool := class_s c || negb (class_s c).
(** [[\*-]]: the trailing [-] is a literal member of the class *)
Definition class_bullet (c : char) : bool := ((c =? STAR) || (c =? DASH))%N.
(** a single pattern character *)
Definition is_char (a c : char) : bool := (c =? a)%N.

(** ** Regular expressions *)

Inductive regex : Type :=
| Empty
| CharSet (p : char -> bool)
| Seq (r1 r2 : regex)
| Star (greedy : bool) (r : regex)
| Group (n : nat) (r : regex)
| NegLookahead (r : regex)
| LineStart
| LineEnd.

Declare Scope regex_scope.
Delimit Scope regex_scope with re.
Bind Scope regex_scope with regex.
Infix ";;" := Seq (at level 61, right associativity) : regex_scope.

(** [r+] and [r+?]: RepeatMatcher with min = 1 runs [r] once and then
    continues with min = 0, that is [r] followed by [r*] (resp. [r*?]). *)
Definition Plus (greedy : bool) (r : regex) : regex := Seq r (Star greedy r).

(** A run of pattern characters. *)
Fixpoint lit (l : jsstring) : regex :=
  match l with
  | [] => Empty
  | a :: l' => Seq (CharSet (is_char a)) (lit l')
  end.

(** ** Matcher states *)

Definition captures := list (nat * jsstring).

Record mstate : Type := MState {
  prev : option char;      (* the code unit before the current index, if any *)
  rest : jsstring;         (* the input from the current index on *)
  caps : captures          (* the captures recorded so far *)
}.

Definition start (p : option char) (s : jsstring) : mstate := MState p s [].

Fixpoint get_cap (n : nat) (cs : captures) : jsstring :=
  match cs with
  | [] => []
  | (k, v) :: cs' => if Nat.eqb k n then v else get_cap n cs'
  end.

(** The input consumed between state [x] and a later state [y]. *)
Definition consumed (x y : mstate) : jsstring :=
  firstn (length (rest x) - length (rest y)) (rest x).

Definition set_cap (n : nat) (x y : mstate) : mstate :=
  MState (prev y) (rest y) ((n, consumed x y) :: caps y).

Definition at_line_start (multiline : bool) (x : mstate) : bool :=
  match prev x with
  | None => true
  | Some c => multiline && is_line_terminator c
  end.

Definition at_line_end (multiline : bool) (x : mstate) : bool :=
  match rest x with
  | [] => true
  | c :: _ => multiline && is_line_terminator c
  end.

(** ** The backtracking matcher

    [rmatch ml r x] lists the states in which a match of [r] started in
    [x] can end, in the order in which the backtracking matcher of
    ECMA-262 tries them: the match found is the head of the list. *)

(** RepeatMatcher with min = 0 and max = infinity.  An iteration that
    leaves the end index where it was is a failure; every other iteration
    shortens the remaining input, which bounds the number of iterations by
    [fuel] = the length of the remaining input. *)
Fixpoint star_loop (m : mstate -> list mstate) (greedy : bool)
    (fuel : nat) (x : mstate) : list mstate :=
  match fuel with
  | O => [x]
  | S k =>
      let more :=
        flat_map (fun y =>
          if Nat.eqb (length (rest y)) (length (rest x)) then []
          else star_loop m greedy k y) (m x) in
      if greedy then more ++ [x] else x :: more
  end.

Fixpoint rmatch (multiline : bool) (r : regex) (x : mstate) : list mstate :=
  match r with
  | Empty => [x]
  | CharSet p =>
      match rest x with
      | c :: t => if p c then [MState (Some c) t (caps x)] else []
      | [] => []
      end
  | Seq r1 r2 => flat_map (rmatch multiline r2) (rmatch multiline r1 x)
  | Star greedy r1 => star_loop (rmatch multiline r1) greedy (length (rest x)) x
  | Group n r1 => map (set_cap n x) (rmatch multiline r1 x)
  | NegLookahead r1 =>
      match rmatch multiline r1 x with
      | [] => [x]
      | _ :: _ => []
      end
  | LineStart => if at_line_start multiline x then [x] else []
  | LineEnd => if at_line_end multiline x then [x] else []
  end.

(** ** String.prototype.replace with a global regular expression *)

Record RegExp : Type := MkRegExp {
  pattern : regex;
  multiline : bool
}.

(** The pieces of the scanned input: a code unit copied to the output, or
    a match with its captures. *)
Inductive segment : Type :=
| Copied (c : char)
| Matched (m : jsstring) (cs : captures).

(** The scan tries a match at every index from left to right.  After a
    match of [n > 0] code units the next attempt is at the end of the
    match ([skip] counts the code units still inside it); after an empty
    match the index advances by one and that code unit is copied. *)
Fixpoint scan (re : RegExp) (skip : nat) (p : option char) (s : jsstring)
    : list segment :=
  match skip with
  | S k =>
      match s with
      | [] => []
      | c :: t => scan re k (Some c) t
      end
  | O =>
      match rmatch (multiline re) (pattern re) (start p s) with
      | y :: _ =>
          let n := length s - length (rest y) in
          Matched (firstn n s) (caps y) ::
          match s with
          | [] => []
          | c :: t =>
              if Nat.eqb n 0 then Copied c :: scan re 0 (Some c) t
              else scan re (n - 1) (Some c) t
          end
      | [] =>
          match s with
          | [] => []
          | c :: t => Copied c :: scan re 0 (Some c) t
          end
      end
  end.

(** Replacement templates: literal text and [$n]. *)
Inductive tpart : Type :=
| TLit (l : jsstring)
| TGroup (n : nat).

Definition template := list tpart.

Definition expand_part (cs : captures) (t : tpart) : jsstring :=
  match t with
  | TLit l => l
  | TGroup n => get_cap n cs
  end.

Definition expand (tmpl : template) (sg : segment) : jsstring :=
  match sg with
  | Copied c => [c]
  | Matched _ cs => flat_map (expand_part cs) tmpl
  end.

Definition replace (re : RegExp) (tmpl : template) (s : jsstring) : jsstring :=
  flat_map (expand tmpl) (scan re 0 None s).

(** ** renderMarkdown *)

Open Scope regex_scope.

(** [/^\s*[\*-]\s+(.+)$/gm] *)
Definition bullet_re : RegExp :=
  MkRegExp
    (LineStart ;; Star true (CharSet class_s) ;; CharSet class_bullet ;;
     Plus true (CharSet class_s) ;; Group 1 (Plus true (CharSet class_dot)) ;;
     LineEnd)
    true.

(** [<li>[\s\S]*?<\/li>\s*], the body of the repeated non-capturing group *)
Definition list_item_re : regex :=
  lit (str "<li>") ;; Star false (CharSet class_any) ;; lit (str "</li>") ;;
  Star true (CharSet class_s).

(** [/((?: item )+)/g], where item is the body [list_item_re] *)
Definition list_re : RegExp :=
  MkRegExp (Group 1 (Plus true list_item_re)) false.

(** [/\*\*(.+?)\*\*/g] *)
Definition bold_re : RegExp :=
  MkRegExp
    (lit (str "**") ;; Group 1 (Plus false (CharSet class_dot)) ;; lit (str "**"))
    false.

(** [/\*(?!\s)(.+?)\*/g] *)
Definition italic_re : RegExp :=
  MkRegExp
    (CharSet (is_char STAR) ;; NegLookahead (CharSet class_s) ;;
     Group 1 (Plus false (CharSet class_dot)) ;; CharSet (is_char STAR))
    false.

(** [/`(.+?)`/g] *)
Definition code_re : RegExp :=
  MkRegExp
    (CharSet (is_char BACKTICK) ;; Group 1 (Plus false (CharSet class_dot)) ;;
     CharSet (is_char BACKTICK))
    false.

Close Scope regex_scope.

(** ['<tag>$1</tag>'] *)
Definition wrap_tmpl (tag : string) : template :=
  [TLit (str ("<" ++ tag ++ ">")%string); TGroup 1;
   TLit (str ("</" ++ tag ++ ">")%string)].

Definition renderMarkdown (text : jsstring) : jsstring :=
  let withListItems := replace bullet_re (wrap_tmpl "li") text in
  let withLists := replace list_re (wrap_tmpl "ul") withListItems in
  replace code_re (wrap_tmpl "code")
    (replace italic_re (wrap_tmpl "em")
       (replace bold_re (wrap_tmpl "strong") withLists)).

(** ** RepoModal *)

Record Repo : Type := MkRepo {
  name : jsstring;
  description : option jsstring;     (* string | null *)
  html_url : jsstring;
  language : option jsstring;        (* string | null *)
  stargazers_count : N;
  updated_at : jsstring;
  cover_url : option jsstring;       (* cover_url?: string *)
  readme_summary : option jsstring   (* readme_summary?: string *)
}.

(** [a ?? b] *)
Definition nullish {A : Type} (a : option A) (b : A) : A :=
  match a with
  | Some v => v
  | None => b
  end.

(** [repo?.field] for an optional field *)
Definition optional_chain {A B : Type} (o : option A) (f : A -> option B) : option B :=
  match o with
  | Some a => f a
  | None => None
  end.

(** A string used as a condition: only the empty string is falsy. *)
Definition truthy (s : jsstring) : bool :=
  match s with
  | [] => false
  | _ :: _ => true
  end.

(** What the dialog shows below its title. *)
Inductive summary_block : Type :=
| Article (inner_html : jsstring) (tooltip : jsstring)
    (* the article whose dangerouslySetInnerHTML is [inner_html] *)
| NoReadme (notice : jsstring).
    (* the paragraph with the fixed notice *)

Record dialog_content : Type := MkContent {
  link_href : jsstring;
  title : jsstring;
  block : summary_block
}.

Record dialog : Type := MkDialog {
  dialog_open : bool;
  content : option dialog_content
}.

(** [/[-_]/g] of the title *)
Definition dash_underscore_re : RegExp :=
  MkRegExp (CharSet (fun c => is_char DASH c || is_char UNDERSCORE c)) false.

Definition no_readme_notice : jsstring :=
  str "No README available for this repository.".

Definition default_model : jsstring := str "google/gemma-3-27b-it:free".

(** The dialog rendered for [repo], and the arguments [renderMarkdown] is
    called with while rendering it.  [summary_model] is
    process.env.NEXT_PUBLIC_SUMMARY_MODEL.  The effect that locks the
    scrolling of the page is left out. *)
Definition RepoModal (summary_model : option jsstring) (repo : option Repo)
    : dialog * list jsstring :=
  let summary := nullish (optional_chain repo readme_summary) [] in
  let modelName := nullish summary_model default_model in
  match repo with
  | Some r =>
      let (blk, calls) :=
        if truthy summary
        then (Article (renderMarkdown summary)
                (str "Summary generated using " ++ modelName), [summary])
        else (NoReadme no_readme_notice, []) in
      (MkDialog true
         (Some (MkContent (html_url r)
                  (replace dash_underscore_re [TLit (str " ")] (name r)) blk)),
       calls)
  | None => (MkDialog false None, [])
  end.

Definition with_summary (r : Repo) (s : option jsstring) : Repo :=
  MkRepo (name r) (description r) (html_url r) (language r)
    (stargazers_count r) (updated_at r) (cover_url r) s.

Definition sample_repo : Repo :=
  MkRepo (str "my_repo") None (str "https://example.org/my_repo") None 0
    (str "2025-01-01T00:00:00Z") None None.

Definition shown_block (d : dialog * list jsstring) : option summary_block :=
  option_map block (content (fst d)).

Definition renderer_calls (d : dialog * list jsstring) : list jsstring := snd d.

(** The code unit before the index reached after reading [m]. *)
Definition last_of (m : jsstring) (p : option char) : option char :=
  fold_left (fun _ c => Some c) m p.

(** ** renderMarkdown with the RegExp objects made explicit

    A regular expression literal creates a RegExp object each time it is
    evaluated, and [replace] with a global RegExp reads and writes the
    [lastIndex] of that object: RegExpBuiltinExec starts its search at
    [lastIndex] and leaves there the end of the match, or 0 when nothing
    matches; RegExp.prototype[Symbol.replace] sets it to 0, collects the
    matches until one fails, moves it on by one after an empty match,
    and assembles the result from the pieces between the matches.  The
    heap lists the RegExp objects there are. *)

Module Effects.

Record regexp_object : Type := MkObject {
  regexp : RegExp;
  lastIndex : nat
}.

Definition heap := list regexp_object.

Definition M (A : Type) : Type := heap -> A * heap.

Definition ret {A : Type} (a : A) : M A := fun h => (a, h).

Definition bind {A B : Type} (m : M A) (k : A -> M B) : M B :=
  fun h => let (a, h') := m h in k a h'.

Notation "'do' x <- m ; k" := (bind m (fun x => k))
  (at level 10, x name, m at level 100, k at level 200).

(** The address of the object a literal creates. *)
Definition regexp_literal (re : RegExp) : M nat :=
  fun h => (length h, h ++ [MkObject re 0]).

Definition read (a : nat) : M (option regexp_object) :=
  fun h => (nth_error h a, h).

Fixpoint store (a : nat) (o : regexp_object) (h : heap) : heap :=
  match h, a with
  | [], _ => []
  | _ :: h', O => o :: h'
  | o' :: h', S a' => o' :: store a' o h'
  end.

Definition set_lastIndex (a : nat) (i : nat) : M unit :=
  fun h =>
    match nth_error h a with
    | Some o => (tt, store a (MkObject (regexp o) i) h)
    | None => (tt, h)
    end.

Record match_result : Type := MkMatch {
  index : nat;
  matched : jsstring;
  groups : captures
}.

(** The matcher is tried at index [i], then at [i + 1], and so on to the
    end of the input; [s] is the input from index [i] on and [p] the
    code unit before it. *)
Fixpoint search (re : RegExp) (i : nat) (p : option char) (s : jsstring)
    : option match_result :=
  match rmatch (multiline re) (pattern re) (start p s) with
  | y :: _ => Some (MkMatch i (consumed (start p s) y) (caps y))
  | [] =>
      match s with
      | [] => None
      | c :: t => search re (S i) (Some c) t
      end
  end.

(** RegExpBuiltinExec for the global RegExp object at address [a]. *)
Definition exec (a : nat) (s : jsstring) : M (option match_result) :=
  do o <- read a;
  match o with
  | None => ret None
  | Some obj =>
      let i := lastIndex obj in
      match (if Nat.ltb (length s) i then None
             else search (regexp obj) i (last_of (firstn i s) None) (skipn i s)) with
      | None => do _ <- set_lastIndex a 0; ret None
      | Some r => do _ <- set_lastIndex a (index r + length (matched r)); ret (Some r)
      end
  end.

(** After an empty match [lastIndex] moves on by one. *)
Definition advance_if_empty (a : nat) (r : match_result) : M unit :=
  match matched r with
  | [] =>
      do o <- read a;
      match o with
      | Some obj => set_lastIndex a (S (lastIndex obj))
      | None => ret tt
      end
  | _ :: _ => ret tt
  end.

(** The loop that collects the matches; every round moves [lastIndex] on,
    so [fuel] rounds are enough when [fuel] exceeds what is left of the
    input by two. *)
Fixpoint collect (fuel : nat) (a : nat) (s : jsstring) : M (list match_result) :=
  match fuel with
  | O => ret []
  | S k =>
      do r <- exec a s;
      match r with
      | None => ret []
      | Some m =>
          do _ <- advance_if_empty a m;
          do rs <- collect k a s;
          ret (m :: rs)
      end
  end.

(** The result: the pieces of [s] between the matches, from index [next]
    on, and the replacement for each match. *)
Fixpoint assemble (tmpl : template) (s : jsstring) (rs : list match_result)
    (next : nat) : jsstring :=
  match rs with
  | [] => skipn next s
  | r :: rs' =>
      if Nat.leb next (index r)
      then firstn (index r - next) (skipn next s) ++
           expand tmpl (Matched (matched r) (groups r)) ++
           assemble tmpl s rs' (index r + length (matched r))
      else assemble tmpl s rs' next
  end.

(** [s.replace(rx, tmpl)] for the RegExp object at address [a]. *)
Definition replace_with (a : nat) (tmpl : template) (s : jsstring) : M jsstring :=
  do _ <- set_lastIndex a 0;
  do rs <- collect (length s + 2) a s;
  ret (assemble tmpl s rs 0).

Definition renderMarkdown (text : jsstring) : M jsstring :=
  do r1 <- regexp_literal bullet_re;
  do withListItems <- replace_with r1 (wrap_tmpl "li") text;
  do r2 <- regexp_literal list_re;
  do withLists <- replace_with r2 (wrap_tmpl "ul") withListItems;
  do r3 <- regexp_literal bold_re;
  do s3 <- replace_with r3 (wrap_tmpl "strong") withLists;
  do r4 <- regexp_literal italic_re;
  do s4 <- replace_with r4 (wrap_tmpl "em") s3;
  do r5 <- regexp_literal code_re;
  replace_with r5 (wrap_tmpl "code") s4.

(** The objects one call creates, as it leaves them. *)
Definition locals : heap :=
  map (fun re => MkObject re 0) [bullet_re; list_re; bold_re; italic_re; code_re].

End Effects.

(** ** The data fetching of the thesis page and of the home page

    An async function runs its body to a completion: it returns a value
    or a promise, or it throws.  [await] of a rejected promise throws at
    the place of the [await]; a [catch] clause handles what its [try]
    block throws.  A promise that is returned without [await] has left
    the [try] block: the promise of the async function is settled the way
    the returned promise is. *)

Inductive error : Type :=
| NetworkError                  (* fetch rejects *)
| SyntaxError                   (* the body is not JSON *)
| Error (message : string).     (* new Error(message) *)

Inductive promise (A : Type) : Type :=
| Fulfilled (v : A)
| Rejected (e : error).

Arguments Fulfilled {A} v.
Arguments Rejected {A} e.

Inductive completion (A : Type) : Type :=
| Return (p : promise A)
| Throw (e : error).

Arguments Return {A} p.
Arguments Throw {A} e.

Definition await {A B : Type} (p : promise A) (k : A -> completion B)
    : completion B :=
  match p with
  | Fulfilled v => k v
  | Rejected e => Throw e
  end.

Definition try_catch {A : Type} (body handler : completion A) : completion A :=
  match body with
  | Return p => Return p
  | Throw _ => handler
  end.

Definition async {A : Type} (c : completion A) : promise A :=
  match c with
  | Return p => p
  | Throw e => Rejected e
  end.

(** The values of JSON; the types Thesis, Repo[] and Profile of the
    pages are not checked when the program runs. *)
#[warnings="-register-all"]
Inductive json : Type :=
| JNull
| JBool (b : bool)
| JNumber (n : N)
| JString (s : jsstring)
| JArray (l : list json)
| JObject (fields : list (jsstring * json)).

Record Response : Type := MkResponse {
  ok : bool;
  body_json : promise json     (* how res.json() settles *)
}.

Module ThesisPage.

Definition fallback : json := JObject [(str "title", JString (str "Thesis"))].

Definition fetchThesis (fetch : jsstring -> promise Response) (backend : jsstring)
    : promise json :=
  async
    (try_catch
       (await (fetch (backend ++ str "/api/thesis")) (fun res =>
          if negb (ok res) then Throw (Error "Failed to fetch thesis")
          else Return (body_json res)))
       (Return (Fulfilled fallback))).

End ThesisPage.

Module Home.

Definition fetchRepos (fetch : jsstring -> promise Response) (backend : jsstring)
    : promise json :=
  async
    (try_catch
       (await (fetch (backend ++ str "/api/repos")) (fun res =>
          if negb (ok res) then Return (Fulfilled (JArray []))
          else Return (body_json res)))
       (Return (Fulfilled (JArray [])))).

Definition fetchThesis (fetch : jsstring -> promise Response) (backend : jsstring)
    : promise json :=
  async
    (try_catch
       (await (fetch (backend ++ str "/api/thesis")) (fun res =>
          if negb (ok res) then Return (Fulfilled JNull)
          else Return (body_json res)))
       (Return (Fulfilled JNull))).

Definition fetchProfile (fetch : jsstring -> promise Response) (backend : jsstring)
    : promise json :=
  async
    (try_catch
       (await (fetch (backend ++ str "/api/profile")) (fun res =>
          if negb (ok res) then Return (Fulfilled JNull)
          else Return (body_json res)))
       (Return (Fulfilled JNull))).

End Home.

(** A server that answers every request with status 200 and a body that
    is not JSON. *)
Definition garbled_server (url : jsstring) : promise Response :=
  Fulfilled (MkResponse true (Rejected SyntaxError)).

(** ** Predicates the properties are stated with *)

(** [y] is reached from [x] by reading [m]. *)
Definition link (x : mstate) (m : jsstring) (y : mstate) : Prop :=
  rest x = m ++ rest y /\ prev y = last_of m (prev x).

(** A relation between states that every step of a match of [r] respects
    holds between the start and every end of a match. *)
Fixpoint respects (R : mstate -> mstate -> Prop) (r : regex) : Prop :=
  match r with
  | CharSet p =>
      forall x c t, rest x = c :: t -> p c = true ->
        R x (MState (Some c) t (caps x))
  | Seq r1 r2 => respects R r1 /\ respects R r2
  | Star _ r1 => respects R r1
  | Group n r1 => respects R r1 /\ forall x y, R x y -> R x (set_cap n x y)
  | _ => True
  end.

(** Every end of a match is reached by reading a piece of the input. *)
Definition reads (q : char -> bool) (x y : mstate) : Prop :=
  exists m, link x m y /\ forallb q m = true.

(** All character sets of [r] that read input lie within [q]. *)
Fixpoint within (q : char -> bool) (r : regex) : Prop :=
  match r with
  | CharSet p => forall c, p c = true -> q c = true
  | Seq r1 r2 => within q r1 /\ within q r2
  | Star _ r1 => within q r1
  | Group _ r1 => within q r1
  | _ => True
  end.

(** A regular expression without capturing parentheses leaves the
    captures as they are. *)
Fixpoint group_free (r : regex) : Prop :=
  match r with
  | Seq r1 r2 => group_free r1 /\ group_free r2
  | Star _ r1 => group_free r1
  | Group _ _ => False
  | _ => True
  end.

(** What the scan does at an index where nothing matches. *)
Definition scan_copy (re : RegExp) (s : jsstring) : list segment :=
  match s with
  | [] => []
  | c :: t => Copied c :: scan re 0 (Some c) t
  end.

Definition has_char (a : char) (s : jsstring) : bool := existsb (is_char a) s.

Fixpoint starts_with (pat s : jsstring) : bool :=
  match pat, s with
  | [], _ => true
  | a :: pat', c :: s' => is_char a c && starts_with pat' s'
  | _ :: _, [] => false
  end.

Fixpoint contains (pat s : jsstring) : bool :=
  starts_with pat s ||
  match s with
  | [] => false
  | _ :: t => contains pat t
  end.

(** Read from the start of a line: white space, then a bullet marker
    that white space follows. *)
Fixpoint bullet_at (s : jsstring) : bool :=
  match s with
  | [] => false
  | c :: t =>
      if class_s c then bullet_at t
      else class_bullet c && match t with d :: _ => class_s d | [] => false end
  end.

(** Some line of [s] starts with a bullet marker followed by white space;
    [p] is the code unit before [s]. *)
Fixpoint has_bullet_line (p : option char) (s : jsstring) : bool :=
  (match p with None => true | Some c => is_line_terminator c end && bullet_at s) ||
  match s with
  | [] => false
  | c :: t => has_bullet_line (Some c) t
  end.

(** No bullet line, no [*] (so neither bold nor italic delimiters), no
    backtick. *)
Definition no_markers (s : jsstring) : bool :=
  negb (has_bullet_line None s) && negb (has_char STAR s) &&
  negb (has_char BACKTICK s).

Inductive subseq {A : Type} : list A -> list A -> Prop :=
| subseq_nil : subseq [] []
| subseq_keep a l1 l2 : subseq l1 l2 -> subseq (a :: l1) (a :: l2)
| subseq_skip a l1 l2 : subseq l1 l2 -> subseq l1 (a :: l2).

(** The code units a stage may delete: white space, the bullet markers
    and the delimiters. *)
Definition removable (c : char) : bool :=
  class_s c || is_char STAR c || is_char DASH c || is_char BACKTICK c.

Definition kept (s : jsstring) : jsstring :=
  filter (fun c => negb (removable c)) s.

(** A match of [r] records as capture 1 a text that holds everything
    the match read, but for removable code units. *)
Definition keeps_text (r : regex) : Prop :=
  forall ml x y, In y (rmatch ml r x) ->
    exists m, link x m y /\ subseq (kept m) (get_cap 1 (caps y)).

(** [r] reads removable code units only and records no capture. *)
Definition drops_only (r : regex) : Prop := within removable r /\ group_free r.



(** The number of places at which [pat] occurs in [s]. *)
Fixpoint occurrences (pat s : jsstring) : nat :=
  (if starts_with pat s then 1 else 0) +
  match s with
  | [] => 0
  | _ :: t => occurrences pat t
  end.

Definition is_angle (c : char) : bool := is_char LT c || is_char GT c.

(** The states a lazy repetition of the character set [p] offers, in the
    order it offers them: after no code unit, after one, after two, as
    long as the code units are in [p]. *)
Fixpoint prefixes (p : char -> bool) (pv : option char) (s : jsstring)
    (cs : captures) : list mstate :=
  MState pv s cs ::
  match s with
  | [] => []
  | c :: t => if p c then prefixes p (Some c) t cs else []
  end.

(** A dash or an underscore becomes a space. *)
Definition title_char (c : char) : char :=
  if is_char DASH c || is_char UNDERSCORE c then SPACE else c.

(** The input ends, or its next code unit is not in [p]: a repetition
    of [p] stops here. *)
Definition stops (p : char -> bool) (r : jsstring) : bool :=
  match r with
  | [] => true
  | c :: _ => negb (p c)
  end.

(** [y] is the first end of a match of [r] started in [x]: the match the
    backtracking matcher finds. *)
Definition first_match (ml : bool) (r : regex) (x y : mstate) : Prop :=
  exists l, rmatch ml r x = y :: l.


Definition list_item (t : jsstring) : jsstring := str "<li>" ++ t ++ str "</li>".


(** The text of a plain item: not empty, without white space at its
    start, on one line, and free of angle brackets that open a tag, of
    stars and of backticks. *)
Definition plain_char (c : char) : bool :=
  class_dot c && negb (is_char LT c) && negb (is_char STAR c) &&
  negb (is_char BACKTICK c).

Definition plain_item (t : jsstring) : bool :=
  match t with
  | [] => false
  | c :: _ => negb (class_s c)
  end && forallb plain_char t.

(** The number of code units [a] in [s]. *)
Definition count_char (a : char) (s : jsstring) : nat :=
  length (filter (is_char a) s).

(** ** Texts the renderer is described on *)

(** No star and no backtick. *)
Definition unmarked (s : jsstring) : bool :=
  negb (has_char STAR s) && negb (has_char BACKTICK s).

(** Not empty, and no white space at the start. *)
Definition starts_text (g : jsstring) : bool :=
  match g with
  | [] => false
  | c :: _ => negb (class_s c)
  end.

(** Every star of [s] is followed by white space or ends [s]. *)
Fixpoint spaced_stars (s : jsstring) : bool :=
  match s with
  | [] => true
  | c :: t =>
      (negb (is_char STAR c) ||
       match t with
       | [] => true
       | d :: _ => class_s d
       end) && spaced_stars t
  end.

(** No line of [s] holds two code units [a]; [seen] tells whether the
    line read so far holds one. *)
Fixpoint sparse_from (a : char) (seen : bool) (s : jsstring) : bool :=
  match s with
  | [] => true
  | c :: t =>
      if is_line_terminator c then sparse_from a false t
      else if is_char a c then negb seen && sparse_from a true t
      else sparse_from a seen t
  end.

Definition one_per_line (a : char) (s : jsstring) : bool := sparse_from a false s.

(** A bullet line as the bullet expression reads it: white space, the
    marker, white space, the text of the item. *)
Record bullet : Type := MkBullet {
  indent : jsstring;
  marker : char;
  gap : jsstring;
  item_text : jsstring
}.

(** The line as it stands in the text, and what makes it a bullet line
    with a plain text. *)
Definition bullet_src (b : bullet) : jsstring :=
  indent b ++ marker b :: gap b ++ item_text b.

Definition bullet_ok (b : bullet) : bool :=
  forallb class_s (indent b) && class_bullet (marker b) &&
  truthy (gap b) && forallb class_s (gap b) && plain_item (item_text b).

(** The lines behind a first line, each with the line terminator that
    stands before it. *)
Fixpoint join_after (ls : list (char * jsstring)) : jsstring :=
  match ls with
  | [] => []
  | (sep, l) :: ls' => sep :: l ++ join_after ls'
  end.

(** [f] on every line. *)
Definition map_lines {A B : Type} (f : A -> B) (ls : list (char * A))
    : list (char * B) :=
  map (fun sl => (fst sl, f (snd sl))) ls.

(** A line terminator and, behind it, a line that is [ok]. *)
Definition after_terminator {A : Type} (ok : A -> bool) (sl : char * A) : bool :=
  is_line_terminator (fst sl) && ok (snd sl).

(** The list items of a first bullet line and of the bullet lines behind
    it, with the line terminators between them. *)
Definition item_lines (b : bullet) (more : list (char * bullet)) : jsstring :=
  list_item (item_text b) ++
  join_after (map_lines (fun b => list_item (item_text b)) more).

(** The code unit before the index, [p], lets a line start there. *)
Definition line_start (p : option char) : bool :=
  match p with
  | None => true
  | Some c => is_line_terminator c
  end.

(** ** The renderer of the design document

    The design document describes the renderer as five constructs, each
    with its trigger and its output, resolved one after the other in a
    prescribed order by an explicit scanner of lines and tokens.  The
    definitions of this section follow the document, not the code: one
    scanner, and for each construct the function that recognises it at
    an index.  They are compared with [renderMarkdown] below.  Where the
    document leaves a detail open (which code units are white space,
    where a line ends, how much white space belongs to the marker) the
    definitions say what they take. *)

Inductive stage : Type :=
| Bullets
| Grouping
| Bold
| Italic
| InlineCode.

(** The text up to the end of the line, and what follows it. *)
Fixpoint line_of (s : jsstring) : jsstring * jsstring :=
  match s with
  | c :: t =>
      if class_dot c then (c :: fst (line_of t), snd (line_of t)) else ([], s)
  | [] => ([], [])
  end.

(** The text up to the nearest [close] on the line, and what follows
    that [close]. *)
Fixpoint until_close (close s : jsstring) : option (jsstring * jsstring) :=
  if starts_with close s then Some ([], skipn (length close) s)
  else
    match s with
    | c :: t =>
        if class_dot c
        then option_map (fun gr => (c :: fst gr, snd gr)) (until_close close t)
        else None
    | [] => None
    end.

(** The text of a span: not empty, on one line, its first code unit
    [first_ok], up to the nearest [close]; and what follows that [close]. *)
Definition span_text (first_ok : char -> bool) (close u : jsstring)
    : option (jsstring * jsstring) :=
  match u with
  | c :: t =>
      if class_dot c && first_ok c
      then option_map (fun gr => (c :: fst gr, snd gr)) (until_close close t)
      else None
  | [] => None
  end.

(** A delimited span: [open], the text of the span, [close]. *)
Definition delimited (open close : jsstring) (first_ok : char -> bool)
    (s : jsstring) : option (jsstring * jsstring) :=
  if starts_with open s
  then span_text first_ok close (skipn (length open) s)
  else None.

(** Bold: a text delimited by the double marker; it stops at the nearest
    closing pair. *)
Definition find_bold (p : option char) (s : jsstring)
    : option (jsstring * jsstring) :=
  delimited (str "**") (str "**") (fun _ => true) s.

(** Italic: a text delimited by the single marker.  A marker that white
    space follows opens nothing. *)
Definition find_italic (p : option char) (s : jsstring)
    : option (jsstring * jsstring) :=
  delimited [STAR] [STAR] (fun c => negb (class_s c)) s.

(** Inline code: a text delimited by a single pair of backticks. *)
Definition find_code (p : option char) (s : jsstring)
    : option (jsstring * jsstring) :=
  delimited [BACKTICK] [BACKTICK] (fun _ => true) s.

(** The text behind all the white space at the start of [s]. *)
Fixpoint skip_space (s : jsstring) : jsstring :=
  match s with
  | c :: t => if class_s c then skip_space t else s
  | [] => []
  end.

(** The text of a bullet line, from [s] to the end of its line, and what
    follows it; it is not empty. *)
Definition text_at (s : jsstring) : option (jsstring * jsstring) :=
  match s with
  | c :: _ => if class_dot c then Some (line_of s) else None
  | [] => None
  end.

(** The text of a bullet line behind the white space that follows the
    marker.  White space may run over the end of a line, so the text is
    looked for behind as much white space as there is, and closer to the
    marker only where no text is found further on. *)
Fixpoint gap_text (s : jsstring) : option (jsstring * jsstring) :=
  match s with
  | c :: t =>
      if class_s c
      then match gap_text t with
           | Some gr => Some gr
           | None => text_at s
           end
      else text_at s
  | [] => None
  end.

(** A bullet line: at the start of a line, white space, then a dash or a
    star as the first code unit that is not white space, white space
    behind it, and the text up to the end of the line. *)
Definition find_bullet (p : option char) (s : jsstring)
    : option (jsstring * jsstring) :=
  if line_start p then
    match skip_space s with
    | m :: w :: t => if class_bullet m && class_s w then gap_text t else None
    | _ => None
    end
  else None.

(** What follows the nearest [close], anywhere in the text. *)
Fixpoint behind (close s : jsstring) : option jsstring :=
  if starts_with close s then Some (skipn (length close) s)
  else
    match s with
    | _ :: t => behind close t
    | [] => None
    end.

(** What follows one list item and the white space behind it. *)
Definition list_item_at (s : jsstring) : option jsstring :=
  if starts_with (str "<li>") s
  then option_map skip_space (behind (str "</li>") (skipn 4 s))
  else None.

(** What follows a run of consecutive list items. *)
Fixpoint list_items (fuel : nat) (s : jsstring) : jsstring :=
  match fuel with
  | O => s
  | S k =>
      match list_item_at s with
      | Some r => list_items k r
      | None => s
      end
  end.

(** List grouping: one or more consecutive list items; the whole run is
    what the container wraps. *)
Definition find_list (p : option char) (s : jsstring)
    : option (jsstring * jsstring) :=
  match list_item_at s with
  | Some r1 =>
      let r := list_items (length r1) r1 in
      Some (firstn (length s - length r) s, r)
  | None => None
  end.

(** The scanner: at every index from left to right it looks for the
    construct.  Where [find] tells a text [g] and the rest [r] behind
    the construct, [g] goes to the output between the tags and the scan
    goes on at [r] ([skip] counts the code units still inside the
    construct); elsewhere the code unit at the index is copied. *)
Fixpoint spec_scan
    (find : option char -> jsstring -> option (jsstring * jsstring))
    (tag : string) (skip : nat) (p : option char) (s : jsstring) : jsstring :=
  match skip with
  | S k =>
      match s with
      | [] => []
      | c :: t => spec_scan find tag k (Some c) t
      end
  | O =>
      match find p s with
      | Some (g, r) =>
          str ("<" ++ tag ++ ">")%string ++ g ++ str ("</" ++ tag ++ ">")%string ++
          match s with
          | [] => []
          | c :: t => spec_scan find tag (length s - length r - 1) (Some c) t
          end
      | None =>
          match s with
          | [] => []
          | c :: t => c :: spec_scan find tag 0 (Some c) t
          end
      end
  end.

Definition run_stage (st : stage) (text : jsstring) : jsstring :=
  match st with
  | Bullets => spec_scan find_bullet "li" 0 None text
  | Grouping => spec_scan find_list "ul" 0 None text
  | Bold => spec_scan find_bold "strong" 0 None text
  | Italic => spec_scan find_italic "em" 0 None text
  | InlineCode => spec_scan find_code "code" 0 None text
  end.

Definition run_stages (order : list stage) (text : jsstring) : jsstring :=
  fold_left (fun acc st => run_stage st acc) order text.

(** Bullets first, then the grouping, then bold, then italic, then
    inline code. *)
Definition ordering_policy : list stage :=
  [Bullets; Grouping; Bold; Italic; InlineCode].

(** The constructs a scanner finds in a text: of each one the text it
    reads, markers and delimiters included, and the text it keeps. *)
Fixpoint spans (find : option char -> jsstring -> option (jsstring * jsstring))
    (skip : nat) (p : option char) (s : jsstring) : list (jsstring * jsstring) :=
  match skip with
  | S k =>
      match s with
      | [] => []
      | c :: t => spans find k (Some c) t
      end
  | O =>
      match find p s with
      | Some (g, r) =>
          (firstn (length s - length r) s, g) ::
          match s with
          | [] => []
          | c :: t => spans find (length s - length r - 1) (Some c) t
          end
      | None =>
          match s with
          | [] => []
          | c :: t => spans find 0 (Some c) t
          end
      end
  end.

(** The marker of a bullet line is a star. *)
Definition star_marker (line : jsstring) : bool :=
  match skip_space line with
  | c :: _ => is_char STAR c
  | [] => false
  end.

(** The number of bold spans the bold stage finds in a text, and of
    bullet lines with a star for a marker that the bullet stage finds. *)
Definition bold_spans (text : jsstring) : nat :=
  length (spans find_bold 0 None text).

Definition star_bullets (text : jsstring) : nat :=
  length (filter (fun sp => star_marker (fst sp)) (spans find_bullet 0 None text)).

Definition stars_read (l : list (jsstring * jsstring)) : nat :=
  list_sum (map (fun sp => count_char STAR (fst sp)) l).

Definition stars_kept (l : list (jsstring * jsstring)) : nat :=
  list_sum (map (fun sp => count_char STAR (snd sp)) l).

(** [find] tells the first match of [re] at every index: whether there
    is one, the text of its group and the input behind it. *)
Definition tells (re : RegExp)
    (find : option char -> jsstring -> option (jsstring * jsstring)) : Prop :=
  forall p s,
    match rmatch (multiline re) (pattern re) (start p s) with
    | [] => find p s = None
    | y :: _ =>
        find p s = Some (get_cap 1 (caps y), rest y) /\
        length (rest y) < length s
    end.

(** The expression [C] reads [close] and nothing else. *)
Definition closes (ml : bool) (C : regex) (close : jsstring) : Prop :=
  forall b,
    (starts_with close (rest b) = false -> rmatch ml C b = []) /\
    (starts_with close (rest b) = true ->
     exists pv,
       rmatch ml C b = [MState pv (skipn (length close) (rest b)) (caps b)]).

(** ** The lock on the scrolling of the page (the effect of RepoModal)

    [useEffect(f, [repo])]: after the first render the effect [f] runs;
    after a later render it runs again when [repo] is another value than
    at the render before, and then the cleanup function the last run
    returned, if it returned one, runs first; when the component is
    removed the pending cleanup function runs.  The state is the value of
    document.body.style.overflow and whether a cleanup function is
    pending. *)

Record body_state : Type := MkBody {
  overflow : jsstring;
  cleanup_pending : bool
}.

Definition run_effect (repo : option Repo) (b : body_state) : body_state :=
  match repo with
  | Some _ => MkBody (str "hidden") true
  | None => MkBody (overflow b) false
  end.

Definition run_cleanup (b : body_state) : body_state :=
  if cleanup_pending b then MkBody [] false else b.

Definition mount (repo : option Repo) (body_overflow : jsstring) : body_state :=
  run_effect repo (MkBody body_overflow false).

Definition rerender (changed : bool) (repo : option Repo) (b : body_state)
    : body_state :=
  if changed then run_effect repo (run_cleanup b) else b.

Definition unmount (b : body_state) : body_state := run_cleanup b.

(** The renders after the first: the value of [repo] at each, and whether
    it is another value than at the render before. *)
Fixpoint rerenders (rs : list (bool * option Repo)) (b : body_state) : body_state :=
  match rs with
  | [] => b
  | (changed, repo) :: rs' => rerenders rs' (rerender changed repo b)
  end.

(** A render at which [repo] is not another value than at the render
    before has the [repo] of that render. *)
Fixpoint consistent (before : option Repo) (rs : list (bool * option Repo)) : Prop :=
  match rs with
  | [] => True
  | (changed, repo) :: rs' =>
      (changed = false -> repo = before) /\ consistent repo rs'
  end.

(** The [repo] of the last render. *)
Definition shown_last (first : option Repo) (rs : list (bool * option Repo))
    : option Repo :=
  last (map snd rs) first.

(** ** getBackendUrl (frontend/src/lib/backend.ts) *)

Record environment : Type := MkEnv {
  BACKEND_URL : option jsstring;
  NEXT_PUBLIC_BACKEND_URL : option jsstring
}.

(** [a || b] for a variable of the environment: unset and empty are
    falsy. *)
Definition or_else (a : option jsstring) (b : jsstring) : jsstring :=
  match a with
  | Some s => if truthy s then s else b
  | None => b
  end.

(** [window_defined] is false where [typeof window] is ["undefined"]: on
    the server. *)
Definition getBackendUrl (window_defined : bool) (env : environment) : jsstring :=
  if negb window_defined
  then or_else (BACKEND_URL env)
         (or_else (NEXT_PUBLIC_BACKEND_URL env) (str "http://localhost:8012"))
  else or_else (NEXT_PUBLIC_BACKEND_URL env) [].

(** ** Values read from a response

    The pages read properties of the parsed bodies without a check of
    their types.  A value is a JSON value or [undefined]. *)

Definition value := option json.

Fixpoint string_eqb (a b : jsstring) : bool :=
  match a, b with
  | [], [] => true
  | c :: a', d :: b' => (c =? d)%N && string_eqb a' b'
  | _, _ => false
  end.

(** The own property [key] of an object; an object lists each of its
    properties once. *)
Fixpoint own_property (key : jsstring) (fields : list (jsstring * json)) : value :=
  match fields with
  | [] => None
  | (k, v) :: fields' => if string_eqb k key then Some v else own_property key fields'
  end.

Inductive thrown (A : Type) : Type :=
| Normal (a : A)
| TypeError.

Arguments Normal {A} a.
Arguments TypeError {A}.

Definition bind_thrown {A B : Type} (m : thrown A) (k : A -> thrown B) : thrown B :=
  match m with
  | Normal a => k a
  | TypeError => TypeError
  end.

(** [v.key], for the keys the pages read (title, abstract, assets,
    summary, about, email: none of them is a property of a prototype):
    a TypeError on null and undefined, the own property of an object,
    undefined on every other value. *)
Definition get (v : value) (key : jsstring) : thrown value :=
  match v with
  | None | Some JNull => TypeError
  | Some (JObject fields) => Normal (own_property key fields)
  | Some _ => Normal None
  end.

(** [v?.key] *)
Definition optional_get (v : value) (key : jsstring) : thrown value :=
  match v with
  | None | Some JNull => Normal None
  | _ => get v key
  end.

(** ToBoolean; of the numbers, zero is falsy. *)
Definition ToBoolean (v : value) : bool :=
  match v with
  | None | Some JNull => false
  | Some (JBool b) => b
  | Some (JNumber n) => negb (n =? 0)%N
  | Some (JString s) => truthy s
  | Some (JArray _) | Some (JObject _) => true
  end.

(** [{cond && element}]: the element, or the falsy value of [cond] left
    in its place. *)
Inductive slot (A : Type) : Type :=
| Element (a : A)
| Falsy (v : value).

Arguments Element {A} a.
Arguments Falsy {A} v.

Definition and_element {A : Type} (cond : value) (element : thrown A)
    : thrown (slot A) :=
  if ToBoolean cond then bind_thrown element (fun a => Normal (Element a))
  else Normal (Falsy cond).

(** ** The thesis page (ThesisPage) *)

Definition DOT : char := 46%N.

(** [s.split(sep)] for a separator of one code unit *)
Fixpoint split (sep : char) (s : jsstring) : list jsstring :=
  match s with
  | [] => [[]]
  | c :: t =>
      if is_char sep c then [] :: split sep t
      else
        match split sep t with
        | piece :: pieces => (c :: piece) :: pieces
        | [] => [[c]]
        end
  end.

(** [l.pop()]: the last element, undefined for the empty array *)
Fixpoint pop {A : Type} (l : list A) : option A :=
  match l with
  | [] => None
  | [a] => Some a
  | _ :: l' => pop l'
  end.

Definition includes (l : list jsstring) (x : jsstring) : bool :=
  existsb (string_eqb x) l.

Definition startsWith (s pat : jsstring) : bool := starts_with pat s.

Definition endsWith (s suffix : jsstring) : bool :=
  (length suffix <=? length s) &&
  string_eqb (skipn (length s - length suffix) s) suffix.

Definition image_extensions : list jsstring :=
  [str "png"; str "jpg"; str "jpeg"; str "gif"; str "webp"; str "svg"].

Record img : Type := MkImg {
  img_src : jsstring;
  img_alt : jsstring
}.

Record pdf_frame : Type := MkFrame {
  iframe_src : jsstring;
  iframe_title : jsstring;
  download_href : jsstring
}.

Record thesis_view : Type := MkThesisView {
  heading : value;                    (* the child of h1 *)
  abstract_card : slot value;         (* the card with the abstract *)
  carousel : option (list img);       (* shown when there are images *)
  pdf_frames : list pdf_frame
}.

(** How the promise of a page is settled: its view, the rejection of a
    promise it awaited, or a TypeError thrown while rendering. *)
Inductive page (A : Type) : Type :=
| Page (view : A)
| PageRejected (e : error)
| PageTypeError.

Arguments Page {A} view.
Arguments PageRejected {A} e.
Arguments PageTypeError {A}.

(** [l.filter(f)] where [f] calls a method of strings on each element:
    a TypeError at an element that is not a string. *)
Fixpoint filter_strings (f : jsstring -> bool) (l : list json)
    : thrown (list jsstring) :=
  match l with
  | [] => Normal []
  | JString s :: l' =>
      bind_thrown (filter_strings f l') (fun r =>
        Normal (if f s then s :: r else r))
  | _ :: _ => TypeError
  end.

(** [(v ?? []).filter]: the array to filter; only arrays have the
    method. *)
Definition array_or_empty (v : value) : thrown (list json) :=
  match v with
  | None | Some JNull => Normal []
  | Some (JArray l) => Normal l
  | Some _ => TypeError
  end.

(** [asset.startsWith("http") ? asset : asset] *)
Definition asset_url (asset : jsstring) : jsstring :=
  if startsWith asset (str "http") then asset else asset.

Section ThesisPageRender.

(** String.prototype.toLowerCase *)
Variable toLowerCase : jsstring -> jsstring.

Definition is_image (a : jsstring) : bool :=
  let ext := option_map toLowerCase (pop (split DOT a)) in
  includes image_extensions (nullish ext []).

Definition is_pdf (a : jsstring) : bool :=
  endsWith (toLowerCase a) (str ".pdf").

Definition ThesisPage_render (thesis : json) : thrown thesis_view :=
  bind_thrown (get (Some thesis) (str "assets")) (fun assets =>
  bind_thrown (array_or_empty assets) (fun l =>
  bind_thrown (filter_strings is_image l) (fun images =>
  bind_thrown (filter_strings is_pdf l) (fun pdfs =>
  bind_thrown (get (Some thesis) (str "title")) (fun title =>
  bind_thrown (get (Some thesis) (str "abstract")) (fun abstract =>
  bind_thrown (and_element abstract (get (Some thesis) (str "abstract"))) (fun card =>
    Normal
      (MkThesisView title card
         (if 0 <? length images
          then Some (map (fun asset => MkImg (asset_url asset) asset) images)
          else None)
         (map (fun asset =>
                 MkFrame
                   (asset_url asset ++ str "#toolbar=0&navpanes=0&scrollbar=0")
                   asset (asset_url asset))
            pdfs))))))))).

Definition ThesisPage_page (fetch : jsstring -> promise Response)
    (backend : jsstring) : page thesis_view :=
  match ThesisPage.fetchThesis fetch backend with
  | Rejected e => PageRejected e
  | Fulfilled thesis =>
      match ThesisPage_render thesis with
      | Normal view => Page view
      | TypeError => PageTypeError
      end
  end.

End ThesisPageRender.

(** ** The home page (Home), the grid of repositories (ReposGrid), its
    cards (RepoCard) and the thesis card (ThesisCard)

    [Home_render] is the first rendering of the element that Home
    returns, with the components of the frontend inside it: what Home
    evaluates itself, then the grid with its cards, then the thesis
    card.  The expressions of the components are evaluated as ECMAScript
    evaluates them.  What the components of React, next/link, next/image
    and react-markdown do with the values they are given is not part of
    the model; of useSWR the model takes that at the first rendering it
    gives its fallbackData; and the dialog of the grid is closed then,
    activeRepo being null. *)

Record card_view : Type := MkCard {
  card_title : value;
  card_summary : slot value
}.

Definition ThesisCard (thesis : json) : thrown card_view :=
  bind_thrown (get (Some thesis) (str "title")) (fun title =>
  bind_thrown (get (Some thesis) (str "summary")) (fun summary =>
  bind_thrown (and_element summary (get (Some thesis) (str "summary"))) (fun s =>
    Normal (MkCard title s)))).

(** ToString and ToPrimitive on a JSON value return, or they throw a
    TypeError.  An object is converted by its methods toString and
    valueOf.  An object with a property toString of its own has a JSON
    value there, which cannot be called, and valueOf does not help: the
    one of Object.prototype returns the object itself, one of its own
    cannot be called either.  An array is converted by joining the
    strings of its elements, the empty string for null. *)
Fixpoint ToString_returns (v : json) : bool :=
  match v with
  | JObject fields =>
      match own_property (str "toString") fields with
      | Some _ => false
      | None => true
      end
  | JArray l => forallb ToString_returns l
  | _ => true
  end.

(** A conversion to a string, in a template literal or in [new Date]:
    the model keeps the value that is converted. *)
Definition stringified (v : value) : thrown value :=
  match v with
  | Some j => if ToString_returns j then Normal v else TypeError
  | None => Normal v
  end.

(** RepoCard: the values shown, in the order in which they are read.
    [shown_date] is the value given to [new Date]; the image has the
    cover for its source and the name for its alternative text. *)
Record repo_card : Type := MkRepoCard {
  shown_name : value;
  shown_href : value;
  shown_date : value;
  shown_cover : slot (value * value);
  shown_description : value;
  shown_language : slot value;
  shown_stars : value
}.

Definition RepoCard (repo : json) : thrown repo_card :=
  bind_thrown (get (Some repo) (str "name")) (fun name =>
  bind_thrown (get (Some repo) (str "html_url")) (fun href =>
  bind_thrown (get (Some repo) (str "updated_at")) (fun updated =>
  bind_thrown (stringified updated) (fun date =>
  bind_thrown (get (Some repo) (str "cover_url")) (fun cover =>
  bind_thrown
    (and_element cover
       (bind_thrown (get (Some repo) (str "cover_url")) (fun src =>
        bind_thrown (get (Some repo) (str "name")) (fun alt =>
          Normal (src, alt))))) (fun image =>
  bind_thrown (get (Some repo) (str "description")) (fun text =>
  bind_thrown (get (Some repo) (str "language")) (fun language =>
  bind_thrown (and_element language (get (Some repo) (str "language"))) (fun l =>
  bind_thrown (get (Some repo) (str "stargazers_count")) (fun stars =>
    Normal (MkRepoCard name href date image text l stars))))))))))).

Fixpoint map_thrown {A B : Type} (f : A -> thrown B) (l : list A)
    : thrown (list B) :=
  match l with
  | [] => Normal []
  | a :: l' =>
      bind_thrown (f a) (fun b =>
      bind_thrown (map_thrown f l') (fun bs => Normal (b :: bs)))
  end.

(** ReposGrid: [repos?.map(...)] is nothing for [null], throws a
    TypeError for a value without a method map, and for an array makes
    an element of every repository, with its name for the key; the
    cards are rendered after that. *)
Definition ReposGrid (repos : json) : thrown (option (list (value * repo_card))) :=
  match repos with
  | JNull => Normal None
  | JArray l =>
      bind_thrown (map_thrown (fun repo => get (Some repo) (str "name")) l)
        (fun keys =>
      bind_thrown (map_thrown RepoCard l) (fun cards =>
        Normal (Some (combine keys cards))))
  | _ => TypeError
  end.

Record home_view : Type := MkHome {
  about_section : slot value;       (* the markdown of the profile *)
  initialRepos : json;              (* the property of ReposGrid *)
  projects : option (list (value * repo_card));   (* the grid: keys and cards *)
  thesis_section : slot card_view;
  contact_email : slot value        (* the address of the mailto link *)
}.

Definition Home_render (repos thesis profile : json) : thrown home_view :=
  bind_thrown (optional_get (Some profile) (str "about")) (fun about =>
  bind_thrown (and_element about (get (Some profile) (str "about"))) (fun a =>
  bind_thrown (optional_get (Some profile) (str "email")) (fun email =>
  bind_thrown
    (and_element email
       (bind_thrown (get (Some profile) (str "email")) stringified)) (fun e =>
  bind_thrown (ReposGrid repos) (fun grid =>
  bind_thrown (and_element (Some thesis) (ThesisCard thesis)) (fun t =>
    Normal (MkHome a repos grid t e))))))).

(** [await Promise.all([p1, p2, p3])]: the three values, or the
    rejection of the promise that is rejected first; which of several
    rejected promises that is depends on the time, so [pick] chooses. *)
Definition promise_all3 {A : Type} (pick : list error -> error)
    (p1 p2 p3 : promise A) : promise (A * A * A) :=
  match p1, p2, p3 with
  | Fulfilled a, Fulfilled b, Fulfilled c => Fulfilled (a, b, c)
  | _, _, _ =>
      Rejected
        (pick
           (flat_map (fun p => match p with Rejected e => [e] | Fulfilled _ => [] end)
              [p1; p2; p3]))
  end.

Definition render_page {A : Type} (p : promise (json * json * json))
    (render : json -> json -> json -> thrown A) : page A :=
  match p with
  | Rejected e => PageRejected e
  | Fulfilled (repos, thesis, profile) =>
      match render repos thesis profile with
      | Normal view => Page view
      | TypeError => PageTypeError
      end
  end.

Definition Home_page (pick : list error -> error)
    (fetch : jsstring -> promise Response) (backend : jsstring) : page home_view :=
  render_page
    (promise_all3 pick (Home.fetchRepos fetch backend)
       (Home.fetchThesis fetch backend) (Home.fetchProfile fetch backend))
    Home_render.

(** The home page of frontend/src/app/page.tsx: the same rendering, the
    requests without [try]. *)
Module AppPage.

Definition backend (NEXT_PUBLIC_BACKEND_URL : option jsstring) : jsstring :=
  nullish NEXT_PUBLIC_BACKEND_URL (str "http://localhost:8000").

Definition fetchRepos (fetch : jsstring -> promise Response) (backend : jsstring)
    : promise json :=
  async
    (await (fetch (backend ++ str "/api/repos")) (fun res =>
       if negb (ok res) then Throw (Error "Failed to fetch repos")
       else Return (body_json res))).

Definition fetchThesis (fetch : jsstring -> promise Response) (backend : jsstring)
    : promise json :=
  async
    (await (fetch (backend ++ str "/api/thesis")) (fun res =>
       if negb (ok res) then Return (Fulfilled JNull)
       else Return (body_json res))).

Definition fetchProfile (fetch : jsstring -> promise Response) (backend : jsstring)
    : promise json :=
  async
    (await (fetch (backend ++ str "/api/profile")) (fun res =>
       if negb (ok res) then Return (Fulfilled JNull)
       else Return (body_json res))).

Definition Home (pick : list error -> error)
    (fetch : jsstring -> promise Response) (backend : jsstring) : page home_view :=
  render_page
    (promise_all3 pick (fetchRepos fetch backend) (fetchThesis fetch backend)
       (fetchProfile fetch backend))
    Home_render.

End AppPage.

(** ** The theme button of the navigation bar (Navbar) *)

(** [theme === "dark" ? "light" : "dark"], the argument of setTheme;
    [theme] is undefined until the theme is known. *)
Definition is_dark (theme : option jsstring) : bool :=
  match theme with
  | Some t => string_eqb t (str "dark")
  | None => false
  end.

Definition toggle (theme : option jsstring) : option jsstring :=
  Some (if is_dark theme then str "light" else str "dark").

Inductive icon : Type :=
| Sun
| Moon.

Definition theme_icon (theme : option jsstring) : icon :=
  if is_dark theme then Sun else Moon.

(** ** Predicates for the pages *)

(** The request of a page fails: no answer, or an answer that is not OK. *)
Definition request_fails (fetch : jsstring -> promise Response) (url : jsstring) : Prop :=
  match fetch url with
  | Fulfilled res => ok res = false
  | Rejected _ => True
  end.

(** What [thesis.assets] is read as. *)
Definition assets_value (thesis : json) : value :=
  match thesis with
  | JObject fields => own_property (str "assets") fields
  | _ => None
  end.

Definition is_string (v : json) : bool :=
  match v with
  | JString _ => true
  | _ => false
  end.

(** Absent, null, or an array of strings. *)
Definition strings_or_absent (v : value) : bool :=
  match v with
  | None | Some JNull => true
  | Some (JArray l) => forallb is_string l
  | Some _ => false
  end.

Definition is_some {A : Type} (o : option A) : bool :=
  match o with
  | Some _ => true
  | None => false
  end.

(** What the effect of RepoModal keeps: the lock is held while a repo
    is shown; without one, the overflow is empty when a repo was shown
    before ([seen]), and as the page had it otherwise. *)
Definition lock_invariant (body_overflow : jsstring) (seen : bool)
    (cur : option Repo) (b : body_state) : Prop :=
  match cur with
  | Some _ => cleanup_pending b = true /\ overflow b = str "hidden"
  | None =>
      cleanup_pending b = false /\
      overflow b = if seen then [] else body_overflow
  end.

(** ASCII strings and what toLowerCase does on them. *)
Definition is_ascii (c : char) : bool := (c <? 128)%N.

Definition ascii_lower (c : char) : char :=
  if ((65 <=? c) && (c <=? 90))%N then (c + 32)%N else c.

Definition lowers_ascii (toLowerCase : jsstring -> jsstring) : Prop :=
  forall s, forallb is_ascii s = true -> toLowerCase s = map ascii_lower s.

(** The images of the carousel, none without a carousel. *)
Definition images_of (v : thesis_view) : list img := nullish (carousel v) [].

Definition is_element {A : Type} (s : slot A) : bool :=
  match s with
  | Element _ => true
  | Falsy _ => false
  end.


(** A card is rendered without a TypeError: the repository is not
    [null], and its date, if it has one, has a string. *)
Definition card_renders (repo : json) : bool :=
  match repo with
  | JNull => false
  | JObject fields =>
      match own_property (str "updated_at") fields with
      | Some d => ToString_returns d
      | None => true
      end
  | _ => true
  end.

(** The grid is rendered without a TypeError: the repositories are
    [null], or an array of repositories whose cards are. *)
Definition grid_renders (repos : json) : bool :=
  match repos with
  | JNull => true
  | JArray l => forallb card_renders l
  | _ => false
  end.

(** The address of the profile, if it has one, has a string. *)
Definition mailto_renders (profile : json) : bool :=
  match profile with
  | JObject fields =>
      match own_property (str "email") fields with
      | Some e => ToString_returns e
      | None => true
      end
  | _ => true
  end.


(** A thesis with an image, a PDF and another file, and its view. *)
Definition sample_thesis : json :=
  JObject
    [(str "title", JString (str "Bachelor thesis"));
     (str "assets",
      JArray [JString (str "plots/loss.PNG"); JString (str "thesis.pdf");
              JString (str "notes.txt")])].

Definition sample_thesis_view : thesis_view :=
  MkThesisView (Some (JString (str "Bachelor thesis"))) (Falsy None)
    (Some [MkImg (str "plots/loss.PNG") (str "plots/loss.PNG")])
    [MkFrame (str "thesis.pdf#toolbar=0&navpanes=0&scrollbar=0")
       (str "thesis.pdf") (str "thesis.pdf")].

(** * Lemmas *)

(** ** Facts about the matcher *)

Section MatcherFacts.

Variable ml : bool.

Lemma link_refl x : link x [] x.
Proof. split; reflexivity. Qed.

Lemma link_trans x m y m' z : link x m y -> link y m' z -> link x (m ++ m') z.
Proof.
  intros [Hr Hp] [Hr' Hp']. split.
  - rewrite Hr, Hr', app_assoc. reflexivity.
  - unfold last_of in *. rewrite fold_left_app, <- Hp. exact Hp'.
Qed.

Lemma link_length x m y : link x m y -> length (rest x) = length m + length (rest y).
Proof. intros [Hr _]. rewrite Hr, length_app. reflexivity. Qed.

Lemma link_consumed x m y : link x m y -> consumed x y = m.
Proof.
  intros [Hr _]. unfold consumed. rewrite Hr, length_app.
  replace (length m + length (rest y) - length (rest y)) with (length m + 0) by lia.
  rewrite firstn_app_2. simpl. apply app_nil_r.
Qed.

Section Closure.

Variable R : mstate -> mstate -> Prop.
Hypothesis R_refl : forall x, R x x.
Hypothesis R_trans : forall x y z, R x y -> R y z -> R x z.

Lemma star_loop_rel (m : mstate -> list mstate) (g : bool) :
  (forall x y, In y (m x) -> R x y) ->
  forall fuel x y, In y (star_loop m g fuel x) -> R x y.
Proof.
  intros Hm. induction fuel as [|k IH]; intros x y Hy.
  - destruct Hy as [<-|[]]. apply R_refl.
  - simpl in Hy.
    assert (Hmore : In y (flat_map (fun y0 =>
              if Nat.eqb (length (rest y0)) (length (rest x)) then []
              else star_loop m g k y0) (m x)) -> R x y).
    { intros Hin. apply in_flat_map in Hin. destruct Hin as [z [Hz Hin]].
      destruct (Nat.eqb _ _); [destruct Hin|].
      apply R_trans with z; [apply Hm; exact Hz | apply IH; exact Hin]. }
    destruct g.
    + apply in_app_or in Hy. destruct Hy as [Hy|[<-|[]]]; auto.
    + destruct Hy as [<-|Hy]; auto.
Qed.

Lemma rmatch_rel r : respects R r -> forall x y, In y (rmatch ml r x) -> R x y.
Proof.
  induction r as [|p|r1 IH1 r2 IH2|g r1 IH1|n r1 IH1|r1 IH1| |];
    simpl; intros HR x y Hy.
  - destruct Hy as [<-|[]]. apply R_refl.
  - destruct (rest x) as [|c t] eqn:E; [destruct Hy|].
    destruct (p c) eqn:Ep; [|destruct Hy].
    destruct Hy as [<-|[]]. apply HR; assumption.
  - destruct HR as [H1 H2]. apply in_flat_map in Hy.
    destruct Hy as [z [Hz Hy]]. eapply R_trans; eauto.
  - eapply star_loop_rel; [|exact Hy]. intros; apply IH1; assumption.
  - destruct HR as [H1 H2]. apply in_map_iff in Hy.
    destruct Hy as [z [<- Hz]]. apply H2, IH1; assumption.
  - destruct (rmatch ml r1 x); [|destruct Hy].
    destruct Hy as [<-|[]]. apply R_refl.
  - destruct (at_line_start ml x); [|destruct Hy].
    destruct Hy as [<-|[]]. apply R_refl.
  - destruct (at_line_end ml x); [|destruct Hy].
    destruct Hy as [<-|[]]. apply R_refl.
Qed.

End Closure.

Lemma reads_refl q x : reads q x x.
Proof. exists []. split; [apply link_refl | reflexivity]. Qed.

Lemma reads_trans q x y z : reads q x y -> reads q y z -> reads q x z.
Proof.
  intros [m [Hl Hq]] [m' [Hl' Hq']]. exists (m ++ m'). split.
  - eapply link_trans; eauto.
  - rewrite forallb_app, Hq, Hq'. reflexivity.
Qed.

Lemma within_respects q r : within q r -> respects (reads q) r.
Proof.
  induction r as [|p|r1 IH1 r2 IH2|g r1 IH1|n r1 IH1|r1 IH1| |];
    simpl; intros H; try exact I.
  - intros x c t Hx Hp. exists [c]. split.
    + split; simpl; [exact Hx | reflexivity].
    + simpl. rewrite (H c Hp). reflexivity.
  - destruct H; split; auto.
  - auto.
  - split; auto.
Qed.

Lemma rmatch_reads q r x y :
  within q r -> In y (rmatch ml r x) -> reads q x y.
Proof.
  intros H.
  apply (rmatch_rel (reads q)).
  - apply reads_refl.
  - apply reads_trans.
  - apply within_respects; exact H.
Qed.

Lemma within_any r : within (fun _ => true) r.
Proof. induction r; simpl; try split; trivial. Qed.

Lemma rmatch_link r x y : In y (rmatch ml r x) -> exists m, link x m y.
Proof.
  intros H. destruct (rmatch_reads (fun _ => true) r x y (within_any r) H) as [m [Hl _]].
  eauto.
Qed.

Lemma rmatch_length r x y :
  In y (rmatch ml r x) -> length (rest y) <= length (rest x).
Proof.
  intros H. destruct (rmatch_link r x y H) as [m Hl].
  rewrite (link_length x m y Hl). lia.
Qed.

Lemma group_free_respects r :
  group_free r -> respects (fun x y => caps y = caps x) r.
Proof.
  induction r as [|p|r1 IH1 r2 IH2|g r1 IH1|n r1 IH1|r1 IH1| |];
    simpl; intros H; try exact I.
  - intros; reflexivity.
  - destruct H; split; auto.
  - auto.
  - destruct H.
Qed.

Lemma rmatch_caps r x y :
  group_free r -> In y (rmatch ml r x) -> caps y = caps x.
Proof.
  intros H.
  apply (rmatch_rel (fun x y => caps y = caps x)).
  - reflexivity.
  - intros; congruence.
  - apply group_free_respects; exact H.
Qed.

End MatcherFacts.

(** *** The iteration bound of [star_loop] is never what ends a repetition *)

Lemma flat_map_ext_in {A B : Type} (f g : A -> list B) (l : list A) :
  (forall a, In a l -> f a = g a) -> flat_map f l = flat_map g l.
Proof.
  induction l as [|a l IH]; intros H; simpl; [reflexivity|].
  rewrite (H a (or_introl eq_refl)), IH; [reflexivity|].
  intros b Hb. apply H. right. exact Hb.
Qed.

Lemma flat_map_nil {A B : Type} (l : list A) :
  flat_map (fun _ : A => @nil B) l = [].
Proof. induction l; simpl; auto. Qed.

Section Fuel.

Variable m : mstate -> list mstate.
Variable g : bool.
Hypothesis m_shortens :
  forall x y, In y (m x) -> length (rest y) <= length (rest x).

Lemma star_loop_at_end n x :
  length (rest x) = 0 -> star_loop m g n x = [x].
Proof.
  intros Hx. destruct n as [|k]; [reflexivity|]. simpl.
  rewrite (flat_map_ext_in _ (fun _ => [])), flat_map_nil.
  - destruct g; reflexivity.
  - intros y Hy. apply m_shortens in Hy.
    replace (length (rest y)) with (length (rest x)) by lia.
    rewrite Nat.eqb_refl. reflexivity.
Qed.

Lemma star_loop_fuel n1 :
  forall n2 x, length (rest x) <= n1 -> length (rest x) <= n2 ->
    star_loop m g n1 x = star_loop m g n2 x.
Proof.
  induction n1 as [|k IH]; intros n2 x H1 H2.
  - rewrite (star_loop_at_end n2) by lia. reflexivity.
  - destruct n2 as [|k2].
    + rewrite (star_loop_at_end (S k)) by lia. reflexivity.
    + simpl.
      rewrite (flat_map_ext_in _ (fun y =>
                 if Nat.eqb (length (rest y)) (length (rest x)) then []
                 else star_loop m g k2 y)); [reflexivity|].
      intros y Hy. apply m_shortens in Hy.
      destruct (Nat.eqb (length (rest y)) (length (rest x))) eqn:E;
        [reflexivity|].
      apply Nat.eqb_neq in E. apply IH; lia.
Qed.

End Fuel.

(** *** The scan as the loop of successive matches *)

Lemma scan_skip re :
  forall k p s, k <= length s ->
    scan re k p s = scan re 0 (last_of (firstn k s) p) (skipn k s).
Proof.
  induction k as [|k IH]; intros p s Hk.
  - reflexivity.
  - destruct s as [|c t]; simpl in Hk; [lia|].
    simpl. apply IH. lia.
Qed.

Lemma scan_zero re p s :
  scan re 0 p s =
  match rmatch (multiline re) (pattern re) (start p s) with
  | y :: _ =>
      let n := length s - length (rest y) in
      Matched (firstn n s) (caps y) ::
      match s with
      | [] => []
      | c :: t =>
          if Nat.eqb n 0 then Copied c :: scan re 0 (Some c) t
          else scan re (n - 1) (Some c) t
      end
  | [] =>
      match s with
      | [] => []
      | c :: t => Copied c :: scan re 0 (Some c) t
      end
  end.
Proof. destruct s; reflexivity. Qed.

(** After a match that read [c :: m'] the scan resumes at its end; an
    empty match copies one code unit and resumes behind it. *)
Lemma scan_unfold re p s :
  scan re 0 p s =
  match rmatch (multiline re) (pattern re) (start p s) with
  | [] => scan_copy re s
  | y :: _ =>
      Matched (consumed (start p s) y) (caps y) ::
      match consumed (start p s) y with
      | [] => scan_copy re s
      | _ :: _ => scan re 0 (prev y) (rest y)
      end
  end.
Proof.
  rewrite scan_zero.
  destruct (rmatch (multiline re) (pattern re) (start p s)) as [|y l] eqn:E;
    [reflexivity|].
  destruct (rmatch_link (multiline re) (pattern re) (start p s) y) as [m Hl].
  { rewrite E. left. reflexivity. }
  rewrite (link_consumed _ _ _ Hl).
  destruct Hl as [Hr Hp]. simpl in Hr, Hp.
  assert (Hn : length s - length (rest y) = length m).
  { rewrite Hr, length_app. lia. }
  cbv zeta. rewrite Hn.
  assert (Hm : firstn (length m) s = m).
  { rewrite Hr. replace (length m) with (length m + 0) by lia.
    rewrite firstn_app_2. simpl. apply app_nil_r. }
  rewrite Hm. f_equal.
  destruct m as [|c m'].
  - destruct s; reflexivity.
  - rewrite Hr. simpl.
    rewrite Nat.sub_0_r, scan_skip by (rewrite length_app; lia).
    replace (length m') with (length m' + 0) at 1 by lia.
    rewrite firstn_app_2, skipn_app, Nat.sub_diag, skipn_all. simpl.
    rewrite app_nil_r. rewrite Hp. reflexivity.
Qed.

(** *** Where nothing matches, the text is copied *)

Lemma expand_copied tmpl s : flat_map (expand tmpl) (map Copied s) = s.
Proof. induction s as [|c s IH]; simpl; [|rewrite IH]; reflexivity. Qed.

Section NoMatch.

Variable re : RegExp.
Variable P : option char -> jsstring -> Prop.
Hypothesis P_step : forall p c t, P p (c :: t) -> P (Some c) t.
Hypothesis P_fails :
  forall p s, P p s -> rmatch (multiline re) (pattern re) (start p s) = [].

Lemma scan_no_match : forall s p, P p s -> scan re 0 p s = map Copied s.
Proof.
  induction s as [|c t IH]; intros p H; rewrite scan_zero, (P_fails p _ H).
  - reflexivity.
  - simpl. rewrite (IH (Some c)); [reflexivity|]. eapply P_step; eauto.
Qed.

Lemma replace_no_match tmpl s : P None s -> replace re tmpl s = s.
Proof.
  intros H. unfold replace. rewrite (scan_no_match s None H).
  apply expand_copied.
Qed.

End NoMatch.

(** *** Inversion of matches *)

Lemma rmatch_charset_inv ml p x y :
  In y (rmatch ml (CharSet p) x) ->
  exists c t, rest x = c :: t /\ p c = true /\ y = MState (Some c) t (caps x).
Proof.
  simpl. destruct (rest x) as [|c t]; [intros []|].
  destruct (p c) eqn:E; [|intros []].
  intros [<-|[]]. exists c, t. auto.
Qed.

Lemma rmatch_seq_inv ml r1 r2 x y :
  In y (rmatch ml (Seq r1 r2) x) ->
  exists z, In z (rmatch ml r1 x) /\ In y (rmatch ml r2 z).
Proof. simpl. intros H. apply in_flat_map in H. exact H. Qed.

Lemma rmatch_group_inv ml n r x y :
  In y (rmatch ml (Group n r) x) ->
  exists z, In z (rmatch ml r x) /\ y = set_cap n x z.
Proof.
  simpl. intros H. apply in_map_iff in H.
  destruct H as [z [<- Hz]]. eauto.
Qed.

Lemma rmatch_lit_inv ml l :
  forall x y, In y (rmatch ml (lit l) x) -> link x l y /\ caps y = caps x.
Proof.
  induction l as [|a l IH]; intros x y H.
  - destruct H as [<-|[]]. split; [apply link_refl | reflexivity].
  - apply rmatch_seq_inv in H. destruct H as [z [Hz Hy]].
    apply rmatch_charset_inv in Hz.
    destruct Hz as [c [t [Hx [Hc ->]]]].
    apply IH in Hy. destruct Hy as [[Hr Hp] Hcaps]. simpl in *.
    unfold is_char in Hc. apply N.eqb_eq in Hc. subst c.
    split; [split|exact Hcaps].
    + rewrite Hx, Hr. reflexivity.
    + exact Hp.
Qed.

Lemma nil_or_in {A : Type} (l : list A) : l = [] \/ exists a, In a l.
Proof. destruct l as [|a l]; [left; reflexivity | right; exists a; left; reflexivity]. Qed.

(** ** Plain text *)

Lemma starts_with_app l r : starts_with l (l ++ r) = true.
Proof.
  induction l as [|a l IH]; simpl; [reflexivity|].
  unfold is_char at 1. rewrite N.eqb_refl. exact IH.
Qed.

Lemma class_bullet_not_space c : class_bullet c = true -> class_s c = false.
Proof.
  unfold class_bullet, STAR, DASH. intros H.
  apply orb_true_iff in H. destruct H as [H|H]; apply N.eqb_eq in H; subst c;
    reflexivity.
Qed.

Lemma bullet_at_skip m r :
  forallb class_s m = true -> bullet_at (m ++ r) = bullet_at r.
Proof.
  induction m as [|c m IH]; simpl; [reflexivity|].
  intros H. apply andb_true_iff in H. destruct H as [Hc Hm].
  rewrite Hc. auto.
Qed.

Lemma within_star_s g : within class_s (Star g (CharSet class_s)).
Proof. simpl. auto. Qed.

(** Where no line is a bullet line, the bullet expression matches nowhere. *)
Lemma bullet_re_fails p s :
  has_bullet_line p s = false ->
  rmatch (multiline bullet_re) (pattern bullet_re) (start p s) = [].
Proof.
  intros H.
  destruct (nil_or_in (rmatch (multiline bullet_re) (pattern bullet_re) (start p s)))
    as [E|[y Hy]]; [exact E|exfalso].
  unfold bullet_re, pattern, multiline in Hy.
  apply rmatch_seq_inv in Hy. destruct Hy as [x0 [Hx0 Hy]].
  simpl in Hx0. unfold at_line_start in Hx0. simpl in Hx0.
  assert (Hb : bullet_at s = false /\ x0 = start p s).
  { destruct s as [|c t]; simpl in H; apply orb_false_iff in H;
      destruct H as [H _];
      destruct p as [c0|]; simpl in *;
        try (destruct (is_line_terminator c0); [|destruct Hx0]);
        destruct Hx0 as [<-|[]]; auto. }
  destruct Hb as [Hb ->]. clear Hx0 H.
  apply rmatch_seq_inv in Hy. destruct Hy as [x1 [Hx1 Hy]].
  apply (rmatch_reads true class_s) in Hx1; [|apply within_star_s].
  destruct Hx1 as [m [[Hr _] Hm]]. simpl in Hr.
  rewrite Hr, (bullet_at_skip _ _ Hm) in Hb.
  apply rmatch_seq_inv in Hy. destruct Hy as [x2 [Hx2 Hy]].
  apply rmatch_charset_inv in Hx2. destruct Hx2 as [c [t [Hc [Hcb ->]]]].
  apply rmatch_seq_inv in Hy. destruct Hy as [x3 [Hx3 _]].
  apply rmatch_seq_inv in Hx3. destruct Hx3 as [x4 [Hx4 _]].
  apply rmatch_charset_inv in Hx4. destruct Hx4 as [d [t' [Hd [Hds _]]]].
  simpl in Hd. subst t. rewrite Hc in Hb. simpl in Hb.
  rewrite (class_bullet_not_space c Hcb), Hcb, Hds in Hb. discriminate.
Qed.

Lemma has_char_head a c t :
  has_char a (c :: t) = false -> is_char a c = false /\ has_char a t = false.
Proof. unfold has_char. simpl. intros H. apply orb_false_iff in H. exact H. Qed.

(** An expression whose first step reads the character [a] matches
    nowhere in a text without [a]. *)
Lemma first_char_fails ml a r p s :
  has_char a s = false ->
  rmatch ml (Seq (CharSet (is_char a)) r) (start p s) = [].
Proof.
  intros H. simpl. destruct s as [|c t]; [reflexivity|].
  apply has_char_head in H. destruct H as [H _]. rewrite H. reflexivity.
Qed.

Lemma bold_re_fails p s :
  has_char STAR s = false ->
  rmatch (multiline bold_re) (pattern bold_re) (start p s) = [].
Proof.
  intros H. unfold bold_re, pattern, multiline.
  change (lit (str "**")) with
    (Seq (CharSet (is_char STAR)) (Seq (CharSet (is_char STAR)) Empty)).
  simpl. destruct s as [|c t]; [reflexivity|].
  apply has_char_head in H. destruct H as [H _]. rewrite H. reflexivity.
Qed.

Lemma italic_re_fails p s :
  has_char STAR s = false ->
  rmatch (multiline italic_re) (pattern italic_re) (start p s) = [].
Proof. apply first_char_fails. Qed.

Lemma code_re_fails p s :
  has_char BACKTICK s = false ->
  rmatch (multiline code_re) (pattern code_re) (start p s) = [].
Proof. apply first_char_fails. Qed.

Lemma contains_tail pat c t : contains pat (c :: t) = false -> contains pat t = false.
Proof. simpl. intros H. apply orb_false_iff in H. tauto. Qed.

Lemma contains_head pat s : contains pat s = false -> starts_with pat s = false.
Proof. destruct s; simpl; intros H; apply orb_false_iff in H; tauto. Qed.

Lemma list_re_fails p s :
  contains (str "<li>") s = false ->
  rmatch (multiline list_re) (pattern list_re) (start p s) = [].
Proof.
  intros H.
  destruct (nil_or_in (rmatch (multiline list_re) (pattern list_re) (start p s)))
    as [E|[y Hy]]; [exact E|exfalso].
  unfold list_re, pattern, multiline in Hy.
  apply rmatch_group_inv in Hy. destruct Hy as [z [Hz _]].
  apply rmatch_seq_inv in Hz. destruct Hz as [x1 [Hx1 _]].
  apply rmatch_seq_inv in Hx1. destruct Hx1 as [x2 [Hx2 _]].
  apply rmatch_lit_inv in Hx2. destruct Hx2 as [[Hr _] _]. simpl in Hr.
  apply contains_head in H. rewrite Hr in H.
  change (starts_with (str "<li>") (str "<li>" ++ rest x2) = false) in H.
  rewrite starts_with_app in H. discriminate.
Qed.

(** ** What a replacement keeps of the text *)

Lemma subseq_refl {A : Type} (l : list A) : subseq l l.
Proof. induction l; constructor; assumption. Qed.

Lemma subseq_nil_l {A : Type} (l : list A) : subseq [] l.
Proof. induction l; constructor; assumption. Qed.

Lemma subseq_trans {A : Type} (l2 l3 : list A) :
  subseq l2 l3 -> forall l1, subseq l1 l2 -> subseq l1 l3.
Proof.
  induction 1 as [|a l2 l3 H IH|a l2 l3 H IH]; intros l1 H1.
  - exact H1.
  - inversion H1; subst.
    + apply subseq_keep. apply IH. assumption.
    + apply subseq_skip. apply IH. assumption.
  - apply subseq_skip. apply IH. exact H1.
Qed.

Lemma subseq_app {A : Type} (a b : list A) :
  subseq a b -> forall c d, subseq c d -> subseq (a ++ c) (b ++ d).
Proof.
  induction 1; intros c d Hcd; simpl.
  - exact Hcd.
  - apply subseq_keep. auto.
  - apply subseq_skip. auto.
Qed.

Lemma subseq_prepend {A : Type} (pre a b : list A) :
  subseq a b -> subseq a (pre ++ b).
Proof. intros H. apply (subseq_app [] pre (subseq_nil_l pre) a b H). Qed.

Lemma subseq_append {A : Type} (post a b : list A) :
  subseq a b -> subseq a (b ++ post).
Proof.
  intros H. rewrite <- (app_nil_r a).
  apply subseq_app; [exact H | apply subseq_nil_l].
Qed.

Lemma subseq_filter {A : Type} (f : A -> bool) (a b : list A) :
  subseq a b -> subseq (filter f a) (filter f b).
Proof.
  induction 1 as [|x a b H IH|x a b H IH]; simpl.
  - constructor.
  - destruct (f x); [apply subseq_keep|]; exact IH.
  - destruct (f x); [apply subseq_skip|]; exact IH.
Qed.

Lemma filter_subseq {A : Type} (f : A -> bool) (l : list A) :
  subseq (filter f l) l.
Proof.
  induction l as [|x l IH]; simpl; [constructor|].
  destruct (f x); constructor; exact IH.
Qed.

Lemma filter_idem {A : Type} (f : A -> bool) (l : list A) :
  filter f (filter f l) = filter f l.
Proof.
  induction l as [|x l IH]; simpl; [reflexivity|].
  destruct (f x) eqn:E; simpl; [rewrite E, IH|]; auto.
Qed.

Lemma kept_app a b : kept (a ++ b) = kept a ++ kept b.
Proof. apply filter_app. Qed.

Lemma kept_removable m : forallb removable m = true -> kept m = [].
Proof.
  induction m as [|c m IH]; simpl; [reflexivity|].
  intros H. apply andb_true_iff in H. destruct H as [Hc Hm].
  rewrite Hc. simpl. auto.
Qed.

Lemma kept_chain a b c :
  subseq (kept a) b -> subseq (kept b) c -> subseq (kept a) c.
Proof.
  intros Hab Hbc. apply (subseq_trans _ _ Hbc).
  unfold kept in *. rewrite <- (filter_idem _ a).
  apply subseq_filter. exact Hab.
Qed.

Lemma keeps_group r : keeps_text (Group 1 r).
Proof.
  intros ml x y H. apply rmatch_group_inv in H. destruct H as [z [Hz ->]].
  destruct (rmatch_link ml r x z Hz) as [m Hl]. exists m. split.
  - exact Hl.
  - simpl. rewrite (link_consumed x m z Hl). apply filter_subseq.
Qed.

Lemma keeps_seq_l r1 r2 : drops_only r1 -> keeps_text r2 -> keeps_text (Seq r1 r2).
Proof.
  intros [Hw Hg] H2 ml x y H. apply rmatch_seq_inv in H.
  destruct H as [z [Hz Hy]].
  destruct (rmatch_reads ml removable r1 x z Hw Hz) as [m1 [Hl1 Hq]].
  destruct (H2 ml z y Hy) as [m2 [Hl2 Hs]].
  exists (m1 ++ m2). split.
  - eapply link_trans; eauto.
  - rewrite kept_app, (kept_removable m1 Hq). exact Hs.
Qed.

Lemma keeps_seq_r r1 r2 : keeps_text r1 -> drops_only r2 -> keeps_text (Seq r1 r2).
Proof.
  intros H1 [Hw Hg] ml x y H. apply rmatch_seq_inv in H.
  destruct H as [z [Hz Hy]].
  destruct (H1 ml x z Hz) as [m1 [Hl1 Hs]].
  destruct (rmatch_reads ml removable r2 z y Hw Hy) as [m2 [Hl2 Hq]].
  exists (m1 ++ m2). split.
  - eapply link_trans; eauto.
  - rewrite kept_app, (kept_removable m2 Hq), app_nil_r.
    rewrite (rmatch_caps ml r2 z y Hg Hy). exact Hs.
Qed.

Lemma expand_wrap tag cs :
  flat_map (expand_part cs) (wrap_tmpl tag) =
  str ("<" ++ tag ++ ">")%string ++ get_cap 1 cs ++ str ("</" ++ tag ++ ">")%string.
Proof. simpl. rewrite app_nil_r. reflexivity. Qed.

Section ReplaceKeeps.

Variable re : RegExp.
Variable tag : string.
Hypothesis re_keeps : keeps_text (pattern re).

Lemma scan_copy_keeps n s :
  (forall s' p, length s' <= n ->
     subseq (kept s') (flat_map (expand (wrap_tmpl tag)) (scan re 0 p s'))) ->
  length s <= S n ->
  subseq (kept s) (flat_map (expand (wrap_tmpl tag)) (scan_copy re s)).
Proof.
  intros IH Hn. destruct s as [|c t]; simpl; [constructor|].
  simpl in Hn. unfold kept. simpl.
  destruct (removable c); simpl.
  - apply subseq_skip. apply IH. lia.
  - apply subseq_keep. apply IH. lia.
Qed.

Lemma scan_keeps n :
  forall s p, length s <= n ->
    subseq (kept s) (flat_map (expand (wrap_tmpl tag)) (scan re 0 p s)).
Proof.
  induction n as [|n IH]; intros s p Hn.
  - destruct s; [|simpl in Hn; lia]. apply subseq_nil_l.
  - rewrite scan_unfold.
    destruct (rmatch (multiline re) (pattern re) (start p s)) as [|y l] eqn:E.
    + apply (scan_copy_keeps n); assumption.
    + destruct (re_keeps (multiline re) (start p s) y) as [m [Hl Hs]].
      { rewrite E. left. reflexivity. }
      rewrite (link_consumed _ _ _ Hl).
      cbn [flat_map expand]. rewrite expand_wrap.
      destruct m as [|c m'].
      * apply subseq_prepend. apply (scan_copy_keeps n); assumption.
      * pose proof (link_length _ _ _ Hl) as Hlen.
        destruct Hl as [Hr _]. simpl in Hlen.
        change (rest (start p s)) with s in Hr.
        rewrite Hr, kept_app.
        apply subseq_app.
        -- apply subseq_prepend, subseq_append. exact Hs.
        -- apply IH. lia.
Qed.

Lemma replace_keeps s : subseq (kept s) (replace re (wrap_tmpl tag) s).
Proof. unfold replace. apply (scan_keeps (length s)). lia. Qed.

End ReplaceKeeps.

Lemma removable_s c : class_s c = true -> removable c = true.
Proof. unfold removable. intros ->. reflexivity. Qed.

Lemma removable_bullet c : class_bullet c = true -> removable c = true.
Proof.
  unfold removable, class_bullet, is_char. intros H.
  apply orb_true_iff in H. destruct H as [H|H]; rewrite H;
    rewrite ?orb_true_r; reflexivity.
Qed.

Lemma removable_star c : is_char STAR c = true -> removable c = true.
Proof. unfold removable. intros ->. rewrite ?orb_true_r. reflexivity. Qed.

Lemma removable_backtick c : is_char BACKTICK c = true -> removable c = true.
Proof. unfold removable. intros ->. rewrite ?orb_true_r. reflexivity. Qed.

Lemma bullet_re_keeps : keeps_text (pattern bullet_re).
Proof.
  unfold bullet_re, pattern.
  apply keeps_seq_l; [split; exact I|].
  apply keeps_seq_l; [split; [exact removable_s | exact I]|].
  apply keeps_seq_l; [split; [exact removable_bullet | exact I]|].
  apply keeps_seq_l; [split; [split; exact removable_s | split; exact I]|].
  apply keeps_seq_r; [apply keeps_group | split; exact I].
Qed.

Lemma list_re_keeps : keeps_text (pattern list_re).
Proof. apply keeps_group. Qed.

Lemma bold_re_keeps : keeps_text (pattern bold_re).
Proof.
  unfold bold_re, pattern.
  apply keeps_seq_l.
  { split; simpl; repeat split; exact removable_star. }
  apply keeps_seq_r; [apply keeps_group|].
  split; simpl; repeat split; exact removable_star.
Qed.

Lemma italic_re_keeps : keeps_text (pattern italic_re).
Proof.
  unfold italic_re, pattern.
  apply keeps_seq_l; [split; [exact removable_star | exact I]|].
  apply keeps_seq_l; [split; exact I|].
  apply keeps_seq_r; [apply keeps_group|].
  split; [exact removable_star | exact I].
Qed.

Lemma code_re_keeps : keeps_text (pattern code_re).
Proof.
  unfold code_re, pattern.
  apply keeps_seq_l; [split; [exact removable_backtick | exact I]|].
  apply keeps_seq_r; [apply keeps_group|].
  split; [exact removable_backtick | exact I].
Qed.

Lemma renderMarkdown_keeps text : subseq (kept text) (renderMarkdown text).
Proof.
  unfold renderMarkdown. cbv zeta.
  eapply kept_chain; [|apply replace_keeps, code_re_keeps].
  eapply kept_chain; [|apply replace_keeps, italic_re_keeps].
  eapply kept_chain; [|apply replace_keeps, bold_re_keeps].
  eapply kept_chain; [|apply replace_keeps, list_re_keeps].
  apply replace_keeps, bullet_re_keeps.
Qed.

(** ** The greedy repetition and the grouping of list items *)


Lemma hd_flat_map {A B : Type} (f : A -> list B) (l : list A) (b : B) :
  hd_error (flat_map f l) = Some b ->
  exists a, In a l /\ hd_error (f a) = Some b.
Proof.
  induction l as [|a l IH]; simpl; [discriminate|].
  destruct (f a) as [|b' l'] eqn:E; simpl.
  - intros H. destruct (IH H) as [a' [Ha' Hb]]. eauto.
  - intros H. exists a. rewrite E. auto.
Qed.

Section GreedyHead.

Variable m : mstate -> list mstate.
Hypothesis m_advances :
  forall x y, In y (m x) -> length (rest y) < length (rest x).


End GreedyHead.


Lemma list_item_advances ml x y :
  In y (rmatch ml list_item_re x) -> length (rest y) < length (rest x).
Proof.
  intros H. unfold list_item_re in H.
  apply rmatch_seq_inv in H. destruct H as [z [Hz Hy]].
  apply rmatch_lit_inv in Hz. destruct Hz as [Hl _].
  apply link_length in Hl. apply rmatch_length in Hy. simpl in Hl. lia.
Qed.


Lemma rmatch_seq_eq ml r1 r2 x :
  rmatch ml (Seq r1 r2) x = flat_map (rmatch ml r2) (rmatch ml r1 x).
Proof. reflexivity. Qed.

Lemma rmatch_star_eq ml g r x :
  rmatch ml (Star g r) x = star_loop (rmatch ml r) g (length (rest x)) x.
Proof. reflexivity. Qed.




(** ** The RegExp objects of one call *)

Lemma store_fresh h o o' : Effects.store (length h) o' (h ++ [o]) = h ++ [o'].
Proof. induction h as [|a h IH]; simpl; [|rewrite IH]; reflexivity. Qed.

Lemma nth_error_fresh (h : Effects.heap) o : nth_error (h ++ [o]) (length h) = Some o.
Proof. induction h as [|a h IH]; simpl; [reflexivity | exact IH]. Qed.

Lemma set_lastIndex_fresh h re i j :
  Effects.set_lastIndex (length h) j (h ++ [Effects.MkObject re i]) =
  (tt, h ++ [Effects.MkObject re j]).
Proof.
  unfold Effects.set_lastIndex. rewrite nth_error_fresh, store_fresh. reflexivity.
Qed.

Lemma read_fresh h o : Effects.read (length h) (h ++ [o]) = (Some o, h ++ [o]).
Proof. unfold Effects.read. rewrite nth_error_fresh. reflexivity. Qed.

Lemma search_eq re i p s :
  Effects.search re i p s =
  match rmatch (multiline re) (pattern re) (start p s) with
  | y :: _ => Some (Effects.MkMatch i (consumed (start p s) y) (caps y))
  | [] =>
      match s with
      | [] => None
      | c :: t => Effects.search re (S i) (Some c) t
      end
  end.
Proof. destruct s; reflexivity. Qed.

(** The search and the scan agree: up to the first match the scan copies,
    and where the search finds nothing the scan copies everything. *)
Lemma search_spec re :
  forall s i p,
    match Effects.search re i p s with
    | None => scan re 0 p s = map Copied s
    | Some r =>
        exists u v y l,
          s = u ++ v /\ Effects.index r = i + length u /\
          rmatch (multiline re) (pattern re) (start (last_of u p) v) = y :: l /\
          Effects.matched r = consumed (start (last_of u p) v) y /\
          Effects.groups r = caps y /\
          scan re 0 p s = map Copied u ++ scan re 0 (last_of u p) v
    end.
Proof.
  induction s as [|c t IH]; intros i p; rewrite search_eq;
    destruct (rmatch (multiline re) (pattern re) (start p _)) as [|y l] eqn:E.
  - rewrite scan_zero, E. reflexivity.
  - exists [], [], y, l. repeat split; auto.
  - specialize (IH (S i) (Some c)).
    destruct (Effects.search re (S i) (Some c) t) as [r|].
    + destruct IH as [u [v [y [l [Ht [Hi [Hm [Hmt [Hg Hsc]]]]]]]]].
      exists (c :: u), v, y, l.
      change (last_of (c :: u) p) with (last_of u (Some c)).
      repeat split; auto.
      * rewrite Ht. reflexivity.
      * rewrite Hi. simpl. lia.
      * rewrite scan_zero, E. cbv beta match. rewrite Hsc. reflexivity.
    + rewrite scan_zero, E. cbv beta match. rewrite IH. reflexivity.
  - exists [], (c :: t), y, l. repeat split; auto.
Qed.

Lemma exec_fresh h re pre suf :
  Effects.exec (length h) (pre ++ suf) (h ++ [Effects.MkObject re (length pre)]) =
  match Effects.search re (length pre) (last_of pre None) suf with
  | None => (None, h ++ [Effects.MkObject re 0])
  | Some r =>
      (Some r,
       h ++ [Effects.MkObject re (Effects.index r + length (Effects.matched r))])
  end.
Proof.
  unfold Effects.exec, Effects.bind at 1. rewrite read_fresh.
  cbn [Effects.lastIndex Effects.regexp].
  assert (Hlt : Nat.ltb (length (pre ++ suf)) (length pre) = false).
  { apply Nat.ltb_ge. rewrite length_app. lia. }
  rewrite Hlt.
  replace (firstn (length pre) (pre ++ suf)) with pre.
  2:{ replace (length pre) with (length pre + 0) by lia.
      rewrite firstn_app_2. simpl. rewrite app_nil_r. reflexivity. }
  rewrite skipn_app, skipn_all, Nat.sub_diag. simpl.
  destruct (Effects.search re (length pre) (last_of pre None) suf);
    unfold Effects.bind, Effects.ret; rewrite set_lastIndex_fresh; reflexivity.
Qed.

Lemma exec_past_end h re s i :
  length s < i ->
  Effects.exec (length h) s (h ++ [Effects.MkObject re i]) =
  (None, h ++ [Effects.MkObject re 0]).
Proof.
  intros H. unfold Effects.exec, Effects.bind at 1. rewrite read_fresh.
  cbn [Effects.lastIndex Effects.regexp].
  apply Nat.ltb_lt in H. rewrite H.
  unfold Effects.bind, Effects.ret. rewrite set_lastIndex_fresh. reflexivity.
Qed.

Lemma advance_fresh h re i r :
  Effects.advance_if_empty (length h) r (h ++ [Effects.MkObject re i]) =
  (tt, h ++ [Effects.MkObject re
               match Effects.matched r with [] => S i | _ :: _ => i end]).
Proof.
  unfold Effects.advance_if_empty. destruct (Effects.matched r); [|reflexivity].
  unfold Effects.bind. rewrite read_fresh. cbn [Effects.lastIndex].
  apply set_lastIndex_fresh.
Qed.

Lemma collect_past_end h re s i k :
  length s < i ->
  Effects.collect (S k) (length h) s (h ++ [Effects.MkObject re i]) =
  ([], h ++ [Effects.MkObject re 0]).
Proof.
  intros H. cbn [Effects.collect]. unfold Effects.bind at 1.
  rewrite exec_past_end by exact H. reflexivity.
Qed.

Lemma firstn_plus {A : Type} (a b : nat) :
  forall l : list A, firstn (a + b) l = firstn a l ++ firstn b (skipn a l).
Proof.
  induction a as [|a IH]; intros l; [reflexivity|].
  destruct l as [|x l]; simpl; [rewrite firstn_nil; reflexivity|].
  rewrite IH. reflexivity.
Qed.

(** The pieces before the first match can be taken in two steps. *)
Lemma assemble_shift tmpl s rs :
  forall n i, n <= i ->
    Forall (fun r => i <= Effects.index r) rs ->
    Effects.assemble tmpl s rs n =
    firstn (i - n) (skipn n s) ++ Effects.assemble tmpl s rs i.
Proof.
  intros n i Hni Hrs. destruct rs as [|r rs]; cbn [Effects.assemble].
  - replace i with ((i - n) + n) at 2 by lia.
    rewrite <- skipn_skipn, firstn_skipn. reflexivity.
  - apply Forall_inv in Hrs.
    destruct (Nat.leb_spec n (Effects.index r)); [|lia].
    destruct (Nat.leb_spec i (Effects.index r)); [|lia].
    replace (Effects.index r - n) with ((i - n) + (Effects.index r - i)) by lia.
    rewrite firstn_plus, skipn_skipn.
    replace (i - n + n) with i by lia.
    rewrite <- app_assoc. reflexivity.
Qed.

Lemma last_of_app a b p : last_of (a ++ b) p = last_of b (last_of a p).
Proof. unfold last_of. apply fold_left_app. Qed.

(** The loop of [replace] computes what the scan computes, and leaves
    [lastIndex] at 0. *)
Lemma collect_fresh h re tmpl :
  forall fuel pre suf, length suf + 2 <= fuel ->
    exists rs,
      Effects.collect fuel (length h) (pre ++ suf)
        (h ++ [Effects.MkObject re (length pre)]) =
      (rs, h ++ [Effects.MkObject re 0]) /\
      Forall (fun r => length pre <= Effects.index r) rs /\
      Effects.assemble tmpl (pre ++ suf) rs (length pre) =
      flat_map (expand tmpl) (scan re 0 (last_of pre None) suf).
Proof.
  induction fuel as [|k IH]; intros pre suf Hf; [lia|].
  cbn [Effects.collect]. unfold Effects.bind at 1. rewrite exec_fresh.
  pose proof (search_spec re suf (length pre) (last_of pre None)) as Hs.
  destruct (Effects.search re (length pre) (last_of pre None) suf) as [r|].
  2:{ exists []. split; [reflexivity|]. split; [constructor|].
      cbn [Effects.assemble]. rewrite skipn_app, skipn_all, Nat.sub_diag.
      simpl. rewrite Hs. symmetry. apply expand_copied. }
  destruct Hs as [u [v [y [l [Hsuf [Hidx [Hm [Hmt [Hg Hscan]]]]]]]]].
  destruct (rmatch_link (multiline re) (pattern re)
              (start (last_of u (last_of pre None)) v) y) as [m Hl].
  { rewrite Hm. left. reflexivity. }
  rewrite (link_consumed _ _ _ Hl) in Hmt.
  pose proof (scan_unfold re (last_of u (last_of pre None)) v) as Hv.
  rewrite Hm, (link_consumed _ _ _ Hl) in Hv.
  destruct Hl as [Hr Hp]. simpl in Hr, Hp.
  unfold Effects.bind at 1. rewrite advance_fresh, Hmt.
  assert (Hfirst : firstn (Effects.index r - length pre)
                     (skipn (length pre) (pre ++ suf)) = u).
  { rewrite skipn_app, skipn_all, Nat.sub_diag. simpl.
    rewrite Hidx, Hsuf. replace (length pre + length u - length pre)
      with (length u + 0) by lia.
    rewrite firstn_app_2. simpl. apply app_nil_r. }
  assert (Hle : Nat.leb (length pre) (Effects.index r) = true).
  { apply Nat.leb_le. lia. }
  rewrite Hscan, flat_map_app, expand_copied.
  destruct m as [|c0 m'].
  - (* an empty match *)
    simpl in Hr. subst v. rewrite Nat.add_0_r.
    destruct (rest y) as [|c t] eqn:Ey.
    + (* at the end of the input *)
      destruct k as [|k]; [rewrite Hsuf, length_app in Hf; simpl in Hf; lia|].
      unfold Effects.bind at 1. rewrite collect_past_end.
      2:{ rewrite Hidx, Hsuf, !length_app. simpl. lia. }
      exists [r]. split; [reflexivity|]. split.
      * constructor; [lia | constructor].
      * cbn [Effects.assemble]. rewrite Hle, Hfirst, Hmt, Hg, Nat.add_0_r.
        rewrite Hv. cbn [scan_copy flat_map].
        do 2 f_equal. apply skipn_all2.
        rewrite Hidx, Hsuf, !length_app. simpl. lia.
    + (* inside the input *)
      destruct (IH (pre ++ u ++ [c]) t) as [rs [Hc [Hall Has]]].
      { rewrite Hsuf, length_app in Hf. simpl in Hf. lia. }
      assert (Hlen : length (pre ++ u ++ [c]) = S (Effects.index r)).
      { rewrite !length_app, Hidx. simpl. lia. }
      assert (Hstr : pre ++ suf = (pre ++ u ++ [c]) ++ t).
      { rewrite Hsuf, <- !app_assoc. reflexivity. }
      rewrite Hlen in Hc, Hall, Has. rewrite <- Hstr in Hc, Has.
      unfold Effects.bind at 1. rewrite Hc.
      exists (r :: rs). split; [reflexivity|]. split.
      * constructor; [lia|].
        eapply Forall_impl; [|exact Hall]. intros r' Hr'. simpl in Hr'. lia.
      * cbn [Effects.assemble]. rewrite Hle, Hfirst, Hmt, Hg, Nat.add_0_r.
        rewrite (assemble_shift tmpl (pre ++ suf) rs (Effects.index r)
                   (S (Effects.index r))) by (auto; lia).
        rewrite Has, Hv. cbn [scan_copy flat_map expand].
        rewrite !last_of_app. simpl last_of.
        replace (S (Effects.index r) - Effects.index r) with 1 by lia.
        replace (skipn (Effects.index r) (pre ++ suf)) with (c :: t).
        2:{ rewrite Hsuf, app_assoc, skipn_app, Hidx.
            rewrite skipn_all2 by (rewrite length_app; lia).
            rewrite length_app. replace (length pre + length u - (length pre + length u))
              with 0 by lia. reflexivity. }
        reflexivity.
  - (* a match that reads input *)
    destruct (IH (pre ++ u ++ c0 :: m') (rest y)) as [rs [Hc [Hall Has]]].
    { rewrite Hsuf, Hr, !length_app in Hf. simpl in Hf. lia. }
    assert (Hlen : length (pre ++ u ++ c0 :: m') =
                   Effects.index r + length (c0 :: m')).
    { rewrite !length_app, Hidx. lia. }
    assert (Hstr : pre ++ suf = (pre ++ u ++ c0 :: m') ++ rest y).
    { rewrite Hsuf, Hr, <- !app_assoc. reflexivity. }
    rewrite Hlen in Hc, Hall, Has. rewrite <- Hstr in Hc, Has.
    unfold Effects.bind at 1. rewrite Hc.
    exists (r :: rs). split; [reflexivity|]. split.
    + constructor; [lia|].
      eapply Forall_impl; [|exact Hall]. intros r' Hr'. simpl in Hr'. lia.
    + cbn [Effects.assemble]. rewrite Hle, Hfirst, Hmt, Hg.
      rewrite Has, Hv. cbn [flat_map expand].
      rewrite !last_of_app, Hp. reflexivity.
Qed.

Lemma replace_with_fresh h re i tmpl s :
  Effects.replace_with (length h) tmpl s (h ++ [Effects.MkObject re i]) =
  (replace re tmpl s, h ++ [Effects.MkObject re 0]).
Proof.
  unfold Effects.replace_with, Effects.bind at 1.
  rewrite set_lastIndex_fresh.
  destruct (collect_fresh h re tmpl (length s + 2) [] s (le_n _))
    as [rs [Hc [_ Has]]].
  simpl in Hc, Has. unfold Effects.bind. rewrite Hc.
  unfold Effects.ret, replace. rewrite Has. reflexivity.
Qed.

Lemma literal_then_replace {A : Type} re tmpl s (k : jsstring -> Effects.M A) h :
  Effects.bind (Effects.regexp_literal re)
    (fun r => Effects.bind (Effects.replace_with r tmpl s) k) h =
  k (replace re tmpl s) (h ++ [Effects.MkObject re 0]).
Proof.
  unfold Effects.bind at 1 2, Effects.regexp_literal.
  rewrite replace_with_fresh. reflexivity.
Qed.

Lemma renderMarkdown_run text h :
  Effects.renderMarkdown text h = (renderMarkdown text, h ++ Effects.locals).
Proof.
  unfold Effects.renderMarkdown.
  do 4 rewrite literal_then_replace.
  unfold Effects.bind, Effects.regexp_literal.
  rewrite replace_with_fresh.
  unfold renderMarkdown, Effects.locals. cbv zeta. simpl map.
  repeat rewrite <- app_assoc. reflexivity.
Qed.

(** ** The fetching functions by cases *)

Lemma thesis_page_fetch_cases fetch backend :
  ThesisPage.fetchThesis fetch backend =
  match fetch (backend ++ str "/api/thesis") with
  | Rejected _ => Fulfilled ThesisPage.fallback
  | Fulfilled res => if ok res then body_json res else Fulfilled ThesisPage.fallback
  end.
Proof.
  unfold ThesisPage.fetchThesis.
  destruct (fetch _) as [res|e]; simpl; [|reflexivity].
  destruct (ok res); reflexivity.
Qed.

Lemma home_fetchRepos_cases fetch backend :
  Home.fetchRepos fetch backend =
  match fetch (backend ++ str "/api/repos") with
  | Rejected _ => Fulfilled (JArray [])
  | Fulfilled res => if ok res then body_json res else Fulfilled (JArray [])
  end.
Proof.
  unfold Home.fetchRepos.
  destruct (fetch _) as [res|e]; simpl; [|reflexivity].
  destruct (ok res); reflexivity.
Qed.

Lemma home_fetchThesis_cases fetch backend :
  Home.fetchThesis fetch backend =
  match fetch (backend ++ str "/api/thesis") with
  | Rejected _ => Fulfilled JNull
  | Fulfilled res => if ok res then body_json res else Fulfilled JNull
  end.
Proof.
  unfold Home.fetchThesis.
  destruct (fetch _) as [res|e]; simpl; [|reflexivity].
  destruct (ok res); reflexivity.
Qed.

Lemma home_fetchProfile_cases fetch backend :
  Home.fetchProfile fetch backend =
  match fetch (backend ++ str "/api/profile") with
  | Rejected _ => Fulfilled JNull
  | Fulfilled res => if ok res then body_json res else Fulfilled JNull
  end.
Proof.
  unfold Home.fetchProfile.
  destruct (fetch _) as [res|e]; simpl; [|reflexivity].
  destruct (ok res); reflexivity.
Qed.

(** ** Angle brackets *)

Lemma filter_angle_kept s : filter is_angle (kept s) = filter is_angle s.
Proof.
  unfold kept. induction s as [|c s IH]; simpl; [reflexivity|].
  destruct (removable c) eqn:Er; simpl.
  - assert (Ha : is_angle c = false).
    { unfold removable, class_s, is_white_space, is_line_terminator, is_char in Er.
      unfold is_angle, is_char, LT, GT.
      destruct (N.eqb_spec c 60) as [->|_]; [discriminate Er|].
      destruct (N.eqb_spec c 62) as [->|_]; [discriminate Er|].
      reflexivity. }
    rewrite Ha. exact IH.
  - destruct (is_angle c); rewrite IH; reflexivity.
Qed.

Lemma renderMarkdown_keeps_angles text :
  subseq (filter is_angle text) (filter is_angle (renderMarkdown text)).
Proof.
  rewrite <- filter_angle_kept. apply subseq_filter, renderMarkdown_keeps.
Qed.

(** ** The caller *)

Lemma RepoModal_with_text model r c t :
  RepoModal model (Some (with_summary r (Some (c :: t)))) =
  (MkDialog true
     (Some (MkContent (html_url r)
              (replace dash_underscore_re [TLit (str " ")] (name r))
              (Article (renderMarkdown (c :: t))
                 (str "Summary generated using " ++ nullish model default_model)))),
   [c :: t]).
Proof. reflexivity. Qed.

Lemma RepoModal_without_text model r (s : option jsstring) :
  s = @None jsstring \/ s = @Some jsstring [] ->
  RepoModal model (Some (with_summary r s)) =
  (MkDialog true
     (Some (MkContent (html_url r)
              (replace dash_underscore_re [TLit (str " ")] (name r))
              (NoReadme no_readme_notice))),
   []).
Proof. intros [->| ->]; reflexivity. Qed.

(** ** A star without a partner *)

Lemma count_char_app a s t : count_char a (s ++ t) = count_char a s + count_char a t.
Proof. unfold count_char. rewrite filter_app, length_app. reflexivity. Qed.

Lemma count_char_cons a c t : count_char a t <= count_char a (c :: t).
Proof. unfold count_char. simpl. destruct (is_char a c); simpl; lia. Qed.

Lemma count_char_hit a t : count_char a (a :: t) = S (count_char a t).
Proof. unfold count_char, is_char. simpl. rewrite N.eqb_refl. reflexivity. Qed.

Lemma bold_re_needs_two_stars p s :
  count_char STAR s <= 1 ->
  rmatch (multiline bold_re) (pattern bold_re) (start p s) = [].
Proof.
  intros H.
  destruct (nil_or_in (rmatch (multiline bold_re) (pattern bold_re) (start p s)))
    as [E|[y Hy]]; [exact E|exfalso].
  unfold bold_re, pattern, multiline in Hy.
  apply rmatch_seq_inv in Hy. destruct Hy as [z [Hz _]].
  apply rmatch_lit_inv in Hz. destruct Hz as [[Hr _] _].
  change (rest (start p s)) with s in Hr.
  change (str "**") with [STAR; STAR] in Hr.
  rewrite Hr in H. simpl app in H.
  rewrite !count_char_hit in H. lia.
Qed.

Lemma italic_re_needs_two_stars p s :
  count_char STAR s <= 1 ->
  rmatch (multiline italic_re) (pattern italic_re) (start p s) = [].
Proof.
  intros H.
  destruct (nil_or_in (rmatch (multiline italic_re) (pattern italic_re) (start p s)))
    as [E|[y Hy]]; [exact E|exfalso].
  unfold italic_re, pattern, multiline in Hy.
  apply rmatch_seq_inv in Hy. destruct Hy as [x1 [Hx1 Hy]].
  apply rmatch_charset_inv in Hx1. destruct Hx1 as [c [t [Hs [Hc ->]]]].
  change (rest (start p s)) with s in Hs.
  unfold is_char in Hc. apply N.eqb_eq in Hc. subst c.
  apply rmatch_seq_inv in Hy. destruct Hy as [x2 [Hx2 Hy]].
  apply rmatch_link in Hx2. destruct Hx2 as [m1 [Hr1 _]]. simpl in Hr1.
  apply rmatch_seq_inv in Hy. destruct Hy as [x3 [Hx3 Hy]].
  apply rmatch_link in Hx3. destruct Hx3 as [m2 [Hr2 _]].
  apply rmatch_charset_inv in Hy. destruct Hy as [c [t' [Hr3 [Hc _]]]].
  unfold is_char in Hc. apply N.eqb_eq in Hc. subst c.
  rewrite Hs, Hr1, Hr2, Hr3 in H.
  rewrite count_char_hit, !count_char_app, count_char_hit in H. lia.
Qed.

(** ** The lazy repetition stops at the nearest continuation *)

Lemma hd_flat_map_split {A B : Type} (f : A -> list B) (l : list A) (y : B) :
  hd_error (flat_map f l) = Some y ->
  exists l1 a l2, l = l1 ++ a :: l2 /\ (forall b, In b l1 -> f b = []) /\
    hd_error (f a) = Some y.
Proof.
  induction l as [|a l IH]; simpl; [discriminate|].
  destruct (f a) as [|b' l'] eqn:E; simpl.
  - intros H. destruct (IH H) as [l1 [a' [l2 [-> [Hn Hy]]]]].
    exists (a :: l1), a', l2. repeat split; auto.
    intros b [<-|Hb]; auto.
  - intros H. exists [], a, l. rewrite E. repeat split; auto.
    intros b [].
Qed.

Lemma lazy_star_charset ml p n :
  forall x, length (rest x) <= n ->
    star_loop (rmatch ml (CharSet p)) false n x =
    prefixes p (prev x) (rest x) (caps x).
Proof.
  set (m := rmatch ml (CharSet p)).
  induction n as [|k IH]; intros x Hx.
  - destruct x as [pv [|c t] cs]; simpl in *; [reflexivity | lia].
  - cbn [star_loop].
    assert (Hm : m x = match rest x with
                       | [] => []
                       | c :: t => if p c then [MState (Some c) t (caps x)] else []
                       end) by reflexivity.
    rewrite Hm. clear Hm.
    destruct x as [pv [|c t] cs]; cbn [rest prev caps] in *; [reflexivity|].
    cbn [prefixes]. destruct (p c); [|reflexivity].
    cbn [flat_map rest]. simpl in Hx.
    destruct (Nat.eqb_spec (length t) (length (c :: t))); [simpl in *; lia|].
    rewrite app_nil_r, IH by (simpl; lia). reflexivity.
Qed.

Lemma prefixes_split p cs :
  forall s pv l1 a l2, prefixes p pv s cs = l1 ++ a :: l2 ->
    exists m, s = m ++ rest a /\
      forall m1 m2, m = m1 ++ m2 -> m2 <> [] ->
        exists b, In b l1 /\ rest b = m2 ++ rest a.
Proof.
  induction s as [|c t IH]; intros pv l1 a l2 H; simpl in H.
  - destruct l1 as [|b0 l1]; simpl in H.
    + injection H as <- _. exists []. split; [reflexivity|].
      intros m1 m2 Hm Hne. destruct m1; destruct m2; try discriminate.
      congruence.
    + injection H as _ H. destruct l1; discriminate.
  - destruct l1 as [|b0 l1]; simpl in H.
    + injection H as <- _. exists []. split; [reflexivity|].
      intros m1 m2 Hm Hne. destruct m1; destruct m2; try discriminate.
      congruence.
    + injection H as <- H. destruct (p c); [|destruct l1; discriminate].
      destruct (IH _ _ _ _ H) as [m [-> Hm]]. exists (c :: m).
      split; [reflexivity|].
      intros m1 m2 Hsplit Hne. destruct m1 as [|c1 m1]; simpl in Hsplit.
      * subst m2. eexists. split; [left; reflexivity|]. reflexivity.
      * injection Hsplit as _ Hsplit.
        destruct (Hm m1 m2 Hsplit Hne) as [b [Hb Hr]].
        exists b. split; [right; exact Hb | exact Hr].
Qed.

Lemma rmatch_lit_nil ml l :
  forall x, rmatch ml (lit l) x = [] -> starts_with l (rest x) = false.
Proof.
  induction l as [|a l IH]; intros x H; [discriminate H|].
  assert (E : rmatch ml (lit (a :: l)) x =
              flat_map (rmatch ml (lit l))
                match rest x with
                | [] => []
                | c :: t => if is_char a c then [MState (Some c) t (caps x)] else []
                end) by reflexivity.
  rewrite E in H. clear E.
  destruct (rest x) as [|c t]; [reflexivity|].
  cbn [starts_with]. destruct (is_char a c); [|reflexivity].
  cbn [flat_map] in H. rewrite app_nil_r in H.
  apply IH in H. exact H.
Qed.

(** The first match of the bold expression reads [**], a text [g] that
    is not empty, and [**]; it records [g], and no shorter part of [g] is
    followed by [**]. *)
Lemma bold_re_nearest p s y l :
  rmatch (multiline bold_re) (pattern bold_re) (start p s) = y :: l ->
  exists g, s = str "**" ++ g ++ str "**" ++ rest y /\
    get_cap 1 (caps y) = g /\ g <> [] /\
    forall g1 g2, g = g1 ++ g2 -> g1 <> [] -> g2 <> [] ->
      starts_with (str "**") (g2 ++ str "**" ++ rest y) = false.
Proof.
  intros H. apply (f_equal (@hd_error mstate)) in H.
  change (hd_error (y :: l)) with (Some y) in H.
  unfold bold_re, pattern, multiline in H.
  rewrite rmatch_seq_eq in H.
  apply hd_flat_map in H. destruct H as [x0 [Hx0 H]].
  apply rmatch_lit_inv in Hx0. destruct Hx0 as [[Hr0 _] Hc0].
  change (rest (start p s)) with s in Hr0. simpl in Hc0.
  rewrite rmatch_seq_eq in H.
  apply hd_flat_map_split in H. destruct H as [l1 [a [l2 [HL [Hfail Hy]]]]].
  assert (Hy' : In y (rmatch false (lit (str "**")) a)).
  { destruct (rmatch false (lit (str "**")) a); [discriminate|].
    injection Hy as <-. left. reflexivity. }
  apply rmatch_lit_inv in Hy'. destruct Hy' as [[Hra _] Hca].
  cbn [rmatch] in HL. unfold Plus in HL. rewrite rmatch_seq_eq in HL.
  destruct x0 as [pv0 r0 cs0]. cbn [rest caps] in *.
  assert (Hx : rmatch false (CharSet class_dot) (MState pv0 r0 cs0) =
               match r0 with
               | [] => []
               | c :: t => if class_dot c then [MState (Some c) t cs0] else []
               end) by reflexivity.
  rewrite Hx in HL. clear Hx.
  destruct r0 as [|c t]; [destruct l1; discriminate HL|].
  destruct (class_dot c) eqn:Ec; [|destruct l1; discriminate HL].
  cbn [flat_map] in HL. rewrite app_nil_r, rmatch_star_eq in HL.
  rewrite lazy_star_charset in HL by apply le_n.
  cbn [prev rest caps] in HL.
  apply map_eq_app in HL. destruct HL as [k1 [k2 [HP [Hl1 Hk2]]]].
  apply map_eq_cons in Hk2. destruct Hk2 as [a0 [k3 [-> [Ha _]]]].
  apply prefixes_split in HP. destruct HP as [m [Ht Hm]].
  subst a. cbn [set_cap rest caps] in *.
  exists (c :: m). simpl in Hr0. repeat split.
  - rewrite Hr0, Ht, Hra. reflexivity.
  - rewrite Hca. simpl. unfold consumed. cbn [rest].
    rewrite Ht. simpl length. rewrite length_app.
    replace (S (length m + length (rest a0)) - length (rest a0))
      with (S (length m)) by lia.
    simpl. f_equal. replace (length m) with (length m + 0) by lia.
    rewrite firstn_app_2. simpl. apply app_nil_r.
  - discriminate.
  - intros g1 g2 Hg Hg1 Hg2. destruct g1 as [|c1 g1]; [congruence|].
    injection Hg as _ Hg.
    destruct (Hm g1 g2 Hg Hg2) as [b [Hb Hrb]].
    assert (Hbf : rmatch false (lit (str "**"))
                    (set_cap 1 (MState pv0 (c :: t) cs0) b) = []).
    { apply Hfail. rewrite <- Hl1. apply in_map. exact Hb. }
    apply rmatch_lit_nil in Hbf. cbn [set_cap rest] in Hbf.
    rewrite Hrb, Hra in Hbf. exact Hbf.
Qed.

(** ** The title of the dialog *)

Lemma title_scan :
  forall s p,
    flat_map (expand [TLit (str " ")]) (scan dash_underscore_re 0 p s) =
    map title_char s.
Proof.
  induction s as [|c t IH]; intros p; [reflexivity|].
  rewrite scan_zero.
  assert (Hm : rmatch (multiline dash_underscore_re) (pattern dash_underscore_re)
                 (start p (c :: t)) =
               if is_char DASH c || is_char UNDERSCORE c
               then [MState (Some c) t []] else []) by reflexivity.
  rewrite Hm. clear Hm. unfold title_char at 1. cbn [map].
  fold (title_char c).
  destruct (is_char DASH c || is_char UNDERSCORE c) eqn:E.
  - cbv zeta. cbn [rest].
    replace (length (c :: t) - length t) with 1
      by (change (length (c :: t)) with (S (length t)); lia).
    cbn [Nat.eqb Nat.sub flat_map expand expand_part caps app].
    unfold title_char. rewrite E. rewrite IH. reflexivity.
  - cbn [flat_map expand app]. unfold title_char. rewrite E, IH. reflexivity.
Qed.

Lemma RepoModal_title model r :
  option_map title (content (fst (RepoModal model (Some r)))) =
  Some (map title_char (name r)).
Proof.
  unfold RepoModal. destruct (truthy _); simpl; unfold replace;
    rewrite title_scan; reflexivity.
Qed.

(** ** Bullet lines become one list *)

Lemma rmatch_charset_hit ml p c t pv cs :
  p c = true ->
  rmatch ml (CharSet p) (MState pv (c :: t) cs) = [MState (Some c) t cs].
Proof. intros H. simpl. rewrite H. reflexivity. Qed.

Lemma rmatch_charset_miss ml p c t pv cs :
  p c = false -> rmatch ml (CharSet p) (MState pv (c :: t) cs) = [].
Proof. intros H. simpl. rewrite H. reflexivity. Qed.

Lemma rmatch_lit_app ml l :
  forall p r cs, rmatch ml (lit l) (MState p (l ++ r) cs) = [MState (last_of l p) r cs].
Proof.
  induction l as [|a l IH]; intros p r cs; [reflexivity|].
  assert (E : rmatch ml (lit (a :: l)) (MState p ((a :: l) ++ r) cs) =
              flat_map (rmatch ml (lit l))
                (rmatch ml (CharSet (is_char a)) (MState p (a :: l ++ r) cs)))
    by reflexivity.
  rewrite E, rmatch_charset_hit by (unfold is_char; apply N.eqb_refl).
  cbn [flat_map]. rewrite IH, app_nil_r. reflexivity.
Qed.

(** The states a repetition of [p] offers on [t ++ r], where [t] lies in
    [p]: those inside [t], then those from the end of [t] on. *)
Lemma prefixes_run p cs r :
  forall t pv, forallb p t = true ->
    exists inner,
      prefixes p pv (t ++ r) cs = inner ++ prefixes p (last_of t pv) r cs /\
      forall b, In b inner ->
        exists t1 c t2, t = t1 ++ c :: t2 /\ rest b = c :: t2 ++ r.
Proof.
  induction t as [|c t IH]; intros pv Ht.
  - exists []. split; [reflexivity|]. intros b [].
  - simpl in Ht. apply andb_true_iff in Ht. destruct Ht as [Hc Ht].
    destruct (IH (Some c) Ht) as [inner [He Hin]].
    exists (MState pv (c :: t ++ r) cs :: inner). split.
    + simpl. rewrite Hc, He. reflexivity.
    + intros b [<-|Hb].
      * exists [], c, t. split; reflexivity.
      * destruct (Hin b Hb) as [t1 [c' [t2 [-> Hr]]]].
        exists (c :: t1), c', t2. split; [reflexivity | exact Hr].
Qed.

Lemma prefixes_stop p pv r cs :
  stops p r = true -> prefixes p pv r cs = [MState pv r cs].
Proof.
  destruct r as [|c r]; simpl; [reflexivity|].
  intros H. apply negb_true_iff in H. rewrite H. reflexivity.
Qed.

Lemma greedy_star_charset ml p n :
  forall x, length (rest x) <= n ->
    star_loop (rmatch ml (CharSet p)) true n x =
    rev (prefixes p (prev x) (rest x) (caps x)).
Proof.
  set (m := rmatch ml (CharSet p)).
  induction n as [|k IH]; intros x Hx.
  - destruct x as [pv [|c t] cs]; simpl in *; [reflexivity | lia].
  - cbn [star_loop].
    assert (Hm : m x = match rest x with
                       | [] => []
                       | c :: t => if p c then [MState (Some c) t (caps x)] else []
                       end) by reflexivity.
    rewrite Hm. clear Hm.
    destruct x as [pv [|c t] cs]; cbn [rest prev caps] in *; [reflexivity|].
    cbn [prefixes]. destruct (p c); [|reflexivity].
    cbn [flat_map rest]. simpl in Hx.
    destruct (Nat.eqb_spec (length t) (length (c :: t))); [simpl in *; lia|].
    rewrite app_nil_r, IH by (simpl; lia). reflexivity.
Qed.

(** A greedy repetition of [p] on [t ++ r], with [t] in [p] and [r]
    stopping it, offers the state behind [t] first. *)
Lemma greedy_star_run ml p t r pv cs :
  forallb p t = true -> stops p r = true ->
  exists l,
    rmatch ml (Star true (CharSet p)) (MState pv (t ++ r) cs) =
    MState (last_of t pv) r cs :: l.
Proof.
  intros Ht Hr. rewrite rmatch_star_eq, greedy_star_charset by apply le_n.
  cbn [prev rest caps].
  destruct (prefixes_run p cs r t pv Ht) as [inner [He _]].
  rewrite He, prefixes_stop by exact Hr.
  rewrite rev_app_distr. simpl. eauto.
Qed.

(** *** The first match, step by step *)

Lemma first_seq ml r1 r2 x z y :
  first_match ml r1 x z -> first_match ml r2 z y -> first_match ml (Seq r1 r2) x y.
Proof.
  intros [l1 H1] [l2 H2]. unfold first_match.
  rewrite rmatch_seq_eq, H1. cbn [flat_map]. rewrite H2. simpl. eauto.
Qed.

Lemma first_charset ml p c t pv cs :
  p c = true ->
  first_match ml (CharSet p) (MState pv (c :: t) cs) (MState (Some c) t cs).
Proof. intros H. exists []. apply rmatch_charset_hit. exact H. Qed.

Lemma first_lit ml l p r cs :
  first_match ml (lit l) (MState p (l ++ r) cs) (MState (last_of l p) r cs).
Proof. exists []. apply rmatch_lit_app. Qed.

Lemma first_greedy_star ml p t r pv cs :
  forallb p t = true -> stops p r = true ->
  first_match ml (Star true (CharSet p)) (MState pv (t ++ r) cs)
    (MState (last_of t pv) r cs).
Proof. intros Ht Hr. apply greedy_star_run; assumption. Qed.

Lemma first_group ml n r x y :
  first_match ml r x y -> first_match ml (Group n r) x (set_cap n x y).
Proof. intros [l H]. unfold first_match. cbn [rmatch]. rewrite H. simpl. eauto. Qed.

Lemma first_line_start ml x :
  at_line_start ml x = true -> first_match ml LineStart x x.
Proof. intros H. exists []. cbn [rmatch]. rewrite H. reflexivity. Qed.

Lemma first_line_end ml x :
  at_line_end ml x = true -> first_match ml LineEnd x x.
Proof. intros H. exists []. cbn [rmatch]. rewrite H. reflexivity. Qed.

Lemma flat_map_nil_in {A B : Type} (f : A -> list B) (l : list A) :
  (forall a, In a l -> f a = []) -> flat_map f l = [].
Proof.
  intros H. rewrite (flat_map_ext_in f (fun _ => [])) by exact H.
  apply flat_map_nil.
Qed.

Lemma prefixes_head p pv s cs : exists l, prefixes p pv s cs = MState pv s cs :: l.
Proof. destruct s; simpl; eauto. Qed.

(** A lazy repetition of [p] followed by [r2] reads on until [r2]
    matches. *)
Lemma first_lazy_until ml p r2 t r pv cs y :
  forallb p t = true ->
  (forall b t1 c t2, t = t1 ++ c :: t2 -> rest b = c :: t2 ++ r ->
     rmatch ml r2 b = []) ->
  first_match ml r2 (MState (last_of t pv) r cs) y ->
  first_match ml (Seq (Star false (CharSet p)) r2) (MState pv (t ++ r) cs) y.
Proof.
  intros Ht Hfail [l Hy]. unfold first_match.
  rewrite rmatch_seq_eq, rmatch_star_eq, lazy_star_charset by apply le_n.
  cbn [prev rest caps].
  destruct (prefixes_run p cs r t pv Ht) as [inner [He Hin]].
  destruct (prefixes_head p (last_of t pv) r cs) as [l' Hl'].
  rewrite He, Hl', flat_map_app.
  rewrite (flat_map_nil_in (rmatch ml r2) inner).
  - cbn [flat_map app]. rewrite Hy. simpl. eauto.
  - intros b Hb. destruct (Hin b Hb) as [t1 [c [t2 [E Hr]]]].
    apply (Hfail b t1 c t2 E Hr).
Qed.

(** With iterations that all read input, the greedy repetition of [r]
    tries one iteration and more first, and to stop last. *)
Lemma star_greedy_unfold ml r x :
  (forall a b, In b (rmatch ml r a) -> length (rest b) < length (rest a)) ->
  rmatch ml (Star true r) x = rmatch ml (Plus true r) x ++ [x].
Proof.
  intros Hadv. unfold Plus. rewrite rmatch_seq_eq, rmatch_star_eq.
  destruct (length (rest x)) as [|k] eqn:Ex.
  - destruct (nil_or_in (rmatch ml r x)) as [E|[b Hb]].
    + rewrite E. reflexivity.
    + apply Hadv in Hb. lia.
  - cbn [star_loop]. f_equal. apply flat_map_ext_in.
    intros b Hb. pose proof (Hadv x b Hb) as Hlt.
    destruct (Nat.eqb_spec (length (rest b)) (length (rest x))); [lia|].
    rewrite Ex in Hlt.
    rewrite rmatch_star_eq. apply star_loop_fuel; [|lia|lia].
    intros a c Hc. apply (rmatch_length ml r a c Hc).
Qed.

Lemma first_plus_star ml r x y :
  (forall a b, In b (rmatch ml r a) -> length (rest b) < length (rest a)) ->
  first_match ml (Plus true r) x y -> first_match ml (Star true r) x y.
Proof.
  intros Hadv [l H]. unfold first_match.
  rewrite (star_greedy_unfold ml r x Hadv), H. simpl. eauto.
Qed.

Lemma first_star_stop ml r x :
  (forall a b, In b (rmatch ml r a) -> length (rest b) < length (rest a)) ->
  rmatch ml r x = [] -> first_match ml (Star true r) x x.
Proof.
  intros Hadv H. unfold first_match.
  rewrite (star_greedy_unfold ml r x Hadv). unfold Plus.
  rewrite rmatch_seq_eq, H. simpl. eauto.
Qed.

(** The scan at a place where the first match reads input. *)
Lemma scan_first re p s y m :
  first_match (multiline re) (pattern re) (start p s) y ->
  s = m ++ rest y -> m <> [] ->
  scan re 0 p s = Matched m (caps y) :: scan re 0 (prev y) (rest y).
Proof.
  intros [l H] Hs Hm. rewrite scan_unfold, H.
  assert (E : consumed (start p s) y = m).
  { unfold consumed. cbn [rest start]. rewrite Hs at 2. rewrite Hs at 1.
    rewrite length_app.
    replace (length m + length (rest y) - length (rest y)) with (length m + 0)
      by lia.
    rewrite firstn_app_2. simpl. apply app_nil_r. }
  rewrite E. destruct m; [congruence | reflexivity].
Qed.

Lemma scan_miss re p s :
  rmatch (multiline re) (pattern re) (start p s) = [] ->
  scan re 0 p s = scan_copy re s.
Proof. intros H. rewrite scan_unfold, H. reflexivity. Qed.

(** *** The bullet stage on bullet lines *)

Lemma plain_item_inv t :
  plain_item t = true ->
  exists c t', t = c :: t' /\ class_s c = false /\ forallb plain_char t = true.
Proof.
  unfold plain_item. destruct t as [|c t']; [discriminate|].
  intros H. apply andb_true_iff in H. destruct H as [Hc Hp].
  apply negb_true_iff in Hc. exists c, t'. auto.
Qed.

Lemma plain_char_dot t : forallb plain_char t = true -> forallb class_dot t = true.
Proof.
  induction t as [|c t IH]; simpl; [reflexivity|].
  intros H. apply andb_true_iff in H. destruct H as [Hc Ht].
  rewrite (IH Ht), andb_true_r.
  unfold plain_char in Hc. repeat (apply andb_true_iff in Hc; destruct Hc as [Hc _]).
  exact Hc.
Qed.

Lemma consumed_app pv t tail cs pv' cs' :
  consumed (MState pv (t ++ tail) cs) (MState pv' tail cs') = t.
Proof.
  unfold consumed. cbn [rest]. rewrite length_app.
  replace (length t + length tail - length tail) with (length t + 0) by lia.
  rewrite firstn_app_2. simpl. apply app_nil_r.
Qed.


Lemma bullet_re_at_end p : rmatch true (pattern bullet_re) (start p []) = [].
Proof.
  unfold bullet_re, pattern, start. rewrite rmatch_seq_eq. cbn [rmatch].
  destruct (at_line_start true (MState p [] [])); reflexivity.
Qed.

Lemma bullet_re_mid_line c s :
  is_line_terminator c = false ->
  rmatch true (pattern bullet_re) (start (Some c) s) = [].
Proof.
  intros H. unfold bullet_re, pattern, start. rewrite rmatch_seq_eq.
  cbn [rmatch]. unfold at_line_start. cbn [prev]. rewrite H. reflexivity.
Qed.

Lemma last_of_plain t pv :
  t <> [] -> forallb plain_char t = true ->
  exists c, last_of t pv = Some c /\ is_line_terminator c = false.
Proof.
  revert pv. induction t as [|c t IH]; intros pv Hne Hp; [congruence|].
  simpl in Hp. apply andb_true_iff in Hp. destruct Hp as [Hc Ht].
  destruct t as [|c' t'].
  - exists c. split; [reflexivity|].
    unfold plain_char in Hc.
    repeat (apply andb_true_iff in Hc; destruct Hc as [Hc _]).
    unfold class_dot in Hc. apply negb_true_iff in Hc. exact Hc.
  - apply (IH (Some c)); [discriminate | exact Ht].
Qed.

Lemma expand_li t m :
  expand (wrap_tmpl "li") (Matched m [(1, t)]) = list_item t.
Proof. unfold expand. rewrite expand_wrap. reflexivity. Qed.




(** *** The grouping stage on list items *)

Lemma class_any_all t : forallb class_any t = true.
Proof.
  induction t as [|c t IH]; simpl; [reflexivity|].
  rewrite IH, andb_true_r. unfold class_any. destruct (class_s c); reflexivity.
Qed.

Lemma plain_char_not_lt c : plain_char c = true -> is_char LT c = false.
Proof.
  unfold plain_char. intros H.
  apply andb_true_iff in H. destruct H as [H _].
  apply andb_true_iff in H. destruct H as [H _].
  apply andb_true_iff in H. destruct H as [_ H].
  apply negb_true_iff in H. exact H.
Qed.

Lemma forallb_split {A : Type} (f : A -> bool) t t1 c t2 :
  forallb f t = true -> t = t1 ++ c :: t2 -> f c = true.
Proof.
  intros H ->. rewrite forallb_app in H. apply andb_true_iff in H.
  destruct H as [_ H]. simpl in H. apply andb_true_iff in H. tauto.
Qed.

Lemma close_tag_fails ml r2 b c t :
  rest b = c :: t -> is_char LT c = false ->
  rmatch ml (Seq (lit (str "</li>")) r2) b = [].
Proof.
  intros Hr Hc. rewrite rmatch_seq_eq.
  assert (E : rmatch ml (lit (str "</li>")) b =
              flat_map (rmatch ml (lit (str "/li>")))
                (rmatch ml (CharSet (is_char LT)) b)) by reflexivity.
  rewrite E. cbn [rmatch]. rewrite Hr, Hc. reflexivity.
Qed.

(** A list item with the white space behind it is one iteration. *)
Lemma list_item_first t ws r pv cs :
  forallb plain_char t = true -> forallb class_s ws = true ->
  stops class_s r = true ->
  exists pv',
    first_match false list_item_re (MState pv (list_item t ++ ws ++ r) cs)
      (MState pv' r cs).
Proof.
  intros Ht Hws Hr. eexists. unfold list_item_re, list_item.
  rewrite <- !app_assoc.
  eapply first_seq; [apply first_lit|].
  apply first_lazy_until.
  - apply class_any_all.
  - intros b t1 c t2 Et Hb. apply (close_tag_fails false _ b c _ Hb).
    apply plain_char_not_lt. exact (forallb_split _ _ _ _ _ Ht Et).
  - eapply first_seq; [apply first_lit|].
    apply first_greedy_star; assumption.
Qed.



Lemma plain_item_chars t : plain_item t = true -> forallb plain_char t = true.
Proof.
  intros H. destruct (plain_item_inv t H) as [c [t' [_ [_ Hp]]]]. exact Hp.
Qed.



(** *** The inline stages leave the list as it is *)

Lemma has_char_app a s t : has_char a (s ++ t) = has_char a s || has_char a t.
Proof. unfold has_char. apply existsb_app. Qed.

Lemma plain_no_char a t :
  (forall c, plain_char c = true -> is_char a c = false) ->
  forallb plain_char t = true -> has_char a t = false.
Proof.
  intros Ha. unfold has_char. induction t as [|c t IH]; simpl; [reflexivity|].
  intros H. apply andb_true_iff in H. destruct H as [Hc Ht].
  rewrite (Ha c Hc), (IH Ht). reflexivity.
Qed.


Lemma plain_char_not_star c : plain_char c = true -> is_char STAR c = false.
Proof.
  unfold plain_char. intros H.
  apply andb_true_iff in H. destruct H as [H _].
  apply andb_true_iff in H. destruct H as [_ H].
  apply negb_true_iff in H. exact H.
Qed.

Lemma plain_char_not_backtick c : plain_char c = true -> is_char BACKTICK c = false.
Proof.
  unfold plain_char. intros H.
  apply andb_true_iff in H. destruct H as [_ H].
  apply negb_true_iff in H. exact H.
Qed.


(** ** The scan around one match *)

Section Span.

Variable re : RegExp.
Variable a : char.
Hypothesis head_fails :
  forall p c t, is_char a c = false ->
    rmatch (multiline re) (pattern re) (start p (c :: t)) = [].
Hypothesis end_fails :
  forall p, rmatch (multiline re) (pattern re) (start p []) = [].

Lemma scan_prefix s :
  forall pre p, has_char a pre = false ->
    scan re 0 p (pre ++ s) = map Copied pre ++ scan re 0 (last_of pre p) s.
Proof.
  induction pre as [|c pre IH]; intros p H; [reflexivity|].
  apply has_char_head in H. destruct H as [Hc Hpre].
  change ((c :: pre) ++ s) with (c :: pre ++ s).
  rewrite scan_miss by (apply head_fails; exact Hc).
  cbn [scan_copy map app]. rewrite (IH (Some c) Hpre). reflexivity.
Qed.

Lemma scan_suffix post p :
  has_char a post = false -> scan re 0 p post = map Copied post.
Proof.
  intros H.
  apply (scan_no_match re (fun _ s => has_char a s = false)); [| |exact H].
  - intros _ c t Hc. apply has_char_head in Hc. tauto.
  - intros q [|c t] Hs; [apply end_fails|].
    apply has_char_head in Hs. apply head_fails. tauto.
Qed.

Lemma replace_one_span tmpl pre s m post y :
  s = m ++ post ->
  has_char a pre = false -> has_char a post = false -> m <> [] ->
  first_match (multiline re) (pattern re) (start (last_of pre None) s) y ->
  rest y = post ->
  replace re tmpl (pre ++ s) =
  pre ++ flat_map (expand_part (caps y)) tmpl ++ post.
Proof.
  intros Hs Hpre Hpost Hm Hy Hr. unfold replace.
  rewrite scan_prefix by exact Hpre.
  rewrite (scan_first re _ s y m Hy) by (rewrite ?Hr; auto).
  rewrite Hr, scan_suffix by exact Hpost.
  rewrite flat_map_app. cbn [flat_map]. rewrite !expand_copied.
  reflexivity.
Qed.

End Span.

Lemma first_neg_lookahead ml r x :
  rmatch ml r x = [] -> first_match ml (NegLookahead r) x x.
Proof. intros H. exists []. cbn [rmatch]. rewrite H. reflexivity. Qed.

(** A lazy repetition in a group, followed by [r2]: the group ends at
    the first place where [r2] matches. *)
Lemma first_lazy_group ml p n r2 c t r pv cs y :
  p c = true -> forallb p t = true ->
  (forall b t1 c' t2, t = t1 ++ c' :: t2 -> rest b = c' :: t2 ++ r ->
     rmatch ml r2 b = []) ->
  first_match ml r2 (MState (last_of t (Some c)) r ((n, c :: t) :: cs)) y ->
  first_match ml (Seq (Group n (Plus false (CharSet p))) r2)
    (MState pv (c :: t ++ r) cs) y.
Proof.
  intros Hc Ht Hfail [l Hy]. unfold first_match.
  set (x := MState pv (c :: t ++ r) cs).
  rewrite rmatch_seq_eq.
  assert (E : rmatch ml (Group n (Plus false (CharSet p))) x =
              map (set_cap n x)
                (prefixes p (Some c) (t ++ r) cs)).
  { cbn [rmatch]. f_equal. unfold Plus. rewrite rmatch_seq_eq.
    unfold x. rewrite rmatch_charset_hit by exact Hc.
    cbn [flat_map]. rewrite app_nil_r, rmatch_star_eq.
    rewrite lazy_star_charset by apply le_n. reflexivity. }
  rewrite E. clear E.
  destruct (prefixes_run p cs r t (Some c) Ht) as [inner [He Hin]].
  destruct (prefixes_head p (last_of t (Some c)) r cs) as [l' Hl'].
  rewrite He, Hl', map_app, flat_map_app.
  rewrite (flat_map_nil_in (rmatch ml r2) (map (set_cap n x) inner)).
  - cbn [map flat_map app].
    assert (Es : set_cap n x (MState (last_of t (Some c)) r cs) =
                 MState (last_of t (Some c)) r ((n, c :: t) :: cs)).
    { unfold set_cap, x. cbn [prev rest caps].
      change (c :: t ++ r) with ((c :: t) ++ r).
      rewrite consumed_app. reflexivity. }
    rewrite Es, Hy. simpl. eauto.
  - intros b Hb. apply in_map_iff in Hb. destruct Hb as [b0 [<- Hb0]].
    destruct (Hin b0 Hb0) as [t1 [c' [t2 [Et Hr]]]].
    apply (Hfail _ t1 c' t2 Et). exact Hr.
Qed.

Lemma unmarked_inv s :
  unmarked s = true -> has_char STAR s = false /\ has_char BACKTICK s = false.
Proof.
  unfold unmarked. intros H. apply andb_true_iff in H. destruct H as [H1 H2].
  apply negb_true_iff in H1, H2. auto.
Qed.

Lemma has_char_split a (t : jsstring) t1 c t2 :
  has_char a t = false -> t = t1 ++ c :: t2 -> is_char a c = false.
Proof.
  intros H ->. rewrite has_char_app in H. apply orb_false_iff in H.
  destruct H as [_ H]. apply has_char_head in H. tauto.
Qed.

Lemma is_char_refl a : is_char a a = true.
Proof. unfold is_char. apply N.eqb_refl. Qed.

Lemma charset_fails_at ml a b c t :
  rest b = c :: t -> is_char a c = false -> rmatch ml (CharSet (is_char a)) b = [].
Proof. intros Hr Hc. cbn [rmatch]. rewrite Hr, Hc. reflexivity. Qed.

Lemma lit_fails_at ml a l b c t :
  rest b = c :: t -> is_char a c = false -> rmatch ml (lit (a :: l)) b = [].
Proof.
  intros Hr Hc.
  assert (E : rmatch ml (lit (a :: l)) b =
              flat_map (rmatch ml (lit l)) (rmatch ml (CharSet (is_char a)) b))
    by reflexivity.
  rewrite E, (charset_fails_at ml a b c t Hr Hc). reflexivity.
Qed.

(** *** The first match of each inline expression on a span *)


Lemma bold_span_first p g post :
  g <> [] -> forallb class_dot g = true -> has_char STAR g = false ->
  first_match false (pattern bold_re)
    (start p (str "**" ++ g ++ str "**" ++ post))
    (MState (Some STAR) post [(1, g)]).
Proof.
  intros Hne Hdot Hg. destruct g as [|c t]; [congruence|].
  simpl in Hdot. apply andb_true_iff in Hdot. destruct Hdot as [Hc Ht].
  apply has_char_head in Hg. destruct Hg as [_ Hg].
  unfold bold_re, pattern, start.
  eapply first_seq; [apply first_lit|].
  change ((c :: t) ++ str "**" ++ post) with (c :: t ++ str "**" ++ post).
  apply first_lazy_group; [exact Hc | exact Ht | |].
  - intros b t1 c' t2 Et Hb.
    apply (lit_fails_at false STAR _ b c' _ Hb).
    exact (has_char_split _ _ _ _ _ Hg Et).
  - apply (first_lit false (str "**") (last_of t (Some c)) post).
Qed.

Lemma italic_span_first p g post :
  starts_text g = true -> forallb class_dot g = true -> has_char STAR g = false ->
  first_match false (pattern italic_re) (start p (STAR :: g ++ STAR :: post))
    (MState (Some STAR) post [(1, g)]).
Proof.
  intros Hne Hdot Hg. destruct g as [|c t]; [discriminate|].
  simpl in Hne. apply negb_true_iff in Hne.
  simpl in Hdot. apply andb_true_iff in Hdot. destruct Hdot as [Hc Ht].
  apply has_char_head in Hg. destruct Hg as [_ Hg].
  unfold italic_re, pattern, start.
  eapply first_seq; [apply first_charset; apply is_char_refl|].
  eapply first_seq.
  { apply first_neg_lookahead. apply rmatch_charset_miss. exact Hne. }
  apply first_lazy_group; [exact Hc | exact Ht | |].
  - intros b t1 c' t2 Et Hb.
    apply (charset_fails_at false STAR b c' _ Hb).
    exact (has_char_split _ _ _ _ _ Hg Et).
  - apply first_charset. apply is_char_refl.
Qed.

(** *** Where an inline expression cannot start *)


Lemma italic_re_head p c t :
  is_char STAR c = false ->
  rmatch (multiline italic_re) (pattern italic_re) (start p (c :: t)) = [].
Proof. intros H. simpl. rewrite H. reflexivity. Qed.

Lemma bold_re_head p c t :
  is_char STAR c = false ->
  rmatch (multiline bold_re) (pattern bold_re) (start p (c :: t)) = [].
Proof.
  intros H. unfold bold_re, pattern, multiline. rewrite rmatch_seq_eq.
  replace (rmatch false (lit (str "**")) (start p (c :: t))) with (@nil mstate);
    [reflexivity|].
  symmetry. apply (lit_fails_at false STAR [STAR] (start p (c :: t)) c t eq_refl H).
Qed.

Lemma rmatch_lit_miss ml l :
  forall x, starts_with l (rest x) = false -> rmatch ml (lit l) x = [].
Proof.
  induction l as [|a l IH]; intros x H; [discriminate H|].
  assert (E : rmatch ml (lit (a :: l)) x =
              flat_map (rmatch ml (lit l))
                match rest x with
                | [] => []
                | c :: t => if is_char a c then [MState (Some c) t (caps x)] else []
                end) by reflexivity.
  rewrite E. clear E.
  destruct (rest x) as [|c t]; [reflexivity|].
  cbn [starts_with] in H. destruct (is_char a c); [|reflexivity].
  cbn [flat_map]. rewrite app_nil_r. apply IH. exact H.
Qed.

Lemma bold_re_pair p s :
  starts_with (str "**") s = false ->
  rmatch (multiline bold_re) (pattern bold_re) (start p s) = [].
Proof.
  intros H. unfold bold_re, pattern, multiline. rewrite rmatch_seq_eq.
  rewrite rmatch_lit_miss by exact H. reflexivity.
Qed.

(** *** The stages that find nothing *)

Lemma bullets_idle text :
  has_bullet_line None text = false ->
  replace bullet_re (wrap_tmpl "li") text = text.
Proof.
  intros Hb.
  apply (replace_no_match bullet_re (fun p s => has_bullet_line p s = false)).
  - intros p c t H. simpl in H. apply orb_false_iff in H. tauto.
  - apply bullet_re_fails.
  - exact Hb.
Qed.

Lemma grouping_idle text :
  contains (str "<li>") text = false ->
  replace list_re (wrap_tmpl "ul") text = text.
Proof.
  intros Hli.
  apply (replace_no_match list_re (fun _ s => contains (str "<li>") s = false)).
  - intros _ c t H. exact (contains_tail _ _ _ H).
  - apply list_re_fails.
  - exact Hli.
Qed.

Lemma bold_idle text :
  contains (str "**") text = false ->
  replace bold_re (wrap_tmpl "strong") text = text.
Proof.
  intros H.
  apply (replace_no_match bold_re (fun _ s => contains (str "**") s = false)).
  - intros _ c t Hc. exact (contains_tail _ _ _ Hc).
  - intros p s Hs. apply bold_re_pair. apply contains_head. exact Hs.
  - exact H.
Qed.

Lemma italic_idle text :
  has_char STAR text = false ->
  replace italic_re (wrap_tmpl "em") text = text.
Proof.
  intros H.
  apply (replace_no_match italic_re (fun _ s => has_char STAR s = false)).
  - intros _ c t Hc. apply has_char_head in Hc. tauto.
  - apply italic_re_fails.
  - exact H.
Qed.

Lemma code_idle text :
  has_char BACKTICK text = false ->
  replace code_re (wrap_tmpl "code") text = text.
Proof.
  intros H.
  apply (replace_no_match code_re (fun _ s => has_char BACKTICK s = false)).
  - intros _ c t Hc. apply has_char_head in Hc. tauto.
  - apply code_re_fails.
  - exact H.
Qed.

Lemma no_char_no_contains a pat s :
  has_char a s = false -> contains (a :: pat) s = false.
Proof.
  induction s as [|c t IH]; intros H; [reflexivity|].
  apply has_char_head in H. destruct H as [Hc Ht].
  cbn [contains starts_with]. rewrite Hc, (IH Ht). reflexivity.
Qed.

Lemma contains_app_skip a pat s :
  forall pre, has_char a pre = false ->
    contains (a :: pat) (pre ++ s) = contains (a :: pat) s.
Proof.
  induction pre as [|c pre IH]; intros H; [reflexivity|].
  apply has_char_head in H. destruct H as [Hc Hpre].
  change ((c :: pre) ++ s) with (c :: pre ++ s).
  cbn [contains starts_with]. rewrite Hc, (IH Hpre). reflexivity.
Qed.

Lemma single_stars_no_pair pre g post :
  has_char STAR pre = false -> g <> [] -> has_char STAR g = false ->
  has_char STAR post = false ->
  contains (str "**") (pre ++ STAR :: g ++ STAR :: post) = false.
Proof.
  intros Hpre Hne Hg Hpost.
  change (str "**") with [STAR; STAR].
  rewrite contains_app_skip by exact Hpre.
  destruct g as [|c t]; [congruence|].
  apply has_char_head in Hg. destruct Hg as [Hc Hg].
  cbn [contains starts_with app]. rewrite is_char_refl, Hc. cbn [andb orb].
  rewrite contains_app_skip by exact Hg.
  cbn [contains starts_with]. rewrite is_char_refl.
  rewrite (no_char_no_contains STAR [STAR] post Hpost).
  destruct post as [|d post']; [reflexivity|].
  apply has_char_head in Hpost. destruct Hpost as [Hd _]. rewrite Hd. reflexivity.
Qed.

Lemma expand_tag tag (open close g : jsstring) y :
  open = str ("<" ++ tag ++ ">")%string -> close = str ("</" ++ tag ++ ">")%string ->
  caps y = [(1, g)] ->
  flat_map (expand_part (caps y)) (wrap_tmpl tag) = open ++ g ++ close.
Proof. intros -> -> ->. rewrite expand_wrap. reflexivity. Qed.

Lemma is_char_eq a c : is_char a c = true -> c = a.
Proof. unfold is_char. apply N.eqb_eq. Qed.

(** The scan around one match, with a text behind it in which the
    expression matches nowhere. *)
Lemma replace_span_then re a (P : option char -> jsstring -> Prop) tmpl pre s m post y :
  (forall p c t, is_char a c = false ->
     rmatch (multiline re) (pattern re) (start p (c :: t)) = []) ->
  (forall p c t, P p (c :: t) -> P (Some c) t) ->
  (forall p s', P p s' -> rmatch (multiline re) (pattern re) (start p s') = []) ->
  s = m ++ post ->
  has_char a pre = false -> P (prev y) post -> m <> [] ->
  first_match (multiline re) (pattern re) (start (last_of pre None) s) y ->
  rest y = post ->
  replace re tmpl (pre ++ s) =
  pre ++ flat_map (expand_part (caps y)) tmpl ++ post.
Proof.
  intros Hhead Hstep Hfails Hs Hpre Hpost Hm Hy Hr. unfold replace.
  rewrite (scan_prefix re a Hhead) by exact Hpre.
  rewrite (scan_first re _ s y m Hy) by (rewrite ?Hr; auto).
  rewrite Hr, (scan_no_match re P Hstep Hfails post (prev y) Hpost).
  rewrite flat_map_app. cbn [flat_map]. rewrite !expand_copied.
  reflexivity.
Qed.

Lemma has_bullet_line_eq p s :
  has_bullet_line p s =
  (line_start p && bullet_at s) ||
  match s with
  | [] => false
  | c :: t => has_bullet_line (Some c) t
  end.
Proof. destruct s; reflexivity. Qed.

(** Inside a line no bullet line starts. *)
Lemma bullet_line_inside r :
  forall l p, forallb class_dot l = true -> line_start p = false ->
    has_bullet_line p (l ++ r) = has_bullet_line p r.
Proof.
  induction l as [|c l IH]; intros p Hl Hp; [reflexivity|].
  simpl in Hl. apply andb_true_iff in Hl. destruct Hl as [Hc Hl].
  unfold class_dot in Hc. apply negb_true_iff in Hc.
  change ((c :: l) ++ r) with (c :: l ++ r).
  rewrite has_bullet_line_eq, Hp. cbn [andb orb].
  rewrite (IH (Some c) Hl Hc).
  rewrite (has_bullet_line_eq p r), Hp. cbn [andb orb].
  destruct r as [|d r'].
  - rewrite has_bullet_line_eq. cbn [line_start]. rewrite Hc. reflexivity.
  - rewrite (has_bullet_line_eq (Some c) (d :: r')). cbn [line_start].
    rewrite Hc. reflexivity.
Qed.

(** ** The scanner of the design document and the expressions of the code *)

Lemma scan_refines re tag find :
  tells re find ->
  forall s skip p,
    flat_map (expand (wrap_tmpl tag)) (scan re skip p s) =
    spec_scan find tag skip p s.
Proof.
  intros Ht. induction s as [|c t IH]; intros skip p.
  - destruct skip as [|k]; [|reflexivity].
    rewrite scan_zero. cbn [spec_scan]. specialize (Ht p []).
    destruct (rmatch _ _ _) as [|y l].
    + rewrite Ht. reflexivity.
    + destruct Ht as [_ Hl]. simpl in Hl. lia.
  - destruct skip as [|k]; [|apply IH].
    rewrite scan_zero. cbn [spec_scan]. specialize (Ht p (c :: t)).
    destruct (rmatch _ _ _) as [|y l].
    + rewrite Ht. cbn [flat_map expand app]. rewrite IH. reflexivity.
    + destruct Ht as [-> Hl]. cbv zeta.
      destruct (Nat.eqb_spec (length (c :: t) - length (rest y)) 0) as [E|E];
        [lia|].
      cbn [flat_map]. unfold expand at 1. rewrite expand_wrap, IH.
      rewrite <- !app_assoc. reflexivity.
Qed.

Lemma replace_refines re tag find :
  tells re find ->
  forall s, replace re (wrap_tmpl tag) s = spec_scan find tag 0 None s.
Proof. intros Ht s. apply scan_refines. exact Ht. Qed.

Lemma starts_with_inv l : forall s, starts_with l s = true -> s = l ++ skipn (length l) s.
Proof.
  induction l as [|a l IH]; intros s H; [reflexivity|].
  destruct s as [|c s]; [discriminate H|]. simpl in H.
  apply andb_true_iff in H. destruct H as [Hc H].
  apply is_char_eq in Hc. subst c. simpl. f_equal. apply IH. exact H.
Qed.

Lemma lit_closes ml l : closes ml (lit l) l.
Proof.
  intros b. split; intros H.
  - apply rmatch_lit_miss. exact H.
  - exists (last_of l (prev b)). destruct b as [pv s cs]. cbn [rest prev caps] in *.
    rewrite (starts_with_inv l s H) at 1. apply rmatch_lit_app.
Qed.

Lemma charset_closes ml a : closes ml (CharSet (is_char a)) [a].
Proof.
  intros [pv s cs]. cbn [rest caps rmatch starts_with]. destruct s as [|c t].
  - split; [reflexivity | discriminate].
  - rewrite andb_true_r. destruct (is_char a c); split; try discriminate; eauto.
Qed.

Lemma until_close_sound close :
  forall s g r, until_close close s = Some (g, r) ->
    s = g ++ close ++ r /\ forallb class_dot g = true.
Proof.
  induction s as [|c t IH]; intros g r H.
  - simpl in H. destruct (starts_with close []) eqn:E; [|discriminate].
    injection H as <- <-. split; [|reflexivity]. apply (starts_with_inv close [] E).
  - cbn [until_close] in H. destruct (starts_with close (c :: t)) eqn:E.
    + injection H as <- <-. split; [|reflexivity].
      apply (starts_with_inv close (c :: t) E).
    + destruct (class_dot c) eqn:Ec; [|discriminate].
      destruct (until_close close t) as [[g' r']|]; [|discriminate].
      injection H as <- <-. destruct (IH g' r' eq_refl) as [-> Hg].
      split; [reflexivity|]. simpl. rewrite Ec. exact Hg.
Qed.

(** The group of a span and its closer: the states the lazy repetition
    offers on [t], the text [pre] being in the group already. *)
Lemma lazy_group_tells ml C close x :
  closes ml C close -> close <> [] -> caps x = [] ->
  forall t pre pv, rest x = pre ++ t ->
    match flat_map (rmatch ml C)
            (map (set_cap 1 x) (prefixes class_dot pv t [])) with
    | [] => until_close close t = None
    | y :: _ =>
        exists g, until_close close t = Some (g, rest y) /\
                  get_cap 1 (caps y) = pre ++ g
    end.
Proof.
  intros HC Hne Hx. induction t as [|d t IH]; intros pre pv Hr.
  - cbn [prefixes map flat_map]. rewrite app_nil_r.
    destruct (HC (set_cap 1 x (MState pv [] []))) as [Hmiss _].
    cbn [set_cap rest] in Hmiss. rewrite Hmiss by (destruct close; [congruence|reflexivity]).
    cbn [until_close]. destruct close; [congruence|reflexivity].
  - cbn [prefixes map flat_map].
    destruct (HC (set_cap 1 x (MState pv (d :: t) []))) as [Hmiss Hhit].
    cbn [set_cap rest prev caps] in Hmiss, Hhit.
    cbn [until_close]. destruct (starts_with close (d :: t)) eqn:E.
    + destruct (Hhit eq_refl) as [pv' ->]. cbn [app rest caps].
      exists []. split; [reflexivity|].
      cbn [get_cap Nat.eqb]. unfold consumed. cbn [rest]. rewrite Hr.
      rewrite length_app.
      replace (length pre + length (d :: t) - length (d :: t)) with (length pre + 0) by lia.
      rewrite firstn_app_2. simpl. reflexivity.
    + rewrite (Hmiss eq_refl). cbn [app].
      destruct (class_dot d) eqn:Ed.
      * specialize (IH (pre ++ [d]) (Some d)).
        rewrite <- app_assoc in IH. specialize (IH Hr).
        destruct (flat_map _ _) as [|y l].
        -- rewrite IH. reflexivity.
        -- destruct IH as [g [-> Hg]]. exists (d :: g). split; [reflexivity|].
           rewrite Hg, <- app_assoc. reflexivity.
      * reflexivity.
Qed.

(** The group and the closer of a span, read from the state behind
    the opener. *)
Lemma span_body_tells ml C close pv u :
  closes ml C close -> close <> [] ->
  match rmatch ml (Seq (Group 1 (Plus false (CharSet class_dot))) C)
          (MState pv u []) with
  | [] => span_text (fun _ => true) close u = None
  | y :: _ =>
      span_text (fun _ => true) close u = Some (get_cap 1 (caps y), rest y)
  end.
Proof.
  intros HC Hne. set (x := MState pv u []).
  rewrite rmatch_seq_eq. unfold span_text.
  destruct u as [|c t].
  - reflexivity.
  - rewrite andb_true_r. destruct (class_dot c) eqn:Ec.
    + assert (E : rmatch ml (Group 1 (Plus false (CharSet class_dot))) x =
                  map (set_cap 1 x) (prefixes class_dot (Some c) t [])).
      { cbn [rmatch]. f_equal. unfold Plus. rewrite rmatch_seq_eq.
        unfold x. rewrite rmatch_charset_hit by exact Ec.
        cbn [flat_map]. rewrite app_nil_r, rmatch_star_eq.
        rewrite lazy_star_charset by apply le_n. reflexivity. }
      rewrite E.
      pose proof (lazy_group_tells ml C close x HC Hne eq_refl t [c] (Some c) eq_refl) as H.
      destruct (flat_map _ _) as [|y l].
      * rewrite H. reflexivity.
      * destruct H as [g [-> Hg]]. simpl. rewrite Hg. reflexivity.
    + assert (E : rmatch ml (Group 1 (Plus false (CharSet class_dot))) x = []).
      { cbn [rmatch]. unfold Plus. rewrite rmatch_seq_eq. unfold x.
        rewrite rmatch_charset_miss by exact Ec. reflexivity. }
      rewrite E. reflexivity.
Qed.

Lemma delimited_sound open close ok s g r :
  delimited open close ok s = Some (g, r) ->
  s = open ++ g ++ close ++ r /\ g <> [] /\ forallb class_dot g = true.
Proof.
  unfold delimited, span_text. destruct (starts_with open s) eqn:E; [|discriminate].
  intros H. rewrite (starts_with_inv open s E) at 1.
  destruct (skipn (length open) s) as [|c t]; [discriminate|].
  destruct (class_dot c) eqn:Ec; [|discriminate]. simpl in H.
  destruct (ok c); [|discriminate].
  destruct (until_close close t) as [[g' r']|] eqn:Eu; [|discriminate].
  injection H as <- <-. apply until_close_sound in Eu. destruct Eu as [-> Hg].
  repeat split; [discriminate|]. simpl. rewrite Ec. exact Hg.
Qed.

Lemma delimited_shorter open close ok s g r :
  delimited open close ok s = Some (g, r) -> length r < length s.
Proof.
  intros H. apply delimited_sound in H. destruct H as [-> [Hg _]].
  rewrite !length_app. destruct g; [congruence|]. simpl. lia.
Qed.

(** An opener, the group, a closer. *)
Lemma span_tells ml O C open close :
  closes ml O open -> closes ml C close -> close <> [] ->
  forall p s,
    match rmatch ml (Seq O (Seq (Group 1 (Plus false (CharSet class_dot))) C))
            (start p s) with
    | [] => delimited open close (fun _ => true) s = None
    | y :: _ =>
        delimited open close (fun _ => true) s =
          Some (get_cap 1 (caps y), rest y) /\
        length (rest y) < length s
    end.
Proof.
  intros HO HC Hne p s. rewrite rmatch_seq_eq.
  pose proof (delimited_shorter open close (fun _ => true) s) as Hs.
  unfold delimited in *. destruct (HO (start p s)) as [Hmiss Hhit].
  cbn [start rest caps] in Hmiss, Hhit.
  destruct (starts_with open s).
  - destruct (Hhit eq_refl) as [pv ->]. cbn [flat_map]. rewrite app_nil_r.
    pose proof (span_body_tells ml C close pv (skipn (length open) s) HC Hne) as H.
    clear Hmiss Hhit.
    destruct (rmatch _ _ _) as [|y l]; [exact H|].
    split; [exact H|]. apply (Hs _ _ H).
  - rewrite (Hmiss eq_refl). reflexivity.
Qed.

Lemma code_re_tells : tells code_re find_code.
Proof.
  intros p s.
  apply (span_tells false (CharSet (is_char BACKTICK)) (CharSet (is_char BACKTICK))
           [BACKTICK] [BACKTICK]);
    [apply charset_closes | apply charset_closes | discriminate].
Qed.

Lemma bold_re_tells : tells bold_re find_bold.
Proof.
  intros p s.
  apply (span_tells false (lit (str "**")) (lit (str "**")) (str "**") (str "**"));
    [apply lit_closes | apply lit_closes | discriminate].
Qed.

Lemma not_space_dot c : class_s c = false -> class_dot c = true.
Proof.
  unfold class_s, class_dot. intros H. apply orb_false_iff in H.
  destruct H as [_ H]. rewrite H. reflexivity.
Qed.

Lemma italic_re_tells : tells italic_re find_italic.
Proof.
  intros p s. unfold italic_re, pattern, multiline, find_italic.
  rewrite rmatch_seq_eq.
  pose proof (delimited_shorter [STAR] [STAR] (fun c => negb (class_s c)) s) as Hs.
  unfold delimited in *.
  destruct (charset_closes false STAR (start p s)) as [Hmiss Hhit].
  cbn [start rest caps] in Hmiss, Hhit.
  destruct (starts_with [STAR] s).
  - destruct (Hhit eq_refl) as [pv ->]. cbn [flat_map]. rewrite app_nil_r.
    set (u := skipn (length [STAR]) s) in *. clear Hmiss Hhit.
    rewrite rmatch_seq_eq.
    pose proof (span_body_tells false (CharSet (is_char STAR)) [STAR] pv u
                  (charset_closes false STAR) ltac:(discriminate)) as H.
    change (rmatch false (NegLookahead (CharSet class_s)) (MState pv u []))
      with (match rmatch false (CharSet class_s) (MState pv u []) with
            | [] => [MState pv u []]
            | _ :: _ => []
            end).
    destruct u as [|c t] eqn:Eu.
    + cbn [rmatch rest flat_map]. rewrite app_nil_r.
      destruct (rmatch _ _ _) as [|y l]; [reflexivity|discriminate H].
    + destruct (class_s c) eqn:Ec.
      * rewrite rmatch_charset_hit by exact Ec. cbn [flat_map].
        unfold span_text. rewrite Ec, andb_false_r. reflexivity.
      * rewrite rmatch_charset_miss by exact Ec. cbn [flat_map]. rewrite app_nil_r.
        assert (E : span_text (fun c => negb (class_s c)) [STAR] (c :: t) =
                    span_text (fun _ => true) [STAR] (c :: t)).
        { unfold span_text. rewrite Ec. reflexivity. }
        rewrite E in *.
        destruct (rmatch _ _ _) as [|y l]; [exact H|].
        split; [exact H|]. apply (Hs _ _ H).
  - rewrite (Hmiss eq_refl). reflexivity.
Qed.

Lemma skip_space_sound s :
  exists ws, s = ws ++ skip_space s /\ forallb class_s ws = true /\
    stops class_s (skip_space s) = true.
Proof.
  induction s as [|c t [ws [E [Hw Hs]]]].
  - exists []. repeat split.
  - simpl. destruct (class_s c) eqn:Ec.
    + exists (c :: ws). simpl. rewrite Ec, <- E. auto.
    + exists []. simpl. rewrite Ec. auto.
Qed.

(** The states a greedy repetition of white space offers: the one behind
    all the white space first. *)
Lemma space_prefixes s pv cs :
  exists pv' inner,
    rev (prefixes class_s pv s cs) = MState pv' (skip_space s) cs :: inner /\
    forall b, In b inner -> exists c t, rest b = c :: t /\ class_s c = true.
Proof.
  destruct (skip_space_sound s) as [ws [E [Hw Hs]]].
  destruct (prefixes_run class_s cs (skip_space s) ws pv Hw) as [inner [He Hin]].
  rewrite <- E in He. rewrite He, prefixes_stop by exact Hs.
  rewrite rev_app_distr. cbn [rev app].
  exists (last_of ws pv), (rev inner). split; [reflexivity|].
  intros b Hb. apply in_rev in Hb. destruct (Hin b Hb) as [t1 [c [t2 [Et Hr]]]].
  exists c, (t2 ++ skip_space s). split; [exact Hr|].
  apply (forallb_split class_s ws t1 c t2 Hw Et).
Qed.

Lemma line_of_sound s :
  s = fst (line_of s) ++ snd (line_of s) /\
  forallb class_dot (fst (line_of s)) = true /\
  stops class_dot (snd (line_of s)) = true.
Proof.
  induction s as [|c t [E [Hg Hr]]].
  - repeat split.
  - cbn [line_of]. destruct (class_dot c) eqn:Ec.
    + cbn [fst snd app forallb]. rewrite Ec, <- E. auto.
    + cbn [fst snd app forallb stops]. rewrite Ec. auto.
Qed.

Lemma text_at_sound s g r :
  text_at s = Some (g, r) ->
  s = g ++ r /\ g <> [] /\ forallb class_dot g = true /\ stops class_dot r = true.
Proof.
  unfold text_at. destruct s as [|c t]; [discriminate|].
  destruct (class_dot c) eqn:Ec; [|discriminate].
  intros H.
  assert (H' : line_of (c :: t) = (g, r)) by congruence. clear H.
  destruct (line_of_sound (c :: t)) as [E [Hg Hr]]. rewrite H' in E, Hg, Hr.
  cbn [fst snd] in *. repeat split; auto.
  cbn [line_of] in H'. rewrite Ec in H'. injection H' as <- _. discriminate.
Qed.

(** The text of the item and the end of the line. *)
Lemma item_text_tells pv u :
  match rmatch true (Seq (Group 1 (Plus true (CharSet class_dot))) LineEnd)
          (MState pv u []) with
  | [] => text_at u = None
  | y :: _ => text_at u = Some (get_cap 1 (caps y), rest y)
  end.
Proof.
  unfold text_at. destruct u as [|c t].
  - reflexivity.
  - destruct (class_dot c) eqn:Ec.
    + destruct (line_of_sound (c :: t)) as [E [Hg Hr]].
      cbn [line_of] in *. rewrite Ec in *. cbn [fst snd] in *.
      set (g := fst (line_of t)) in *. set (r := snd (line_of t)) in *.
      assert (F : first_match true
                    (Seq (Group 1 (Plus true (CharSet class_dot))) LineEnd)
                    (MState pv (c :: t) [])
                    (MState (last_of g (Some c)) r [(1, c :: g)])).
      { injection E as E. rewrite E. simpl in Hg.
        apply andb_true_iff in Hg. destruct Hg as [_ Hg].
        apply first_seq with (z := MState (last_of g (Some c)) r [(1, c :: g)]).
        - replace (MState (last_of g (Some c)) r [(1, c :: g)])
            with (set_cap 1 (MState pv (c :: g ++ r) [])
                    (MState (last_of g (Some c)) r [])).
          + apply first_group. unfold Plus.
            apply first_seq with (z := MState (Some c) (g ++ r) []).
            * apply first_charset. exact Ec.
            * apply first_greedy_star; assumption.
          + unfold set_cap. cbn [prev rest caps].
            change (c :: g ++ r) with ((c :: g) ++ r).
            rewrite consumed_app. reflexivity.
        - apply first_line_end. unfold at_line_end. cbn [rest].
          destruct r as [|d r']; [reflexivity|]. simpl in Hr.
          unfold class_dot in Hr. rewrite negb_involutive in Hr.
          rewrite Hr. reflexivity. }
      destruct F as [l ->]. reflexivity.
    + rewrite rmatch_seq_eq.
      assert (E : rmatch true (Group 1 (Plus true (CharSet class_dot)))
                    (MState pv (c :: t) []) = []).
      { cbn [rmatch]. unfold Plus. rewrite rmatch_seq_eq.
        rewrite rmatch_charset_miss by exact Ec. reflexivity. }
      rewrite E. reflexivity.
Qed.

(** The white space between the marker and the text: the repetition
    takes as much as it can and gives back what the text needs. *)
Lemma gap_tells :
  forall t pv,
    match flat_map
            (rmatch true (Seq (Group 1 (Plus true (CharSet class_dot))) LineEnd))
            (rev (prefixes class_s pv t [])) with
    | [] => gap_text t = None
    | y :: _ => gap_text t = Some (get_cap 1 (caps y), rest y)
    end.
Proof.
  set (K := Seq (Group 1 (Plus true (CharSet class_dot))) LineEnd).
  induction t as [|c t IH]; intros pv.
  - reflexivity.
  - cbn [prefixes gap_text]. pose proof (item_text_tells pv (c :: t)) as HK.
    fold K in HK. destruct (class_s c) eqn:Ec.
    + cbn [rev]. rewrite flat_map_app. cbn [flat_map]. rewrite app_nil_r.
      specialize (IH (Some c)).
      destruct (flat_map (rmatch true K) (rev (prefixes class_s (Some c) t [])))
        as [|y l].
      * rewrite IH. exact HK.
      * rewrite IH. reflexivity.
    + cbn [rev app flat_map]. rewrite app_nil_r. exact HK.
Qed.

Lemma gap_text_sound :
  forall t g r, gap_text t = Some (g, r) ->
    exists w, t = w ++ g ++ r /\ forallb class_s w = true /\ g <> [] /\
      forallb class_dot g = true /\ stops class_dot r = true.
Proof.
  induction t as [|c t IH]; intros g r H; [discriminate|].
  cbn [gap_text] in H.
  assert (Ht : text_at (c :: t) = Some (g, r) ->
               exists w, c :: t = w ++ g ++ r /\ forallb class_s w = true /\
                 g <> [] /\ forallb class_dot g = true /\ stops class_dot r = true).
  { intros Ht. apply text_at_sound in Ht. exists []. tauto. }
  destruct (class_s c) eqn:Ec; [|auto].
  destruct (gap_text t) as [[g' r']|]; [|auto].
  injection H as <- <-. destruct (IH g' r' eq_refl) as [w [-> Hw]].
  exists (c :: w). simpl. rewrite Ec. tauto.
Qed.

Lemma find_bullet_sound p s g r :
  find_bullet p s = Some (g, r) ->
  line_start p = true /\
  exists ws m w,
    s = ws ++ m :: w ++ g ++ r /\ forallb class_s ws = true /\
    class_bullet m = true /\ w <> [] /\ forallb class_s w = true /\
    g <> [] /\ forallb class_dot g = true /\ stops class_dot r = true.
Proof.
  unfold find_bullet. destruct (line_start p); [|discriminate].
  destruct (skip_space_sound s) as [ws [E [Hw _]]].
  destruct (skip_space s) as [|m [|w t]]; try discriminate.
  destruct (class_bullet m) eqn:Em; [|discriminate].
  destruct (class_s w) eqn:Ew; [|discriminate]. cbn [andb].
  intros H. apply gap_text_sound in H. destruct H as [w' [-> H]].
  split; [reflexivity|]. exists ws, m, (w :: w').
  split; [exact E|]. split; [exact Hw|]. split; [exact Em|].
  split; [discriminate|]. simpl. rewrite Ew. tauto.
Qed.

Lemma bullet_re_tells : tells bullet_re find_bullet.
Proof.
  intros p s. unfold bullet_re, pattern, multiline.
  pose proof (find_bullet_sound p s) as Hs.
  unfold find_bullet in *.
  rewrite rmatch_seq_eq.
  change (rmatch true LineStart (start p s))
    with (if line_start p then [start p s] else []).
  destruct (line_start p); [|reflexivity].
  cbn [flat_map]. rewrite app_nil_r, rmatch_seq_eq, rmatch_star_eq.
  rewrite greedy_star_charset by apply le_n. cbn [start prev rest caps].
  destruct (space_prefixes s p []) as [pv' [inner [-> Hin]]].
  cbn [flat_map].
  set (R2 := Seq (Plus true (CharSet class_s))
               (Seq (Group 1 (Plus true (CharSet class_dot))) LineEnd)).
  assert (Hinner : flat_map (rmatch true (Seq (CharSet class_bullet) R2)) inner = []).
  { apply flat_map_nil_in. intros b Hb. destruct (Hin b Hb) as [c [t [Hr Hc]]].
    rewrite rmatch_seq_eq. destruct b as [bp br bc]. cbn [rest] in Hr. subst br.
    rewrite rmatch_charset_miss; [reflexivity|].
    destruct (class_bullet c) eqn:Eb; [|reflexivity].
    apply class_bullet_not_space in Eb. congruence. }
  rewrite Hinner, app_nil_r. clear Hinner Hin.
  rewrite rmatch_seq_eq.
  destruct (skip_space s) as [|m u].
  - reflexivity.
  - destruct (class_bullet m) eqn:Em.
    + rewrite rmatch_charset_hit by exact Em. cbn [flat_map]. rewrite app_nil_r.
      unfold R2, Plus at 1. rewrite !rmatch_seq_eq.
      destruct u as [|w t]; [reflexivity|].
      destruct (class_s w) eqn:Ew.
      * rewrite rmatch_charset_hit by exact Ew. cbn [flat_map andb].
        rewrite app_nil_r, rmatch_star_eq, greedy_star_charset by apply le_n.
        cbn [prev rest caps].
        pose proof (gap_tells t (Some w)) as H. cbn [andb] in Hs.
        destruct (flat_map _ _) as [|y l]; [exact H|].
        split; [exact H|].
        destruct (Hs _ _ H) as [_ [ws [m' [w' [-> [_ [_ [_ [_ [Hg _]]]]]]]]]].
        rewrite !length_app. simpl. rewrite !length_app.
        destruct (get_cap 1 (caps y)); [congruence|]. simpl. lia.
      * rewrite rmatch_charset_miss by exact Ew. reflexivity.
    + rewrite rmatch_charset_miss by exact Em. cbn [flat_map].
      destruct u; reflexivity.
Qed.

(** The end of a list item: the closing tag and all the white space
    behind it. *)
Lemma item_end_tells ml b :
  match rmatch ml (Seq (lit (str "</li>")) (Star true (CharSet class_s))) b with
  | [] => starts_with (str "</li>") (rest b) = false
  | y :: _ =>
      starts_with (str "</li>") (rest b) = true /\
      rest y = skip_space (skipn 5 (rest b)) /\ caps y = caps b
  end.
Proof.
  rewrite rmatch_seq_eq.
  destruct (lit_closes ml (str "</li>") b) as [Hmiss Hhit].
  destruct (starts_with (str "</li>") (rest b)).
  - destruct (Hhit eq_refl) as [pv ->]. cbn [flat_map]. rewrite app_nil_r.
    rewrite rmatch_star_eq, greedy_star_charset by apply le_n.
    cbn [prev rest caps].
    destruct (space_prefixes (skipn (length (str "</li>")) (rest b)) pv (caps b))
      as [pv' [inner [-> _]]].
    repeat split.
  - rewrite (Hmiss eq_refl). reflexivity.
Qed.

(** The text of a list item: the lazy repetition reads on to the
    nearest closing tag. *)
Lemma behind_tells ml cs :
  forall u pv,
    match flat_map
            (rmatch ml (Seq (lit (str "</li>")) (Star true (CharSet class_s))))
            (prefixes class_any pv u cs) with
    | [] => option_map skip_space (behind (str "</li>") u) = None
    | y :: _ =>
        option_map skip_space (behind (str "</li>") u) = Some (rest y) /\
        caps y = cs
    end.
Proof.
  set (R := Seq (lit (str "</li>")) (Star true (CharSet class_s))).
  induction u as [|c t IH]; intros pv.
  - cbn [prefixes flat_map]. rewrite app_nil_r.
    pose proof (item_end_tells ml (MState pv [] cs)) as H. fold R in H.
    destruct (rmatch ml R _) as [|y l]; [reflexivity|].
    destruct H as [H _]. discriminate H.
  - cbn [prefixes flat_map].
    pose proof (item_end_tells ml (MState pv (c :: t) cs)) as H. fold R in H.
    cbn [rest caps] in H. cbn [behind].
    destruct (rmatch ml R (MState pv (c :: t) cs)) as [|y l].
    + rewrite H. cbn [app].
      replace (class_any c) with true
        by (unfold class_any; destruct (class_s c); reflexivity).
      apply IH.
    + destruct H as [-> [Hr Hc]]. cbn [app option_map]. rewrite Hr.
      split; [reflexivity | exact Hc].
Qed.

Lemma item_tells x :
  match rmatch false list_item_re x with
  | [] => list_item_at (rest x) = None
  | y :: _ => list_item_at (rest x) = Some (rest y) /\ caps y = caps x
  end.
Proof.
  unfold list_item_re, list_item_at. rewrite rmatch_seq_eq.
  destruct (lit_closes false (str "<li>") x) as [Hmiss Hhit].
  destruct (starts_with (str "<li>") (rest x)).
  - destruct (Hhit eq_refl) as [pv ->]. cbn [flat_map]. rewrite app_nil_r.
    rewrite rmatch_seq_eq, rmatch_star_eq, lazy_star_charset by apply le_n.
    cbn [prev rest caps].
    apply (behind_tells false (caps x) (skipn 4 (rest x)) pv).
  - rewrite (Hmiss eq_refl). reflexivity.
Qed.

(** The greedy repetition of list items follows the first match of each
    item as long as one is found. *)
Lemma star_items n :
  forall a, exists e l,
    star_loop (rmatch false list_item_re) true n a = e :: l /\
    rest e = list_items n (rest a) /\ caps e = caps a.
Proof.
  induction n as [|k IH]; intros a.
  - exists a, []. repeat split.
  - cbn [star_loop list_items]. pose proof (item_tells a) as H.
    destruct (rmatch false list_item_re a) as [|y l] eqn:E.
    + rewrite H. exists a, []. repeat split.
    + destruct H as [-> Hc].
      assert (Hy : length (rest y) < length (rest a)).
      { apply (list_item_advances false). rewrite E. left. reflexivity. }
      cbn [flat_map].
      destruct (Nat.eqb_spec (length (rest y)) (length (rest a))); [lia|].
      destruct (IH y) as [e [l' [-> [Hr He]]]].
      exists e. eexists. split; [reflexivity|]. split; [exact Hr|]. congruence.
Qed.

Lemma list_re_tells : tells list_re find_list.
Proof.
  intros p s. unfold list_re, pattern, multiline, Plus, find_list.
  cbn [rmatch]. pose proof (item_tells (start p s)) as H. cbn [start rest] in H.
  destruct (rmatch false list_item_re (start p s)) as [|a la] eqn:Ea.
  - rewrite H. reflexivity.
  - destruct H as [-> _]. cbn [flat_map].
    destruct (star_items (length (rest a)) a) as [e [l [He [Hr _]]]].
    rewrite He. cbn [app map set_cap rest caps get_cap Nat.eqb].
    unfold consumed. cbn [start rest]. rewrite Hr. split; [reflexivity|].
    assert (Hin : In e (rmatch false (Star true list_item_re) a)).
    { cbn [rmatch]. rewrite He. left. reflexivity. }
    apply rmatch_length in Hin. rewrite <- Hr.
    assert (Ha : In a (rmatch false list_item_re (start p s))).
    { rewrite Ea. left. reflexivity. }
    apply list_item_advances in Ha. simpl in Ha. lia.
Qed.

(** ** The rendering and the ordering policy of the design document *)

Lemma stage_refines st text :
  run_stage st text =
  match st with
  | Bullets => replace bullet_re (wrap_tmpl "li") text
  | Grouping => replace list_re (wrap_tmpl "ul") text
  | Bold => replace bold_re (wrap_tmpl "strong") text
  | Italic => replace italic_re (wrap_tmpl "em") text
  | InlineCode => replace code_re (wrap_tmpl "code") text
  end.
Proof.
  symmetry. destruct st; apply replace_refines.
  - apply bullet_re_tells.
  - apply list_re_tells.
  - apply bold_re_tells.
  - apply italic_re_tells.
  - apply code_re_tells.
Qed.

(** ** The stars a stage takes out of the text *)

Lemma list_sum_cons a l : list_sum (a :: l) = a + list_sum l.
Proof. reflexivity. Qed.

Lemma count_char_split a n (s : jsstring) :
  count_char a s = count_char a (firstn n s) + count_char a (skipn n s).
Proof. rewrite <- count_char_app, firstn_skipn. reflexivity. Qed.

Lemma count_char_head a c t :
  count_char a (c :: t) = (if is_char a c then 1 else 0) + count_char a t.
Proof. unfold count_char. simpl. destruct (is_char a c); reflexivity. Qed.

(** The stars of the output and of what the spans read are the stars of
    the input and of what the spans keep: a tag holds no star. *)
Lemma scan_stars find tag :
  count_char STAR (str ("<" ++ tag ++ ">")%string) = 0 ->
  count_char STAR (str ("</" ++ tag ++ ">")%string) = 0 ->
  (forall p s g r, find p s = Some (g, r) -> length r < length s) ->
  forall s skip p,
    count_char STAR (spec_scan find tag skip p s) + stars_read (spans find skip p s) =
    count_char STAR (skipn skip s) + stars_kept (spans find skip p s).
Proof.
  intros Ho Hc Hf. induction s as [|c t IH]; intros skip p.
  - destruct skip as [|k]; [|reflexivity].
    cbn [spec_scan spans]. destruct (find p []) as [[g r]|] eqn:E; [|reflexivity].
    apply Hf in E. simpl in E. lia.
  - destruct skip as [|k]; [|apply IH].
    cbn [spec_scan spans skipn]. destruct (find p (c :: t)) as [[g r]|] eqn:E.
    + apply Hf in E. remember (length (c :: t) - length r) as n eqn:En.
      assert (Hn : n = S (n - 1)) by lia.
      specialize (IH (n - 1) (Some c)).
      unfold stars_read, stars_kept in *. cbn [map fst snd].
      rewrite !list_sum_cons, !count_char_app, Ho, Hc.
      rewrite (count_char_split STAR n (c :: t)).
      replace (skipn n (c :: t)) with (skipn (n - 1) t)
        by (rewrite Hn at 2; reflexivity).
      lia.
    + specialize (IH 0 (Some c)). cbn [skipn] in IH.
      rewrite !count_char_head. lia.
Qed.

Lemma spans_all find (Q : jsstring -> jsstring -> Prop) :
  (forall p s g r, find p s = Some (g, r) ->
     Q (firstn (length s - length r) s) g) ->
  forall s skip p, Forall (fun sp => Q (fst sp) (snd sp)) (spans find skip p s).
Proof.
  intros Hf. induction s as [|c t IH]; intros skip p.
  - destruct skip as [|k]; [|constructor].
    cbn [spans]. destruct (find p []) as [[g r]|] eqn:E; constructor.
    + apply (Hf _ _ _ _ E).
    + constructor.
  - destruct skip as [|k]; [|apply IH].
    cbn [spans]. destruct (find p (c :: t)) as [[g r]|] eqn:E; [|apply IH].
    constructor; [apply (Hf _ _ _ _ E) | apply IH].
Qed.

Lemma firstn_read (m r : jsstring) :
  firstn (length (m ++ r) - length r) (m ++ r) = m.
Proof.
  rewrite length_app.
  replace (length m + length r - length r) with (length m + 0) by lia.
  rewrite firstn_app_2. simpl. apply app_nil_r.
Qed.

Lemma space_no_star ws : forallb class_s ws = true -> count_char STAR ws = 0.
Proof.
  induction ws as [|c t IH]; intros H; [reflexivity|].
  simpl in H. apply andb_true_iff in H. destruct H as [Hc Ht].
  rewrite count_char_head, (IH Ht).
  destruct (is_char STAR c) eqn:E; [|reflexivity].
  apply is_char_eq in E. subst c. discriminate Hc.
Qed.

Lemma skip_space_app ws r :
  forallb class_s ws = true -> skip_space (ws ++ r) = skip_space r.
Proof.
  induction ws as [|c t IH]; intros H; [reflexivity|].
  simpl in H. apply andb_true_iff in H. destruct H as [Hc Ht].
  simpl. rewrite Hc. apply IH. exact Ht.
Qed.

(** The bold stage takes the four stars of every span it finds out of
    the text, and no other star. *)
Lemma bold_stage_stars text :
  count_char STAR (run_stage Bold text) + 4 * bold_spans text =
  count_char STAR text.
Proof.
  unfold bold_spans.
  pose proof (scan_stars find_bold "strong" eq_refl eq_refl
                (fun p s g r => delimited_shorter _ _ _ s g r) text 0 None) as H.
  cbn [skipn] in H. change (spec_scan find_bold "strong" 0 None text)
    with (run_stage Bold text) in H.
  assert (Hall : forall l,
            Forall (fun sp : jsstring * jsstring =>
                      fst sp = str "**" ++ snd sp ++ str "**") l ->
            stars_read l = stars_kept l + 4 * length l).
  { induction 1 as [|[m g] l Hm _ IH]; [reflexivity|].
    unfold stars_read, stars_kept in *. cbn [map fst snd length] in *.
    rewrite !list_sum_cons, Hm, !count_char_app. change (count_char STAR (str "**")) with 2. lia. }
  rewrite Hall in H; [lia|].
  apply (spans_all find_bold (fun m g => m = str "**" ++ g ++ str "**")).
  intros p s g r E. apply delimited_sound in E. destruct E as [-> _].
  replace (str "**" ++ g ++ str "**" ++ r) with ((str "**" ++ g ++ str "**") ++ r)
    by (rewrite <- !app_assoc; reflexivity).
  apply firstn_read.
Qed.

(** The bullet stage takes the marker of every bullet line out of the
    text: a star where the marker is one, and no other star. *)
Lemma bullet_stage_stars text :
  count_char STAR (run_stage Bullets text) + star_bullets text =
  count_char STAR text.
Proof.
  unfold star_bullets.
  assert (Hshort : forall p s g r, find_bullet p s = Some (g, r) ->
                     length r < length s).
  { intros p s g r E. apply find_bullet_sound in E.
    destruct E as [_ [ws [m [w [-> _]]]]].
    rewrite !length_app. simpl. rewrite !length_app. lia. }
  pose proof (scan_stars find_bullet "li" eq_refl eq_refl Hshort text 0 None) as H.
  cbn [skipn] in H. change (spec_scan find_bullet "li" 0 None text)
    with (run_stage Bullets text) in H.
  assert (Hall : forall l,
            Forall (fun sp : jsstring * jsstring =>
                      count_char STAR (fst sp) =
                      (if star_marker (fst sp) then 1 else 0) +
                      count_char STAR (snd sp)) l ->
            stars_read l =
            stars_kept l + length (filter (fun sp => star_marker (fst sp)) l)).
  { induction 1 as [|[m g] l Hm _ IH]; [reflexivity|].
    unfold stars_read, stars_kept in *. cbn [map fst snd filter] in *.
    rewrite !list_sum_cons, Hm. destruct (star_marker m); cbn [length]; lia. }
  rewrite Hall in H; [lia|].
  apply (spans_all find_bullet
           (fun m g => count_char STAR m =
                       (if star_marker m then 1 else 0) + count_char STAR g)).
  intros p s g r E. apply find_bullet_sound in E.
  destruct E as [_ [ws [m [w [-> [Hws [Hm [_ [Hw _]]]]]]]]].
  replace (ws ++ m :: w ++ g ++ r) with ((ws ++ m :: w ++ g) ++ r)
    by (rewrite <- !app_assoc; simpl; rewrite <- !app_assoc; reflexivity).
  rewrite firstn_read. unfold star_marker.
  rewrite skip_space_app by exact Hws.
  cbn [skip_space]. rewrite (class_bullet_not_space m Hm).
  rewrite count_char_app, count_char_head, count_char_app.
  rewrite (space_no_star ws Hws), (space_no_star w Hw). lia.
Qed.

(** The grouping stage keeps all that it reads. *)
Lemma grouping_stage_stars text :
  count_char STAR (run_stage Grouping text) = count_char STAR text.
Proof.
  assert (Hshort : forall p s g r, find_list p s = Some (g, r) ->
                     length r < length s).
  { intros p s g r E. pose proof (list_re_tells p s) as H.
    destruct (rmatch _ _ _) as [|y l]; [congruence|].
    destruct H as [H Hl]. rewrite E in H. injection H as _ ->. exact Hl. }
  pose proof (scan_stars find_list "ul" eq_refl eq_refl Hshort text 0 None) as H.
  cbn [skipn] in H. change (spec_scan find_list "ul" 0 None text)
    with (run_stage Grouping text) in H.
  assert (Hall : forall l,
            Forall (fun sp : jsstring * jsstring => fst sp = snd sp) l ->
            stars_read l = stars_kept l).
  { induction 1 as [|[m g] l Hm _ IH]; [reflexivity|].
    unfold stars_read, stars_kept in *. cbn [map fst snd] in *.
    rewrite !list_sum_cons, Hm. lia. }
  rewrite Hall in H; [lia|].
  apply (spans_all find_list (fun m g => m = g)).
  intros p s g r E. unfold find_list in E.
  destruct (list_item_at s); [|discriminate]. cbv zeta in E.
  injection E as <- <-. reflexivity.
Qed.

Lemma stages_refine text :
  renderMarkdown text = run_stages ordering_policy text.
Proof.
  unfold run_stages, ordering_policy, renderMarkdown. cbn [fold_left].
  rewrite !stage_refines. reflexivity.
Qed.

(** A text between two pairs of stars, alone on its line. *)
Lemma bold_text_no_bullet g :
  forallb class_dot g = true ->
  has_bullet_line None (str "**" ++ g ++ str "**") = false.
Proof.
  intros Hg. change (str "**" ++ g ++ str "**") with (STAR :: STAR :: g ++ str "**").
  rewrite has_bullet_line_eq.
  change (bullet_at (STAR :: STAR :: g ++ str "**")) with false.
  rewrite andb_false_r. cbn [orb].
  rewrite <- (app_nil_r (STAR :: g ++ str "**")).
  rewrite bullet_line_inside; [reflexivity| |reflexivity].
  cbn [forallb]. rewrite forallb_app, Hg. reflexivity.
Qed.

(** The italic stage, run before the bold stage, pairs the first star
    of the opening pair with the first star of the closing pair. *)
Lemma italic_takes_outer_stars g :
  g <> [] -> forallb class_dot g = true -> has_char STAR g = false ->
  replace italic_re (wrap_tmpl "em") (str "**" ++ g ++ str "**") =
  str "<em>*" ++ g ++ str "</em>*".
Proof.
  intros Hne Hdot Hg.
  transitivity
    ([] ++ flat_map (expand_part [(1, STAR :: g)]) (wrap_tmpl "em") ++ [STAR]).
  2:{ rewrite expand_wrap. simpl. rewrite <- app_assoc. reflexivity. }
  apply (replace_span_then italic_re STAR
           (fun _ s => count_char STAR s <= 1) (wrap_tmpl "em")
           [] (str "**" ++ g ++ str "**") (str "**" ++ g ++ [STAR]) [STAR]
           (MState (Some STAR) [STAR] [(1, STAR :: g)])).
  - apply italic_re_head.
  - intros _ c t H. pose proof (count_char_cons STAR c t). lia.
  - intros p s' H. apply italic_re_needs_two_stars. exact H.
  - rewrite <- !app_assoc. reflexivity.
  - reflexivity.
  - cbn [prev]. apply le_n.
  - discriminate.
  - unfold italic_re, pattern, multiline, start. cbn [last_of].
    change (str "**" ++ g ++ str "**") with (STAR :: STAR :: g ++ STAR :: [STAR]).
    eapply first_seq; [apply first_charset; apply is_char_refl|].
    eapply first_seq.
    { apply first_neg_lookahead. apply rmatch_charset_miss. reflexivity. }
    apply first_lazy_group; [reflexivity | exact Hdot | |].
    + intros b t1 c' t2 Et Hb.
      apply (charset_fails_at false STAR b c' _ Hb).
      exact (has_char_split _ _ _ _ _ Hg Et).
    + apply first_charset. apply is_char_refl.
  - reflexivity.
Qed.


(** * The properties of the design document *)

(** C1.  The renderer is total: [renderMarkdown] is a function on all
    strings, so every text has an output, and no step of it can fail.
    The one bound in the model, the number of iterations of a repetition,
    is never what ends a repetition: any bound of at least the length of
    the remaining input gives the match of the starred expression.  The
    empty text renders as the empty text; four adjacent stars, an
    unterminated star and a bullet marker without text are rendered too. *)
Theorem renderMarkdown_total :
  (forall text, exists html, renderMarkdown text = html) /\
  (forall ml g r k x,
     star_loop (rmatch ml r) g (length (rest x) + k) x = rmatch ml (Star g r) x) /\
  renderMarkdown [] = [] /\
  renderMarkdown (str "****") = str "<em>*</em>*" /\
  renderMarkdown (str "*unterminated") = str "*unterminated" /\
  renderMarkdown (str "- ") = str "- ".
Proof.
  split; [intros text; eexists; reflexivity|].
  split.
  - intros ml g r k x. rewrite rmatch_star_eq.
    apply star_loop_fuel; [|lia|lia].
    intros a b Hb. apply (rmatch_length ml r a b Hb).
  - repeat split; vm_compute; reflexivity.
Qed.

(** C2, as amended.  A text without bullet line, without star, without
    backtick and without a literal list-item tag is returned unchanged. *)
Theorem identity_on_plain_text (text : jsstring) :
  no_markers text = true ->
  contains (str "<li>") text = false ->
  renderMarkdown text = text.
Proof.
  unfold no_markers. intros Hm Hli.
  apply andb_true_iff in Hm. destruct Hm as [Hm Hq].
  apply andb_true_iff in Hm. destruct Hm as [Hb Hs].
  apply negb_true_iff in Hb, Hs, Hq.
  unfold renderMarkdown. cbv zeta.
  assert (E1 : replace bullet_re (wrap_tmpl "li") text = text).
  { apply (replace_no_match bullet_re (fun p s => has_bullet_line p s = false)).
    - intros p c t H. simpl in H. apply orb_false_iff in H. tauto.
    - apply bullet_re_fails.
    - exact Hb. }
  assert (E2 : replace list_re (wrap_tmpl "ul") text = text).
  { apply (replace_no_match list_re (fun _ s => contains (str "<li>") s = false)).
    - intros _ c t H. exact (contains_tail _ _ _ H).
    - apply list_re_fails.
    - exact Hli. }
  assert (E3 : replace bold_re (wrap_tmpl "strong") text = text).
  { apply (replace_no_match bold_re (fun _ s => has_char STAR s = false)).
    - intros _ c t H. apply has_char_head in H. tauto.
    - apply bold_re_fails.
    - exact Hs. }
  assert (E4 : replace italic_re (wrap_tmpl "em") text = text).
  { apply (replace_no_match italic_re (fun _ s => has_char STAR s = false)).
    - intros _ c t H. apply has_char_head in H. tauto.
    - apply italic_re_fails.
    - exact Hs. }
  assert (E5 : replace code_re (wrap_tmpl "code") text = text).
  { apply (replace_no_match code_re (fun _ s => has_char BACKTICK s = false)).
    - intros _ c t H. apply has_char_head in H. tauto.
    - apply code_re_fails.
    - exact Hq. }
  rewrite E1, E2, E3, E4, E5. reflexivity.
Qed.

Lemma identity_on_plain_text_witness :
  renderMarkdown (str "a - b, 2 < 3 and _c_") = str "a - b, 2 < 3 and _c_".
Proof. apply identity_on_plain_text; reflexivity. Defined.

(** C2, as stated, fails: a text with none of the markers it lists, but
    with a literal list item, is wrapped in a list container. *)
Lemma literal_list_item_is_wrapped :
  no_markers (str "<li>x</li>") = true /\
  renderMarkdown (str "<li>x</li>") = str "<ul><li>x</li></ul>" /\
  renderMarkdown (str "<li>x</li>") <> str "<li>x</li>".
Proof.
  split; [reflexivity|]. split; [vm_compute; reflexivity|].
  vm_compute. discriminate.
Qed.

(** C3.  [renderMarkdown] is the five stages of the design document run
    in the order of its ordering policy: the bullet lines, the grouping,
    bold, italic, inline code, each stage the scanner of the document
    for its construct.  The italic stage reads none of the markers the
    earlier stages consumed: of the stars of a text, exactly the four
    delimiters of every bold span and the marker of every bullet line
    that has a star for one are gone when the italic stage runs.  The
    order bears load: for every text [g] on one line that is not empty
    and holds no star, no backtick and no [<], the policy renders
    [**g**] as strong emphasis, while italic before bold pairs the first
    star of the opening pair with the first star of the closing pair;
    and grouping before bullets finds no list. *)
Theorem renderMarkdown_follows_ordering_policy :
  (forall text, renderMarkdown text = run_stages ordering_policy text) /\
  (forall text,
     let listed := run_stage Grouping (run_stage Bullets text) in
     count_char STAR (run_stage Bold listed) + 4 * bold_spans listed +
       star_bullets text =
     count_char STAR text) /\
  (forall g,
     g <> [] -> forallb class_dot g = true -> unmarked g = true ->
     has_char LT g = false ->
     run_stages ordering_policy (str "**" ++ g ++ str "**") =
       str "<strong>" ++ g ++ str "</strong>" /\
     run_stages [Bullets; Grouping; Italic; Bold; InlineCode]
       (str "**" ++ g ++ str "**") =
       str "<em>*" ++ g ++ str "</em>*") /\
  run_stages [Bullets; Grouping; Italic; Bold; InlineCode] (str "**bold**") =
    str "<em>*bold</em>*" /\
  run_stages [Grouping; Bullets; Bold; Italic; InlineCode] (str "- a") =
    str "<li>a</li>" /\
  renderMarkdown (str "- a") = str "<ul><li>a</li></ul>" /\
  renderMarkdown (str "* a *b* c") = str "<ul><li>a <em>b</em> c</li></ul>" /\
  renderMarkdown (str "**a *b* c**") = str "<strong>a <em>b</em> c</strong>" /\
  renderMarkdown (str "`code`") = str "<code>code</code>".
Proof.
  split; [exact stages_refine|].
  split.
  { intros text listed.
    pose proof (bold_stage_stars listed) as Hb.
    pose proof (grouping_stage_stars (run_stage Bullets text)) as Hg.
    pose proof (bullet_stage_stars text) as Hl.
    fold listed in Hg. lia. }
  split.
  { intros g Hne Hdot Hg Hlt.
    apply unmarked_inv in Hg. destruct Hg as [Hs Hq].
    set (text := str "**" ++ g ++ str "**").
    assert (Hb : has_bullet_line None text = false)
      by (apply bold_text_no_bullet; exact Hdot).
    assert (Hli : contains (str "<li>") text = false).
    { apply (no_char_no_contains LT (str "li>")). unfold text.
      rewrite !has_char_app, Hlt. reflexivity. }
    unfold run_stages, ordering_policy. cbn [fold_left]. rewrite !stage_refines.
    rewrite (bullets_idle text Hb), (grouping_idle text Hli).
    split.
    - assert (E : replace bold_re (wrap_tmpl "strong") text =
                  str "<strong>" ++ g ++ str "</strong>").
      { transitivity
          ([] ++ flat_map (expand_part [(1, g)]) (wrap_tmpl "strong") ++ []).
        2:{ rewrite expand_wrap. simpl. rewrite app_nil_r. reflexivity. }
        apply (replace_one_span bold_re STAR bold_re_head
                 (fun p => eq_refl) (wrap_tmpl "strong") [] text
                 (str "**" ++ g ++ str "**") []
                 (MState (Some STAR) [] [(1, g)])).
        - rewrite app_nil_r. reflexivity.
        - reflexivity.
        - reflexivity.
        - discriminate.
        - apply (bold_span_first None g []); assumption.
        - reflexivity. }
      rewrite E.
      rewrite italic_idle by (rewrite !has_char_app, Hs; reflexivity).
      apply code_idle. rewrite !has_char_app, Hq. reflexivity.
    - unfold text. rewrite (italic_takes_outer_stars g Hne Hdot Hs).
      rewrite bold_idle.
      + apply code_idle. rewrite !has_char_app, Hq. reflexivity.
      + change (str "<em>*" ++ g ++ str "</em>*")
          with (str "<em>" ++ STAR :: g ++ str "</em>*").
        replace (g ++ str "</em>*") with ((g ++ str "</em>") ++ STAR :: [])
          by (rewrite <- app_assoc; reflexivity).
        apply single_stars_no_pair.
        * reflexivity.
        * destruct g; [congruence | discriminate].
        * rewrite has_char_app, Hs. reflexivity.
        * reflexivity. }
  repeat split; vm_compute; reflexivity.
Qed.




(** C5.  In the text of the design document the bold span and the italic
    span are found once each, one after the other, and two bold spans
    stay two.  The bold expression is not greedy: its first match at any
    place records a text [g] between two pairs of stars such that no
    shorter part of [g] is followed by a pair of stars. *)
Theorem bold_and_italic_separate :
  renderMarkdown (str "**bold** and *italic*") =
    str "<strong>bold</strong> and <em>italic</em>" /\
  occurrences (str "<strong>") (renderMarkdown (str "**bold** and *italic*")) = 1 /\
  occurrences (str "<em>") (renderMarkdown (str "**bold** and *italic*")) = 1 /\
  renderMarkdown (str "**a** and **b**") =
    str "<strong>a</strong> and <strong>b</strong>" /\
  (forall p s y l,
     rmatch (multiline bold_re) (pattern bold_re) (start p s) = y :: l ->
     exists g, s = str "**" ++ g ++ str "**" ++ rest y /\
       get_cap 1 (caps y) = g /\ g <> [] /\
       forall g1 g2, g = g1 ++ g2 -> g1 <> [] -> g2 <> [] ->
         starts_with (str "**") (g2 ++ str "**" ++ rest y) = false).
Proof.
  split; [vm_compute; reflexivity|].
  split; [vm_compute; reflexivity|].
  split; [vm_compute; reflexivity|].
  split; [vm_compute; reflexivity|].
  exact bold_re_nearest.
Qed.

Lemma bold_and_italic_separate_witness :
  exists g, str "**a** and **b**" = str "**" ++ g ++ str "**" ++ str " and **b**" /\
    g <> [].
Proof.
  edestruct (proj2 (proj2 (proj2 (proj2 bold_and_italic_separate)))
               None (str "**a** and **b**")) as [g [Hs [_ [Hne _]]]].
  { vm_compute. reflexivity. }
  exists g. split; [exact Hs | exact Hne].
Defined.

(** C6.  A single star without a closing one is rendered literally:
    the output is the input and holds the star.  So is every text whose
    only marker is one star, wherever the star stands. *)
Theorem unterminated_star_literal :
  renderMarkdown (str "*unterminated") = str "*unterminated" /\
  has_char STAR (renderMarkdown (str "*unterminated")) = true /\
  (forall text,
     count_char STAR text <= 1 ->
     has_char BACKTICK text = false ->
     has_bullet_line None text = false ->
     contains (str "<li>") text = false ->
     renderMarkdown text = text).
Proof.
  split; [vm_compute; reflexivity|].
  split; [vm_compute; reflexivity|].
  intros text Hs Hq Hb Hli.
  unfold renderMarkdown. cbv zeta.
  rewrite (replace_no_match bullet_re (fun p s => has_bullet_line p s = false)).
  - rewrite (replace_no_match list_re (fun _ s => contains (str "<li>") s = false)).
    + rewrite (replace_no_match bold_re (fun _ s => count_char STAR s <= 1)).
      * rewrite (replace_no_match italic_re (fun _ s => count_char STAR s <= 1)).
        -- apply (replace_no_match code_re (fun _ s => has_char BACKTICK s = false)).
           ++ intros _ c t H. apply has_char_head in H. tauto.
           ++ apply code_re_fails.
           ++ exact Hq.
        -- intros _ c t H. pose proof (count_char_cons STAR c t). lia.
        -- apply italic_re_needs_two_stars.
        -- exact Hs.
      * intros _ c t H. pose proof (count_char_cons STAR c t). lia.
      * apply bold_re_needs_two_stars.
      * exact Hs.
    + intros _ c t H. exact (contains_tail _ _ _ H).
    + apply list_re_fails.
    + exact Hli.
  - intros p c t H. simpl in H. apply orb_false_iff in H. tauto.
  - apply bullet_re_fails.
  - exact Hb.
Qed.

Lemma unterminated_star_literal_witness :
  renderMarkdown (str "a single trailing *") = str "a single trailing *".
Proof.
  apply (proj2 (proj2 unterminated_star_literal)); [vm_compute; lia | | |];
    reflexivity.
Defined.

(** C7, as amended.  For a repository with a summary that is not empty
    the modal calls [renderMarkdown] once, on the summary, and shows its
    result; for a repository whose summary is absent or empty it calls
    nothing and shows the fixed notice; without a repository it shows
    nothing. *)
Theorem modal_renders_summary_or_notice (model : option jsstring) (r : Repo) :
  (forall c t,
     shown_block (RepoModal model (Some (with_summary r (Some (c :: t))))) =
       Some (Article (renderMarkdown (c :: t))
               (str "Summary generated using " ++ nullish model default_model)) /\
     renderer_calls (RepoModal model (Some (with_summary r (Some (c :: t))))) =
       [c :: t]) /\
  (shown_block (RepoModal model (Some (with_summary r None))) =
     Some (NoReadme no_readme_notice) /\
   renderer_calls (RepoModal model (Some (with_summary r None))) = []) /\
  (shown_block (RepoModal model (Some (with_summary r (Some [])))) =
     Some (NoReadme no_readme_notice) /\
   renderer_calls (RepoModal model (Some (with_summary r (Some [])))) = []) /\
  (shown_block (RepoModal model None) = None /\
   renderer_calls (RepoModal model None) = []).
Proof.
  split.
  - intros c t. rewrite RepoModal_with_text. split; reflexivity.
  - split; [|split].
    + rewrite (RepoModal_without_text model r None (or_introl eq_refl)).
      split; reflexivity.
    + rewrite (RepoModal_without_text model r (Some []) (or_intror eq_refl)).
      split; reflexivity.
    + split; reflexivity.
Qed.

(** C7, as stated, fails: the absent summary and the empty summary are
    not told apart, the dialog is the same. *)
Lemma absent_and_empty_summary_alike :
  RepoModal None (Some (with_summary sample_repo None)) =
  RepoModal None (Some (with_summary sample_repo (Some []))).
Proof. reflexivity. Qed.

(** C8.  A call creates its five RegExp objects and writes only their
    [lastIndex]: the heap it found is a prefix of the heap it leaves, and
    the result is that of the function [renderMarkdown] of the text
    alone, so two calls on one text agree whatever the heaps are.  No
    state is kept from call to call: [replace] gives the same result
    whatever [lastIndex] its RegExp object holds, and leaves 0 there. *)
Theorem renderMarkdown_pure :
  (forall text h,
     Effects.renderMarkdown text h = (renderMarkdown text, h ++ Effects.locals)) /\
  (forall text h1 h2,
     fst (Effects.renderMarkdown text h1) = fst (Effects.renderMarkdown text h2)) /\
  (forall text h,
     firstn (length h) (snd (Effects.renderMarkdown text h)) = h) /\
  (forall h re i tmpl s,
     Effects.replace_with (length h) tmpl s (h ++ [Effects.MkObject re i]) =
     (replace re tmpl s, h ++ [Effects.MkObject re 0])).
Proof.
  split; [exact renderMarkdown_run|]. split; [|split].
  - intros text h1 h2. rewrite !renderMarkdown_run. reflexivity.
  - intros text h. rewrite renderMarkdown_run. simpl snd.
    rewrite firstn_app, Nat.sub_diag, firstn_all. simpl. apply app_nil_r.
  - exact replace_with_fresh.
Qed.

(** C9.  Nothing is escaped: the text without the code units a stage may
    delete (white space, bullet markers, delimiters) is a subsequence of
    the output, so every angle bracket of the text is in the output, in
    order and as it is; and the modal hands the output to the article as
    its inner HTML. *)
Theorem no_html_escaping :
  (forall text, subseq (kept text) (renderMarkdown text)) /\
  (forall text,
     subseq (filter is_angle text) (filter is_angle (renderMarkdown text))) /\
  renderMarkdown (str "<script>x</script> & y") = str "<script>x</script> & y" /\
  (forall model r c t,
     shown_block (RepoModal model (Some (with_summary r (Some (c :: t))))) =
       Some (Article (renderMarkdown (c :: t))
               (str "Summary generated using " ++ nullish model default_model))).
Proof.
  split; [exact renderMarkdown_keeps|].
  split; [exact renderMarkdown_keeps_angles|].
  split; [vm_compute; reflexivity|].
  intros model r c t. rewrite RepoModal_with_text. reflexivity.
Qed.

(** C10.  A body that is not JSON is not caught: [res.json()] is returned
    without [await], so the promise of each of the four functions is
    settled as the promise of [res.json()] is, and a server that answers
    with status 200 and a garbled body makes each of them reject with the
    error of the parser.  A request that fails and a status that is not
    OK do give the fixed value. *)
Theorem parse_error_reaches_caller (backend : jsstring) :
  (ThesisPage.fetchThesis garbled_server backend = Rejected SyntaxError /\
   Home.fetchRepos garbled_server backend = Rejected SyntaxError /\
   Home.fetchThesis garbled_server backend = Rejected SyntaxError /\
   Home.fetchProfile garbled_server backend = Rejected SyntaxError) /\
  (forall fetch,
     ThesisPage.fetchThesis fetch backend =
       match fetch (backend ++ str "/api/thesis") with
       | Rejected _ => Fulfilled ThesisPage.fallback
       | Fulfilled res =>
           if ok res then body_json res else Fulfilled ThesisPage.fallback
       end /\
     Home.fetchRepos fetch backend =
       match fetch (backend ++ str "/api/repos") with
       | Rejected _ => Fulfilled (JArray [])
       | Fulfilled res => if ok res then body_json res else Fulfilled (JArray [])
       end /\
     Home.fetchThesis fetch backend =
       match fetch (backend ++ str "/api/thesis") with
       | Rejected _ => Fulfilled JNull
       | Fulfilled res => if ok res then body_json res else Fulfilled JNull
       end /\
     Home.fetchProfile fetch backend =
       match fetch (backend ++ str "/api/profile") with
       | Rejected _ => Fulfilled JNull
       | Fulfilled res => if ok res then body_json res else Fulfilled JNull
       end).
Proof.
  split.
  - rewrite thesis_page_fetch_cases, home_fetchRepos_cases,
      home_fetchThesis_cases, home_fetchProfile_cases.
    repeat split.
  - intros fetch.
    rewrite <- thesis_page_fetch_cases, <- home_fetchRepos_cases,
      <- home_fetchThesis_cases, <- home_fetchProfile_cases.
    repeat split.
Qed.

(** * Further properties of the code

    What the renderer does on the forms of markup it knows, and the
    behaviour of the code around it: the title and the scroll lock of the
    dialog, the address of the backend, the thesis page, the home page in
    its two versions, and the theme button. *)

(** ** Inline spans *)



(** X2.  A bold span: a text between two pairs of stars, not empty and
    on one line, becomes a [strong] element, and the text before and
    behind it stays as it is; the later stages for italics and code
    leave the element alone.  The text around and inside the span holds
    no star and no backtick, and the whole text has no bullet line and
    no literal list item. *)
Theorem bold_span_rendered (pre g post : jsstring) :
  has_bullet_line None (pre ++ str "**" ++ g ++ str "**" ++ post) = false ->
  contains (str "<li>") (pre ++ str "**" ++ g ++ str "**" ++ post) = false ->
  unmarked pre = true -> unmarked g = true -> unmarked post = true ->
  g <> [] -> forallb class_dot g = true ->
  renderMarkdown (pre ++ str "**" ++ g ++ str "**" ++ post) =
  pre ++ str "<strong>" ++ g ++ str "</strong>" ++ post.
Proof.
  intros Hb Hli Hpre Hg Hpost Hne Hdot.
  apply unmarked_inv in Hpre, Hg, Hpost.
  destruct Hpre as [Hpre1 Hpre2], Hg as [Hg1 Hg2], Hpost as [Hpost1 Hpost2].
  set (text := pre ++ str "**" ++ g ++ str "**" ++ post) in *.
  unfold renderMarkdown. cbv zeta.
  rewrite (bullets_idle text Hb), (grouping_idle text Hli).
  unfold text.
  rewrite (replace_one_span bold_re STAR bold_re_head
             (fun p => eq_refl) (wrap_tmpl "strong") pre _
             (str "**" ++ g ++ str "**") post
             (MState (Some STAR) post [(1, g)])).
  - rewrite (expand_tag "strong" (str "<strong>") (str "</strong>") g)
      by reflexivity.
    set (out := pre ++ (str "<strong>" ++ g ++ str "</strong>") ++ post).
    assert (Hs : has_char STAR out = false).
    { unfold out. rewrite !has_char_app, Hpre1, Hg1, Hpost1. reflexivity. }
    assert (Hq : has_char BACKTICK out = false).
    { unfold out. rewrite !has_char_app, Hpre2, Hg2, Hpost2. reflexivity. }
    rewrite (italic_idle out Hs), (code_idle out Hq).
    unfold out. rewrite <- !app_assoc. reflexivity.
  - rewrite <- !app_assoc. reflexivity.
  - exact Hpre1.
  - exact Hpost1.
  - discriminate.
  - apply bold_span_first; assumption.
  - reflexivity.
Qed.

Lemma bold_span_rendered_witness :
  renderMarkdown (str "a **fast** parser") = str "a <strong>fast</strong> parser".
Proof.
  apply (bold_span_rendered (str "a ") (str "fast") (str " parser"));
    (reflexivity || discriminate).
Defined.

(** X3.  An italic span: a text between two single stars, not empty, on
    one line and with no white space behind the opening star, becomes an
    [em] element, and the text before and behind it stays as it is; the
    bold stage before it finds no pair of stars.  The text around and
    inside the span holds no star and no backtick, and the whole text
    has no bullet line and no literal list item. *)
Theorem italic_span_rendered (pre g post : jsstring) :
  has_bullet_line None (pre ++ STAR :: g ++ STAR :: post) = false ->
  contains (str "<li>") (pre ++ STAR :: g ++ STAR :: post) = false ->
  unmarked pre = true -> unmarked g = true -> unmarked post = true ->
  starts_text g = true -> forallb class_dot g = true ->
  renderMarkdown (pre ++ STAR :: g ++ STAR :: post) =
  pre ++ str "<em>" ++ g ++ str "</em>" ++ post.
Proof.
  intros Hb Hli Hpre Hg Hpost Hne Hdot.
  apply unmarked_inv in Hpre, Hg, Hpost.
  destruct Hpre as [Hpre1 Hpre2], Hg as [Hg1 Hg2], Hpost as [Hpost1 Hpost2].
  assert (Hne' : g <> []) by (destruct g; [discriminate Hne | discriminate]).
  set (text := pre ++ STAR :: g ++ STAR :: post) in *.
  unfold renderMarkdown. cbv zeta.
  rewrite (bullets_idle text Hb), (grouping_idle text Hli).
  rewrite bold_idle by (apply single_stars_no_pair; assumption).
  unfold text.
  rewrite (replace_one_span italic_re STAR italic_re_head
             (fun p => eq_refl) (wrap_tmpl "em") pre _
             (STAR :: g ++ [STAR]) post
             (MState (Some STAR) post [(1, g)])).
  - rewrite (expand_tag "em" (str "<em>") (str "</em>") g) by reflexivity.
    set (out := pre ++ (str "<em>" ++ g ++ str "</em>") ++ post).
    assert (Hq : has_char BACKTICK out = false).
    { unfold out. rewrite !has_char_app, Hpre2, Hg2, Hpost2. reflexivity. }
    rewrite (code_idle out Hq).
    unfold out. rewrite <- !app_assoc. reflexivity.
  - cbn [app]. rewrite <- app_assoc. reflexivity.
  - exact Hpre1.
  - exact Hpost1.
  - discriminate.
  - apply italic_span_first; assumption.
  - reflexivity.
Qed.

Lemma italic_span_rendered_witness :
  renderMarkdown (str "an *early* draft") = str "an <em>early</em> draft".
Proof.
  apply (italic_span_rendered (str "an ") (str "early") (str " draft"));
    (reflexivity || discriminate).
Defined.

(** *** Stars that white space follows *)

Lemma spaced_stars_tail c t : spaced_stars (c :: t) = true -> spaced_stars t = true.
Proof. cbn [spaced_stars]. intros H. apply andb_true_iff in H. tauto. Qed.

Lemma spaced_stars_italic p s :
  spaced_stars s = true ->
  rmatch (multiline italic_re) (pattern italic_re) (start p s) = [].
Proof.
  destruct s as [|c [|d t]]; [reflexivity | |].
  - intros _. simpl. destruct (is_char STAR c); reflexivity.
  - cbn [spaced_stars]. intros H. apply andb_true_iff in H. destruct H as [H _].
    unfold italic_re, pattern, multiline. rewrite rmatch_seq_eq.
    destruct (is_char STAR c) eqn:Ec.
    + simpl in H. unfold start.
      rewrite (rmatch_charset_hit false _ c (d :: t) p [] Ec).
      cbn [flat_map]. rewrite rmatch_seq_eq. cbn [rmatch rest].
      rewrite H. reflexivity.
    + unfold start. rewrite (rmatch_charset_miss false _ c (d :: t) p [] Ec).
      reflexivity.
Qed.

Lemma spaced_stars_no_pair s :
  spaced_stars s = true -> contains (str "**") s = false.
Proof.
  induction s as [|c t IH]; intros H; [reflexivity|].
  pose proof (spaced_stars_tail c t H) as Ht.
  change (str "**") with [STAR; STAR] in *.
  cbn [contains]. rewrite (IH Ht), orb_false_r.
  cbn [spaced_stars] in H. apply andb_true_iff in H. destruct H as [H _].
  cbn [starts_with]. destruct (is_char STAR c) eqn:Ec; [|reflexivity].
  destruct t as [|d t']; [reflexivity|]. simpl in H.
  cbn [starts_with andb]. rewrite andb_true_r.
  destruct (is_char STAR d) eqn:Ed; [|reflexivity].
  unfold is_char in Ed. apply N.eqb_eq in Ed. subst d. discriminate H.
Qed.

(** *** Delimiters on different lines *)

Lemma sparse_seen a s : sparse_from a true s = true -> sparse_from a false s = true.
Proof.
  induction s as [|c t IH]; [reflexivity|]. cbn [sparse_from].
  destruct (is_line_terminator c); [auto|].
  destruct (is_char a c); [discriminate | exact IH].
Qed.

Lemma sparse_tail a c t :
  sparse_from a false (c :: t) = true -> sparse_from a false t = true.
Proof.
  cbn [sparse_from]. destruct (is_line_terminator c); [auto|].
  destruct (is_char a c); [|auto].
  cbn [negb andb]. apply sparse_seen.
Qed.

Lemma sparse_second a r :
  is_line_terminator a = false ->
  forall m, forallb class_dot m = true -> sparse_from a true (m ++ a :: r) = false.
Proof.
  intros Ha. induction m as [|c m IH]; intros Hm.
  - cbn [app sparse_from]. rewrite Ha, is_char_refl. reflexivity.
  - simpl in Hm. apply andb_true_iff in Hm. destruct Hm as [Hc Hm].
    unfold class_dot in Hc. apply negb_true_iff in Hc.
    change ((c :: m) ++ a :: r) with (c :: m ++ a :: r).
    cbn [sparse_from]. rewrite Hc.
    destruct (is_char a c); [reflexivity | exact (IH Hm)].
Qed.

Lemma sparse_pair a m r :
  is_line_terminator a = false -> forallb class_dot m = true ->
  sparse_from a false (a :: m ++ a :: r) = false.
Proof.
  intros Ha Hm. cbn [sparse_from]. rewrite Ha, is_char_refl.
  rewrite (sparse_second a r Ha m Hm). reflexivity.
Qed.

Lemma reads_dot_plus ml g n x y :
  In y (rmatch ml (Group n (Plus g (CharSet class_dot))) x) ->
  exists m, rest x = m ++ rest y /\ forallb class_dot m = true.
Proof.
  intros H.
  destruct (rmatch_reads ml class_dot (Group n (Plus g (CharSet class_dot))) x y)
    as [m [[Hr _] Hm]]; [simpl; auto | exact H |].
  eauto.
Qed.

Lemma rmatch_lookahead_inv ml r x y :
  In y (rmatch ml (NegLookahead r) x) -> y = x.
Proof.
  change (rmatch ml (NegLookahead r) x) with
    (match rmatch ml r x with [] => [x] | _ :: _ => [] end).
  destruct (rmatch ml r x); [|intros []].
  intros [<-|[]]. reflexivity.
Qed.

Lemma code_re_inv p s y :
  In y (rmatch (multiline code_re) (pattern code_re) (start p s)) ->
  exists m, s = BACKTICK :: m ++ BACKTICK :: rest y /\ forallb class_dot m = true.
Proof.
  unfold code_re, pattern, multiline. intros Hy.
  apply rmatch_seq_inv in Hy. destruct Hy as [x1 [Hx1 Hy]].
  apply rmatch_charset_inv in Hx1. destruct Hx1 as [c [t [Hs [Hc ->]]]].
  change (rest (start p s)) with s in Hs. apply is_char_eq in Hc. subst c.
  apply rmatch_seq_inv in Hy. destruct Hy as [x2 [Hx2 Hy]].
  apply reads_dot_plus in Hx2. destruct Hx2 as [m [Hr Hm]]. cbn [rest] in Hr.
  apply rmatch_charset_inv in Hy. destruct Hy as [c [t' [Hr2 [Hc ->]]]].
  apply is_char_eq in Hc. subst c.
  exists m. rewrite Hs, Hr, Hr2. auto.
Qed.

Lemma italic_re_inv p s y :
  In y (rmatch (multiline italic_re) (pattern italic_re) (start p s)) ->
  exists m, s = STAR :: m ++ STAR :: rest y /\ forallb class_dot m = true.
Proof.
  unfold italic_re, pattern, multiline. intros Hy.
  apply rmatch_seq_inv in Hy. destruct Hy as [x1 [Hx1 Hy]].
  apply rmatch_charset_inv in Hx1. destruct Hx1 as [c [t [Hs [Hc ->]]]].
  change (rest (start p s)) with s in Hs. apply is_char_eq in Hc. subst c.
  apply rmatch_seq_inv in Hy. destruct Hy as [x2 [Hx2 Hy]].
  apply rmatch_lookahead_inv in Hx2. subst x2.
  apply rmatch_seq_inv in Hy. destruct Hy as [x3 [Hx3 Hy]].
  apply reads_dot_plus in Hx3. destruct Hx3 as [m [Hr Hm]]. cbn [rest] in Hr.
  apply rmatch_charset_inv in Hy. destruct Hy as [c [t' [Hr2 [Hc ->]]]].
  apply is_char_eq in Hc. subst c.
  exists m. rewrite Hs, Hr, Hr2. auto.
Qed.

Lemma sparse_code_fails p s :
  sparse_from BACKTICK false s = true ->
  rmatch (multiline code_re) (pattern code_re) (start p s) = [].
Proof.
  intros H.
  destruct (nil_or_in (rmatch (multiline code_re) (pattern code_re) (start p s)))
    as [E|[y Hy]]; [exact E|exfalso].
  apply code_re_inv in Hy. destruct Hy as [m [-> Hm]].
  rewrite sparse_pair in H by (reflexivity || exact Hm). discriminate.
Qed.

Lemma sparse_italic_fails p s :
  sparse_from STAR false s = true ->
  rmatch (multiline italic_re) (pattern italic_re) (start p s) = [].
Proof.
  intros H.
  destruct (nil_or_in (rmatch (multiline italic_re) (pattern italic_re) (start p s)))
    as [E|[y Hy]]; [exact E|exfalso].
  apply italic_re_inv in Hy. destruct Hy as [m [-> Hm]].
  rewrite sparse_pair in H by (reflexivity || exact Hm). discriminate.
Qed.

Lemma sparse_no_pair s :
  sparse_from STAR false s = true -> contains (str "**") s = false.
Proof.
  induction s as [|c t IH]; intros H; [reflexivity|].
  pose proof (sparse_tail STAR c t H) as Ht.
  change (str "**") with [STAR; STAR] in *.
  cbn [contains]. rewrite (IH Ht), orb_false_r.
  cbn [starts_with]. destruct (is_char STAR c) eqn:Ec; [|reflexivity].
  apply is_char_eq in Ec. subst c.
  destruct t as [|d t']; [reflexivity|].
  cbn [starts_with andb]. rewrite andb_true_r.
  destruct (is_char STAR d) eqn:Ed; [|reflexivity].
  apply is_char_eq in Ed. subst d.
  pose proof (sparse_pair STAR [] t' eq_refl eq_refl) as E.
  cbn [app] in E. congruence.
Qed.

(** X4.  Stars that white space follows never open emphasis: a text
    without bullet line, backtick and literal list item whose every star
    is followed by white space, or ends the text, is returned unchanged,
    however many stars it holds. *)
Theorem spaced_stars_stay_literal (text : jsstring) :
  has_bullet_line None text = false ->
  contains (str "<li>") text = false ->
  has_char BACKTICK text = false ->
  spaced_stars text = true ->
  renderMarkdown text = text.
Proof.
  intros Hb Hli Hq Hs. unfold renderMarkdown. cbv zeta.
  rewrite (bullets_idle text Hb), (grouping_idle text Hli).
  rewrite (bold_idle text (spaced_stars_no_pair text Hs)).
  rewrite (replace_no_match italic_re (fun _ s => spaced_stars s = true)).
  - apply code_idle. exact Hq.
  - intros _ c t H. exact (spaced_stars_tail c t H).
  - apply spaced_stars_italic.
  - exact Hs.
Qed.

Lemma spaced_stars_stay_literal_witness :
  renderMarkdown (str "area = 2 * 3 * 4") = str "area = 2 * 3 * 4".
Proof. apply spaced_stars_stay_literal; reflexivity. Defined.

(** X5.  Inline markup does not reach over a line break: a text without
    bullet line and literal list item in which no line holds two stars
    and no line holds two backticks is returned unchanged. *)
Theorem delimiters_pair_within_a_line (text : jsstring) :
  has_bullet_line None text = false ->
  contains (str "<li>") text = false ->
  one_per_line STAR text = true ->
  one_per_line BACKTICK text = true ->
  renderMarkdown text = text.
Proof.
  unfold one_per_line. intros Hb Hli Hs Hq. unfold renderMarkdown. cbv zeta.
  rewrite (bullets_idle text Hb), (grouping_idle text Hli).
  rewrite (bold_idle text (sparse_no_pair text Hs)).
  rewrite (replace_no_match italic_re (fun _ s => sparse_from STAR false s = true)).
  - apply (replace_no_match code_re
             (fun _ s => sparse_from BACKTICK false s = true)).
    + intros _ c t H. exact (sparse_tail _ c t H).
    + apply sparse_code_fails.
    + exact Hq.
  - intros _ c t H. exact (sparse_tail _ c t H).
  - apply sparse_italic_fails.
  - exact Hs.
Qed.

Lemma delimiters_pair_within_a_line_witness :
  renderMarkdown (str "a *b" ++ LF :: str "c* and `d" ++ LF :: str "e`") =
  str "a *b" ++ LF :: str "c* and `d" ++ LF :: str "e`".
Proof. apply delimiters_pair_within_a_line; reflexivity. Defined.

(** ** A bold span before an italic span *)

(** X6.  A bold span and an italic span behind it in one text are
    rendered apart: the bold stage takes the pair of double stars and
    leaves the single stars to the italic stage.  Each span is not
    empty and on one line, the italic one with no white space behind
    its opening star; the texts inside the spans, before, between and
    behind them hold no star and no backtick, and the whole text has no
    bullet line and no literal list item. *)
Theorem bold_then_italic_rendered (pre b mid i post : jsstring) :
  has_bullet_line None
    (pre ++ str "**" ++ b ++ str "**" ++ mid ++ STAR :: i ++ STAR :: post) = false ->
  contains (str "<li>")
    (pre ++ str "**" ++ b ++ str "**" ++ mid ++ STAR :: i ++ STAR :: post) = false ->
  forallb unmarked [pre; b; mid; i; post] = true ->
  b <> [] -> forallb class_dot b = true ->
  starts_text i = true -> forallb class_dot i = true ->
  renderMarkdown
    (pre ++ str "**" ++ b ++ str "**" ++ mid ++ STAR :: i ++ STAR :: post) =
  pre ++ str "<strong>" ++ b ++ str "</strong>" ++ mid ++
  str "<em>" ++ i ++ str "</em>" ++ post.
Proof.
  intros Hb Hli Hun Hbne Hbdot Hi Hidot.
  cbn [forallb] in Hun.
  repeat (apply andb_true_iff in Hun; destruct Hun as [?H Hun]).
  apply unmarked_inv in H, H0, H1, H2, H3.
  destruct H as [Hpre1 Hpre2], H0 as [Hb1 Hb2], H1 as [Hmid1 Hmid2],
    H2 as [Hi1 Hi2], H3 as [Hpost1 Hpost2].
  assert (Hine : i <> []) by (destruct i; [discriminate Hi | discriminate]).
  set (text := pre ++ str "**" ++ b ++ str "**" ++ mid ++ STAR :: i ++ STAR :: post)
    in *.
  unfold renderMarkdown. cbv zeta.
  rewrite (bullets_idle text Hb), (grouping_idle text Hli).
  unfold text.
  rewrite (replace_span_then bold_re STAR
             (fun _ s => contains (str "**") s = false)
             (wrap_tmpl "strong") pre _ (str "**" ++ b ++ str "**")
             (mid ++ STAR :: i ++ STAR :: post)
             (MState (Some STAR) (mid ++ STAR :: i ++ STAR :: post) [(1, b)])).
  - rewrite (expand_tag "strong" (str "<strong>") (str "</strong>") b)
      by reflexivity.
    replace (pre ++ (str "<strong>" ++ b ++ str "</strong>") ++
             mid ++ STAR :: i ++ STAR :: post)
      with ((pre ++ str "<strong>" ++ b ++ str "</strong>" ++ mid) ++
            STAR :: i ++ STAR :: post)
      by (rewrite <- !app_assoc; reflexivity).
    set (pre2 := pre ++ str "<strong>" ++ b ++ str "</strong>" ++ mid).
    assert (Hp2 : has_char STAR pre2 = false).
    { unfold pre2. rewrite !has_char_app, Hpre1, Hb1, Hmid1. reflexivity. }
    rewrite (replace_one_span italic_re STAR italic_re_head
               (fun p => eq_refl) (wrap_tmpl "em") pre2 _
               (STAR :: i ++ [STAR]) post
               (MState (Some STAR) post [(1, i)])).
    + rewrite (expand_tag "em" (str "<em>") (str "</em>") i) by reflexivity.
      set (out := pre2 ++ (str "<em>" ++ i ++ str "</em>") ++ post).
      assert (Hq : has_char BACKTICK out = false).
      { unfold out, pre2.
        rewrite !has_char_app, Hpre2, Hb2, Hmid2, Hi2, Hpost2. reflexivity. }
      rewrite (code_idle out Hq).
      unfold out, pre2. rewrite <- !app_assoc. reflexivity.
    + cbn [app]. rewrite <- app_assoc. reflexivity.
    + exact Hp2.
    + exact Hpost1.
    + discriminate.
    + apply italic_span_first; assumption.
    + reflexivity.
  - apply bold_re_head.
  - intros _ c t Hc. exact (contains_tail _ _ _ Hc).
  - intros p s Hs. apply bold_re_pair. apply contains_head. exact Hs.
  - rewrite <- !app_assoc. reflexivity.
  - exact Hpre1.
  - cbn [prev]. apply single_stars_no_pair; assumption.
  - discriminate.
  - apply bold_span_first; assumption.
  - reflexivity.
Qed.

Lemma bold_then_italic_rendered_witness :
  renderMarkdown (str "a **fast** and *small* parser") =
  str "a <strong>fast</strong> and <em>small</em> parser".
Proof.
  apply (bold_then_italic_rendered (str "a ") (str "fast") (str " and ")
           (str "small") (str " parser"));
    (reflexivity || discriminate).
Defined.

(** ** Bullet lines with any marker, indentation and line terminator *)

Lemma bullet_ok_inv b :
  bullet_ok b = true ->
  forallb class_s (indent b) = true /\ class_bullet (marker b) = true /\
  (exists w ws, gap b = w :: ws /\ class_s w = true /\ forallb class_s ws = true) /\
  plain_item (item_text b) = true.
Proof.
  unfold bullet_ok. intros H.
  apply andb_true_iff in H. destruct H as [H H5].
  apply andb_true_iff in H. destruct H as [H H4].
  apply andb_true_iff in H. destruct H as [H H3].
  apply andb_true_iff in H. destruct H as [H1 H2].
  repeat split; auto.
  destruct (gap b) as [|w ws]; [discriminate|].
  simpl in H4. apply andb_true_iff in H4. destruct H4. exists w, ws. auto.
Qed.

(** The first match of the bullet expression at the start of a bullet
    line reads the whole line and records its text. *)
Lemma bullet_src_first p b tail :
  line_start p = true ->
  bullet_ok b = true -> stops class_dot tail = true ->
  exists pv,
    first_match true (pattern bullet_re) (start p (bullet_src b ++ tail))
      (MState (last_of (item_text b) pv) tail [(1, item_text b)]).
Proof.
  intros Hp Hb Htail.
  destruct (bullet_ok_inv b Hb) as [Hin [Hm [[w [ws [Eg [Hw Hws]]]] Ht]]].
  destruct (plain_item_inv _ Ht) as [c [t' [Et [Hc Hpl]]]].
  pose proof (plain_char_dot _ Hpl) as Hdot. rewrite Et in Hdot.
  simpl in Hdot. apply andb_true_iff in Hdot. destruct Hdot as [Hdc Hdt].
  exists (last_of ws (Some w)).
  unfold bullet_src. rewrite Eg, Et.
  replace ((indent b ++ marker b :: (w :: ws) ++ c :: t') ++ tail)
    with (indent b ++ marker b :: w :: ws ++ c :: t' ++ tail)
    by (rewrite <- !app_assoc; cbn [app]; rewrite <- !app_assoc; reflexivity).
  unfold bullet_re, pattern, start.
  eapply first_seq.
  { apply first_line_start. unfold at_line_start. cbn [prev].
    destruct p; [exact Hp | reflexivity]. }
  eapply first_seq.
  { apply first_greedy_star; [exact Hin|].
    cbn [stops]. rewrite (class_bullet_not_space _ Hm). reflexivity. }
  eapply first_seq.
  { apply first_charset. exact Hm. }
  eapply first_seq.
  { unfold Plus. eapply first_seq.
    - apply first_charset. exact Hw.
    - apply first_greedy_star; [exact Hws|].
      cbn [stops]. rewrite Hc. reflexivity. }
  apply first_seq
    with (z := MState (last_of (c :: t') (last_of ws (Some w))) tail [(1, c :: t')]).
  - replace (MState (last_of (c :: t') (last_of ws (Some w))) tail [(1, c :: t')])
      with (set_cap 1 (MState (last_of ws (Some w)) ((c :: t') ++ tail) [])
              (MState (last_of (c :: t') (last_of ws (Some w))) tail [])).
    2:{ unfold set_cap. cbn [prev rest caps]. rewrite consumed_app. reflexivity. }
    apply first_group. unfold Plus.
    eapply first_seq.
    + apply first_charset. exact Hdc.
    + apply (first_greedy_star true class_dot t' tail (Some c) []); assumption.
  - apply first_line_end. unfold at_line_end. cbn [rest].
    destruct tail as [|d tail']; [reflexivity|].
    simpl in Htail. unfold class_dot in Htail.
    rewrite negb_involutive in Htail. rewrite Htail. reflexivity.
Qed.

Lemma app_cons_assoc {A : Type} (l : list A) a m r :
  (l ++ a :: m) ++ r = l ++ a :: m ++ r.
Proof. rewrite <- app_assoc. reflexivity. Qed.

Lemma bullet_src_nonempty b : bullet_src b <> [].
Proof. unfold bullet_src. destruct (indent b); discriminate. Qed.

Lemma after_terminator_inv {A : Type} (ok : A -> bool) sep (a : A) ls :
  forallb (after_terminator ok) ((sep, a) :: ls) = true ->
  is_line_terminator sep = true /\ ok a = true /\
  forallb (after_terminator ok) ls = true.
Proof.
  cbn [forallb]. unfold after_terminator at 1. cbn [fst snd]. intros H.
  apply andb_true_iff in H. destruct H as [H Hls].
  apply andb_true_iff in H. tauto.
Qed.

(** The lines behind a line let the line end. *)
Lemma join_after_stops {A : Type} (ok : A -> bool) (f : A -> jsstring) ls :
  forallb (after_terminator ok) ls = true ->
  stops class_dot (join_after (map_lines f ls)) = true.
Proof.
  destruct ls as [|[sep a] ls]; [reflexivity|]. intros H.
  apply after_terminator_inv in H. destruct H as [Hs _].
  cbn [map_lines map join_after fst snd stops]. unfold class_dot.
  rewrite Hs. reflexivity.
Qed.

Lemma bullet_text_last b pv :
  bullet_ok b = true ->
  exists d, last_of (item_text b) pv = Some d /\ is_line_terminator d = false.
Proof.
  intros Hb. destruct (bullet_ok_inv b Hb) as [_ [_ [_ Ht]]].
  destruct (plain_item_inv _ Ht) as [c [t' [Et [_ Hpl]]]].
  apply last_of_plain; [rewrite Et; discriminate | exact Hpl].
Qed.

(** The scan behind a bullet line: each line terminator is copied, each
    bullet line behind it is one match. *)
Lemma scan_after_bullets :
  forall more d,
    is_line_terminator d = false ->
    forallb (after_terminator bullet_ok) more = true ->
    flat_map (expand (wrap_tmpl "li"))
      (scan bullet_re 0 (Some d) (join_after (map_lines bullet_src more))) =
    join_after (map_lines (fun b => list_item (item_text b)) more).
Proof.
  induction more as [|[sep b] more IH]; intros d Hd Hall.
  - cbn [map_lines map join_after]. rewrite scan_miss by apply bullet_re_at_end.
    reflexivity.
  - apply after_terminator_inv in Hall. destruct Hall as [Hsep [Hb Hall]].
    cbn [map_lines map join_after fst snd].
    fold (map_lines bullet_src more).
    fold (map_lines (fun b => list_item (item_text b)) more).
    rewrite scan_miss by (apply bullet_re_mid_line; exact Hd).
    cbn [scan_copy flat_map expand app].
    destruct (bullet_src_first (Some sep) b (join_after (map_lines bullet_src more))
                Hsep Hb (join_after_stops bullet_ok bullet_src more Hall))
      as [pv H].
    destruct (bullet_text_last b pv Hb) as [d' [Hd' Hlt]].
    rewrite (scan_first bullet_re (Some sep) _ _ (bullet_src b) H);
      [|reflexivity | apply bullet_src_nonempty].
    cbn [flat_map prev rest caps]. rewrite expand_li, Hd'.
    rewrite (IH d' Hlt Hall). reflexivity.
Qed.

Lemma bullets_stage_lines b more :
  bullet_ok b = true -> forallb (after_terminator bullet_ok) more = true ->
  replace bullet_re (wrap_tmpl "li")
    (bullet_src b ++ join_after (map_lines bullet_src more)) =
  list_item (item_text b) ++
  join_after (map_lines (fun b => list_item (item_text b)) more).
Proof.
  intros Hb Hall. unfold replace.
  destruct (bullet_src_first None b (join_after (map_lines bullet_src more))
              eq_refl Hb (join_after_stops bullet_ok bullet_src more Hall))
    as [pv H].
  destruct (bullet_text_last b pv Hb) as [d [Hd Hlt]].
  rewrite (scan_first bullet_re None _ _ (bullet_src b) H);
    [|reflexivity | apply bullet_src_nonempty].
  cbn [flat_map prev rest caps]. rewrite expand_li, Hd.
  rewrite (scan_after_bullets more d Hlt Hall). reflexivity.
Qed.

(** *** The grouping stage on the list items *)

Lemma list_item_re_miss pv r cs :
  starts_with (str "<li>") r = false ->
  rmatch false list_item_re (MState pv r cs) = [].
Proof.
  intros H. unfold list_item_re. rewrite rmatch_seq_eq.
  rewrite rmatch_lit_miss by exact H. reflexivity.
Qed.

Lemma list_re_head_fails p s :
  starts_with (str "<li>") s = false ->
  rmatch (multiline list_re) (pattern list_re) (start p s) = [].
Proof.
  intros H. unfold list_re, pattern, multiline.
  assert (E : rmatch false list_item_re (start p s) = [])
    by (apply list_item_re_miss; exact H).
  cbn [rmatch]. unfold Plus. rewrite rmatch_seq_eq, E. reflexivity.
Qed.

Lemma bullet_ok_chars b : bullet_ok b = true -> forallb plain_char (item_text b) = true.
Proof.
  intros Hb. destruct (bullet_ok_inv b Hb) as [_ [_ [_ Ht]]].
  apply plain_item_chars. exact Ht.
Qed.

Lemma line_terminator_space c : is_line_terminator c = true -> class_s c = true.
Proof. intros H. unfold class_s. rewrite H. apply orb_true_r. Qed.

(** The list items of the lines are read by one match, up to a text
    that is no list item. *)
Lemma item_lines_first r :
  stops class_s r = true -> starts_with (str "<li>") r = false ->
  forall more b pv cs,
    bullet_ok b = true -> forallb (after_terminator bullet_ok) more = true ->
    exists pv',
      first_match false (Plus true list_item_re)
        (MState pv (item_lines b more ++ r) cs) (MState pv' r cs).
Proof.
  intros Hstop Hmiss. unfold item_lines.
  induction more as [|[sep b2] more IH]; intros b pv cs Hb Hall.
  - cbn [map_lines map join_after]. rewrite app_nil_r.
    destruct (list_item_first (item_text b) [] r pv cs (bullet_ok_chars b Hb)
                eq_refl Hstop) as [pv' H].
    cbn [app] in H.
    exists pv'. unfold Plus. eapply first_seq; [exact H|].
    apply first_star_stop; [apply list_item_advances|].
    apply list_item_re_miss. exact Hmiss.
  - apply after_terminator_inv in Hall. destruct Hall as [Hsep [Hb2 Hall]].
    cbn [map_lines map join_after fst snd].
    fold (map_lines (fun b => list_item (item_text b)) more).
    destruct (list_item_first (item_text b) [sep]
                ((list_item (item_text b2) ++
                  join_after (map_lines (fun b => list_item (item_text b)) more)) ++ r)
                pv cs (bullet_ok_chars b Hb)) as [pv1 H].
    { cbn [forallb]. rewrite (line_terminator_space sep Hsep). reflexivity. }
    { reflexivity. }
    destruct (IH b2 pv1 cs Hb2 Hall) as [pv2 H2].
    exists pv2. unfold Plus.
    replace ((list_item (item_text b) ++
              sep :: list_item (item_text b2) ++
              join_after (map_lines (fun b => list_item (item_text b)) more)) ++ r)
      with (list_item (item_text b) ++ [sep] ++
            (list_item (item_text b2) ++
             join_after (map_lines (fun b => list_item (item_text b)) more)) ++ r)
      by (rewrite app_cons_assoc; reflexivity).
    eapply first_seq; [exact H|].
    apply first_plus_star; [apply list_item_advances | exact H2].
Qed.

Lemma item_lines_nonempty b more : item_lines b more <> [].
Proof. unfold item_lines, list_item. discriminate. Qed.

Lemma grouping_stage_lines b more :
  bullet_ok b = true -> forallb (after_terminator bullet_ok) more = true ->
  replace list_re (wrap_tmpl "ul") (item_lines b more) =
  str "<ul>" ++ item_lines b more ++ str "</ul>".
Proof.
  intros Hb Hall.
  destruct (item_lines_first [] eq_refl eq_refl more b None [] Hb Hall) as [pv' H].
  rewrite app_nil_r in H.
  set (S := item_lines b more) in *.
  unfold replace.
  rewrite (scan_first list_re None S (MState pv' [] [(1, S)]) S).
  - cbn [prev rest caps flat_map].
    rewrite scan_miss by (apply list_re_fails; reflexivity).
    cbn [scan_copy flat_map]. unfold expand. rewrite expand_wrap, !app_nil_r.
    reflexivity.
  - unfold list_re, pattern, multiline.
    replace (MState pv' [] [(1, S)])
      with (set_cap 1 (start None S) (MState pv' [] [])).
    + apply first_group. exact H.
    + unfold set_cap, start. cbn [prev rest caps].
      rewrite <- (app_nil_r S) at 1. rewrite consumed_app. reflexivity.
  - cbn [rest]. symmetry. apply app_nil_r.
  - apply item_lines_nonempty.
Qed.

(** *** The inline stages leave the list as it is *)

Lemma item_lines_no_char a b more :
  (forall c, plain_char c = true -> is_char a c = false) ->
  has_char a (str "<li>") = false -> has_char a (str "</li>") = false ->
  is_line_terminator a = false ->
  bullet_ok b = true -> forallb (after_terminator bullet_ok) more = true ->
  has_char a (item_lines b more) = false.
Proof.
  intros Ha H1 H2 H3. unfold item_lines.
  assert (Hi : forall b, bullet_ok b = true ->
                 has_char a (list_item (item_text b)) = false).
  { intros b0 Hb0. unfold list_item.
    rewrite !has_char_app, H1, H2, (plain_no_char a _ Ha (bullet_ok_chars b0 Hb0)).
    reflexivity. }
  intros Hb Hall. rewrite has_char_app, (Hi b Hb). cbn [orb].
  clear b Hb. induction more as [|[sep b2] more IH]; [reflexivity|].
  apply after_terminator_inv in Hall. destruct Hall as [Hsep [Hb2 Hall]].
  cbn [map_lines map join_after fst snd].
  fold (map_lines (fun b => list_item (item_text b)) more).
  change (sep :: list_item (item_text b2) ++
          join_after (map_lines (fun b => list_item (item_text b)) more))
    with ([sep] ++ list_item (item_text b2) ++
          join_after (map_lines (fun b => list_item (item_text b)) more)).
  rewrite !has_char_app, (Hi b2 Hb2), (IH Hall).
  unfold has_char. cbn [existsb].
  destruct (is_char a sep) eqn:E; [|reflexivity].
  unfold is_char in E. apply N.eqb_eq in E. subst sep. congruence.
Qed.

Lemma wrapped_inline_idle (s : jsstring) :
  has_char STAR s = false -> has_char BACKTICK s = false ->
  replace code_re (wrap_tmpl "code")
    (replace italic_re (wrap_tmpl "em")
       (replace bold_re (wrap_tmpl "strong") s)) = s.
Proof.
  intros Hstar Htick.
  rewrite bold_idle by (apply (no_char_no_contains STAR [STAR]); exact Hstar).
  rewrite (italic_idle s Hstar). apply code_idle. exact Htick.
Qed.



(** ** Rendering a rendered list *)

(** A line that opens with a tag is no bullet line. *)
Lemma tag_line_no_bullet l r p :
  forallb class_dot l = true ->
  has_bullet_line p (LT :: l ++ r) = has_bullet_line (Some LT) r.
Proof.
  intros Hl. rewrite has_bullet_line_eq.
  replace (bullet_at (LT :: l ++ r)) with false by reflexivity.
  rewrite andb_false_r. cbn [orb].
  apply (bullet_line_inside r l (Some LT) Hl eq_refl).
Qed.

Lemma list_item_dot t :
  forallb plain_char t = true -> forallb class_dot (list_item t) = true.
Proof.
  intros H. unfold list_item. rewrite !forallb_app, (plain_char_dot t H).
  reflexivity.
Qed.

Lemma list_item_tag b :
  bullet_ok b = true ->
  exists l, list_item (item_text b) = LT :: l /\ forallb class_dot l = true.
Proof.
  intros Hb. pose proof (list_item_dot _ (bullet_ok_chars b Hb)) as H.
  unfold list_item in *. eexists. split; [reflexivity|].
  simpl in H. exact H.
Qed.

Lemma item_lines_no_bullet_line suffix :
  forallb class_dot suffix = true ->
  forall more b p,
    bullet_ok b = true -> forallb (after_terminator bullet_ok) more = true ->
    has_bullet_line p (item_lines b more ++ suffix) = false.
Proof.
  intros Hs. unfold item_lines.
  induction more as [|[sep b2] more IH]; intros b p Hb Hall;
    destruct (list_item_tag b Hb) as [l [El Hl]]; rewrite El.
  - cbn [map_lines map join_after]. rewrite app_nil_r.
    change ((LT :: l) ++ suffix) with (LT :: l ++ suffix).
    rewrite tag_line_no_bullet by exact Hl.
    rewrite <- (app_nil_r suffix).
    rewrite (bullet_line_inside [] suffix (Some LT) Hs eq_refl). reflexivity.
  - apply after_terminator_inv in Hall. destruct Hall as [Hsep [Hb2 Hall]].
    cbn [map_lines map join_after fst snd].
    fold (map_lines (fun b => list_item (item_text b)) more).
    replace (((LT :: l) ++ sep :: list_item (item_text b2) ++
              join_after (map_lines (fun b => list_item (item_text b)) more)) ++
             suffix)
      with (LT :: l ++ sep :: (list_item (item_text b2) ++
              join_after (map_lines (fun b => list_item (item_text b)) more)) ++
              suffix)
      by (rewrite app_cons_assoc; reflexivity).
    rewrite tag_line_no_bullet by exact Hl.
    rewrite has_bullet_line_eq. cbn [line_start].
    replace (is_line_terminator LT) with false by reflexivity. cbn [andb orb].
    apply IH; assumption.
Qed.

Lemma grouping_of_a_list b more :
  bullet_ok b = true -> forallb (after_terminator bullet_ok) more = true ->
  replace list_re (wrap_tmpl "ul") (str "<ul>" ++ item_lines b more ++ str "</ul>") =
  str "<ul>" ++ (str "<ul>" ++ item_lines b more ++ str "</ul>") ++ str "</ul>".
Proof.
  intros Hb Hall.
  destruct (item_lines_first (str "</ul>") eq_refl eq_refl more b (Some GT) []
              Hb Hall) as [pv' H].
  set (S := item_lines b more) in *.
  unfold replace.
  set (rhs := str "<ul>" ++ (str "<ul>" ++ S ++ str "</ul>") ++ str "</ul>").
  change (str "<ul>" ++ S ++ str "</ul>")
    with (LT :: 117%N :: 108%N :: GT :: S ++ str "</ul>").
  rewrite scan_miss by (apply list_re_head_fails; reflexivity).
  cbn [scan_copy].
  rewrite scan_miss by (apply list_re_head_fails; reflexivity).
  cbn [scan_copy].
  rewrite scan_miss by (apply list_re_head_fails; reflexivity).
  cbn [scan_copy].
  rewrite scan_miss by (apply list_re_head_fails; reflexivity).
  cbn [scan_copy].
  rewrite (scan_first list_re (Some GT) (S ++ str "</ul>")
             (MState pv' (str "</ul>") [(1, S)]) S).
  - cbn [prev rest caps flat_map expand].
    rewrite (scan_no_match list_re (fun _ s => contains (str "<li>") s = false)).
    + rewrite expand_copied, expand_wrap. cbn [get_cap Nat.eqb].
      unfold rhs. rewrite <- !app_assoc. reflexivity.
    + intros _ c t Hc. exact (contains_tail _ _ _ Hc).
    + apply list_re_fails.
    + reflexivity.
  - unfold list_re, pattern, multiline.
    replace (MState pv' (str "</ul>") [(1, S)])
      with (set_cap 1 (start (Some GT) (S ++ str "</ul>"))
              (MState pv' (str "</ul>") [])).
    + apply first_group. exact H.
    + unfold set_cap, start. cbn [prev rest caps].
      rewrite consumed_app. reflexivity.
  - reflexivity.
  - apply item_lines_nonempty.
Qed.

Lemma rendered_list_rendered_again b more :
  bullet_ok b = true -> forallb (after_terminator bullet_ok) more = true ->
  renderMarkdown (str "<ul>" ++ item_lines b more ++ str "</ul>") =
  str "<ul><ul>" ++ item_lines b more ++ str "</ul></ul>".
Proof.
  intros Hb Hall. unfold renderMarkdown. cbv zeta.
  rewrite bullets_idle.
  2:{ change (str "<ul>" ++ item_lines b more ++ str "</ul>")
        with (LT :: str "ul>" ++ item_lines b more ++ str "</ul>").
      rewrite tag_line_no_bullet by reflexivity.
      apply item_lines_no_bullet_line; [reflexivity | exact Hb | exact Hall]. }
  rewrite (grouping_of_a_list b more Hb Hall).
  rewrite wrapped_inline_idle.
  - rewrite <- !app_assoc. reflexivity.
  - rewrite !has_char_app.
    rewrite (item_lines_no_char STAR b more plain_char_not_star) by (auto; reflexivity).
    reflexivity.
  - rewrite !has_char_app.
    rewrite (item_lines_no_char BACKTICK b more plain_char_not_backtick)
      by (auto; reflexivity).
    reflexivity.
Qed.

(** X8.  The renderer is not idempotent: rendering the rendered form of
    bullet lines again wraps the list container in a second one. *)
Theorem rendering_twice_nests_the_list (b : bullet) (more : list (char * bullet)) :
  bullet_ok b = true -> forallb (after_terminator bullet_ok) more = true ->
  renderMarkdown
    (renderMarkdown (bullet_src b ++ join_after (map_lines bullet_src more))) =
  str "<ul><ul>" ++ list_item (item_text b) ++
  join_after (map_lines (fun b => list_item (item_text b)) more) ++
  str "</ul></ul>".
Proof.
  intros Hb Hall.
  assert (E : renderMarkdown (bullet_src b ++ join_after (map_lines bullet_src more)) =
              str "<ul>" ++ item_lines b more ++ str "</ul>").
  { unfold renderMarkdown. cbv zeta.
    rewrite (bullets_stage_lines b more Hb Hall).
    fold (item_lines b more).
    rewrite (grouping_stage_lines b more Hb Hall).
    apply wrapped_inline_idle; rewrite !has_char_app.
    - rewrite (item_lines_no_char STAR b more plain_char_not_star)
        by (auto; reflexivity).
      reflexivity.
    - rewrite (item_lines_no_char BACKTICK b more plain_char_not_backtick)
        by (auto; reflexivity).
      reflexivity. }
  rewrite E, (rendered_list_rendered_again b more Hb Hall).
  unfold item_lines. rewrite <- app_assoc. reflexivity.
Qed.

Lemma rendering_twice_nests_the_list_witness :
  renderMarkdown (renderMarkdown (str "- one" ++ LF :: str "- two")) =
  str "<ul><ul><li>one</li>" ++ LF :: str "<li>two</li></ul></ul>".
Proof.
  apply (rendering_twice_nests_the_list
           (MkBullet [] DASH (str " ") (str "one"))
           [(LF, MkBullet [] DASH (str " ") (str "two"))]);
    reflexivity.
Defined.

(** ** The title of the dialog *)

Lemma title_char_clean a :
  (a = DASH \/ a = UNDERSCORE) -> forall s, has_char a (map title_char s) = false.
Proof.
  intros Ha. induction s as [|c s IH]; [reflexivity|].
  unfold has_char in *. cbn [map existsb]. rewrite IH, orb_false_r.
  unfold title_char.
  destruct (is_char DASH c || is_char UNDERSCORE c) eqn:E.
  - destruct Ha as [-> | ->]; reflexivity.
  - apply orb_false_iff in E. destruct E as [E1 E2].
    destruct Ha as [-> | ->]; assumption.
Qed.

(** X9.  The title of the dialog is the name of the repository with
    every dash and every underscore replaced by a space: it has the length
    of the name, no dash and no underscore are left, and every other code
    unit is kept in its place. *)
Theorem modal_title_spaces_out_dashes (model : option jsstring) (r : Repo) :
  exists d,
    content (fst (RepoModal model (Some r))) = Some d /\
    title d = map title_char (name r) /\
    length (title d) = length (name r) /\
    has_char DASH (title d) = false /\
    has_char UNDERSCORE (title d) = false.
Proof.
  pose proof (RepoModal_title model r) as H.
  destruct (content (fst (RepoModal model (Some r)))) as [d|]; [|discriminate H].
  simpl in H. injection H as H. exists d. rewrite H.
  split; [reflexivity|]. split; [reflexivity|].
  split; [apply length_map|].
  split; apply title_char_clean; auto.
Qed.

(** ** The lock on the scrolling of the page *)

Lemma rerender_invariant body_overflow seen cur b changed repo :
  lock_invariant body_overflow seen cur b ->
  (changed = false -> repo = cur) ->
  lock_invariant body_overflow (seen || is_some cur) repo (rerender changed repo b).
Proof.
  intros Hinv Hc. unfold rerender. destruct changed.
  - destruct repo as [r|]; [split; reflexivity|].
    unfold lock_invariant in *. destruct cur as [c|].
    + destruct Hinv as [Hp _]. unfold run_cleanup. rewrite Hp.
      rewrite orb_true_r. split; reflexivity.
    + destruct Hinv as [Hp Ho]. unfold run_cleanup. rewrite Hp.
      rewrite orb_false_r. split; [reflexivity | exact Ho].
  - rewrite (Hc eq_refl). unfold lock_invariant in *.
    destruct cur as [c|]; [exact Hinv|]. rewrite orb_false_r. exact Hinv.
Qed.

Lemma last_cons {A : Type} (l : list A) :
  forall a d, last (a :: l) d = last l a.
Proof.
  induction l as [|b l IH]; intros a d; [reflexivity|].
  change (last (a :: b :: l) d) with (last (b :: l) d).
  rewrite (IH b d), (IH b a). reflexivity.
Qed.

Lemma rerenders_invariant body_overflow :
  forall rs seen cur b,
    lock_invariant body_overflow seen cur b -> consistent cur rs ->
    lock_invariant body_overflow
      (seen || existsb is_some (removelast (cur :: map snd rs)))
      (last (map snd rs) cur) (rerenders rs b).
Proof.
  induction rs as [|[changed repo] rs IH]; intros seen cur b Hinv Hcons.
  - cbn [map removelast existsb last rerenders]. rewrite orb_false_r. exact Hinv.
  - destruct Hcons as [Hc Hcons].
    pose proof (rerender_invariant _ _ _ _ changed repo Hinv Hc) as Hstep.
    specialize (IH _ _ _ Hstep Hcons).
    cbn [map snd rerenders].
    replace (last (repo :: map snd rs) cur) with (last (map snd rs) repo)
      by (symmetry; apply last_cons).
    replace (seen || existsb is_some (removelast (cur :: repo :: map snd rs)))
      with (seen || is_some cur || existsb is_some (removelast (repo :: map snd rs)))
      by (cbn [removelast existsb]; rewrite orb_assoc; reflexivity).
    exact IH.
Qed.

(** X10.  The effect of RepoModal holds the scrolling of the page locked
    exactly while a repository is shown: after any renders, the overflow
    of the body is [hidden] when the last render has a repository;
    without one, and after the dialog is removed, it is empty when some
    render had a repository (the value the page had before is not put
    back), and untouched when none had. *)
Theorem scroll_lock_follows_the_dialog
    (first : option Repo) (rs : list (bool * option Repo)) (body_overflow : jsstring) :
  consistent first rs ->
  (match shown_last first rs with
   | Some _ => overflow (rerenders rs (mount first body_overflow)) = str "hidden"
   | None =>
       overflow (rerenders rs (mount first body_overflow)) =
       if existsb is_some (first :: map snd rs) then [] else body_overflow
   end) /\
  overflow (unmount (rerenders rs (mount first body_overflow))) =
  if existsb is_some (first :: map snd rs) then [] else body_overflow.
Proof.
  intros Hcons.
  assert (H0 : lock_invariant body_overflow false first (mount first body_overflow)).
  { unfold mount. destruct first; split; reflexivity. }
  pose proof (rerenders_invariant body_overflow rs false first _ H0 Hcons) as H.
  cbn [orb] in H. unfold shown_last.
  set (b := rerenders rs (mount first body_overflow)) in *.
  assert (E : existsb is_some (first :: map snd rs) =
              existsb is_some (removelast (first :: map snd rs)) ||
              is_some (last (map snd rs) first)).
  { clear. generalize (map snd rs). intros l. revert first.
    induction l as [|a l IH]; intros first.
    - cbn. rewrite orb_false_r. reflexivity.
    - change (existsb is_some (first :: a :: l))
        with (is_some first || existsb is_some (a :: l)).
      rewrite (IH a).
      change (removelast (first :: a :: l)) with (first :: removelast (a :: l)).
      cbn [existsb]. rewrite orb_assoc.
      rewrite (last_cons l a first).
      reflexivity. }
  rewrite E. unfold lock_invariant in H.
  destruct (last (map snd rs) first) as [r|].
  - destruct H as [Hp Ho]. split; [exact Ho|].
    unfold unmount, run_cleanup. rewrite Hp, orb_true_r. reflexivity.
  - destruct H as [Hp Ho]. cbn [is_some]. rewrite orb_false_r.
    split; [exact Ho|].
    unfold unmount, run_cleanup. rewrite Hp. exact Ho.
Qed.

Lemma scroll_lock_follows_the_dialog_witness :
  overflow
    (unmount
       (rerenders [(true, Some sample_repo); (false, Some sample_repo); (true, None)]
          (mount None (str "scroll")))) = [].
Proof.
  apply (proj2 (scroll_lock_follows_the_dialog None
                  [(true, Some sample_repo); (false, Some sample_repo); (true, None)]
                  (str "scroll")
                  (conj (fun H => match Bool.diff_true_false H with end)
                     (conj (fun _ => eq_refl)
                        (conj (fun H => match Bool.diff_true_false H with end) I))))).
Defined.

(** ** getBackendUrl *)

(** X11.  getBackendUrl.  On the server the address is never empty; in
    the browser it does not depend on BACKEND_URL, and it is empty, which
    makes the requests go to the same origin, exactly when
    NEXT_PUBLIC_BACKEND_URL is unset or empty; a variable set to the empty
    string counts as unset.  The address of app/page.tsx, read with [??],
    keeps a variable that is set, the empty string included. *)
Theorem backend_url_by_environment (env : environment) :
  truthy (getBackendUrl false env) = true /\
  (forall b, getBackendUrl true (MkEnv b (NEXT_PUBLIC_BACKEND_URL env)) =
             getBackendUrl true env) /\
  (forall w, getBackendUrl w (MkEnv (Some []) (NEXT_PUBLIC_BACKEND_URL env)) =
             getBackendUrl w (MkEnv None (NEXT_PUBLIC_BACKEND_URL env))) /\
  (forall w, getBackendUrl w (MkEnv (BACKEND_URL env) (Some [])) =
             getBackendUrl w (MkEnv (BACKEND_URL env) None)) /\
  (truthy (getBackendUrl true env) = false <->
   NEXT_PUBLIC_BACKEND_URL env = None \/ NEXT_PUBLIC_BACKEND_URL env = Some []) /\
  (forall v, AppPage.backend (Some v) = v).
Proof.
  destruct env as [b n]. unfold getBackendUrl, or_else. cbn [negb BACKEND_URL NEXT_PUBLIC_BACKEND_URL].
  split.
  { destruct b as [[|c s]|]; try reflexivity; destruct n as [[|d t]|]; reflexivity. }
  split; [reflexivity|].
  split; [intros []; reflexivity|].
  split; [intros []; reflexivity|].
  split; [|reflexivity].
  destruct n as [[|d t]|]; cbn [truthy]; split; auto; try discriminate.
  intros [H|H]; discriminate.
Qed.

(** ** The thesis page *)

Lemma filter_strings_total f l :
  forallb is_string l = true -> exists r, filter_strings f l = Normal r.
Proof.
  induction l as [|v l IH]; intros H; [eexists; reflexivity|].
  simpl in H. apply andb_true_iff in H. destruct H as [Hv Hl].
  destruct v; try discriminate. destruct (IH Hl) as [r Hr].
  cbn [filter_strings]. rewrite Hr. eexists. reflexivity.
Qed.

Lemma filter_strings_throws f l :
  forallb is_string l = false -> filter_strings f l = TypeError.
Proof.
  induction l as [|v l IH]; intros H; [discriminate|].
  simpl in H. destruct v; try reflexivity.
  cbn [is_string andb] in H. cbn [filter_strings]. rewrite (IH H). reflexivity.
Qed.

Lemma filter_strings_eq f l :
  filter_strings f (map JString l) = Normal (filter f l).
Proof.
  induction l as [|s l IH]; [reflexivity|].
  cbn [map filter_strings filter]. rewrite IH. reflexivity.
Qed.

Lemma and_element_normal (v : value) :
  exists s, and_element v (Normal v) = Normal s.
Proof. unfold and_element. destruct (ToBoolean v); eexists; reflexivity. Qed.

Lemma json_null_dec (v : json) : v = JNull \/ v <> JNull.
Proof. destruct v; (left; reflexivity) || (right; discriminate). Qed.

Lemma get_assets thesis :
  thesis <> JNull -> get (Some thesis) (str "assets") = Normal (assets_value thesis).
Proof. destruct thesis; try reflexivity. congruence. Qed.

Lemma get_not_null thesis key :
  thesis <> JNull -> exists v, get (Some thesis) key = Normal v.
Proof. destruct thesis; try (eexists; reflexivity). congruence. Qed.

(** X12.  When the request for the thesis fails, by a rejected fetch or
    an answer that is not OK, the thesis page is still rendered: its
    heading is the fallback title [Thesis], and it shows no abstract, no
    carousel and no PDF. *)
Theorem thesis_page_without_backend
    (toLowerCase : jsstring -> jsstring)
    (fetch : jsstring -> promise Response) (backend : jsstring) :
  request_fails fetch (backend ++ str "/api/thesis") ->
  ThesisPage_page toLowerCase fetch backend =
  Page (MkThesisView (Some (JString (str "Thesis"))) (Falsy None) None []).
Proof.
  unfold request_fails, ThesisPage_page, ThesisPage.fetchThesis. intros H.
  destruct (fetch (backend ++ str "/api/thesis")) as [res|e]; cbn [await].
  - rewrite H. reflexivity.
  - reflexivity.
Qed.

Lemma thesis_page_without_backend_witness :
  ThesisPage_page (fun s => s) (fun _ => Rejected NetworkError) [] =
  Page (MkThesisView (Some (JString (str "Thesis"))) (Falsy None) None []).
Proof. apply thesis_page_without_backend. exact I. Defined.

(** X13.  The thesis page reads the body without a check of its type.
    Rendering throws a TypeError exactly when the body is [null], or when
    its [assets] are present and are neither [null] nor an array of
    strings. *)
Theorem thesis_page_type_errors
    (toLowerCase : jsstring -> jsstring) (thesis : json) :
  ThesisPage_render toLowerCase thesis = TypeError <->
  thesis = JNull \/ strings_or_absent (assets_value thesis) = false.
Proof.
  destruct (json_null_dec thesis) as [->|Hn].
  { split; [left; reflexivity | reflexivity]. }
  unfold ThesisPage_render. rewrite (get_assets thesis Hn). cbn [bind_thrown].
  destruct (get_not_null thesis (str "title") Hn) as [t Ht].
  destruct (get_not_null thesis (str "abstract") Hn) as [a Ha].
  destruct (strings_or_absent (assets_value thesis)) eqn:E.
  - split; [|intros [H|H]; [congruence | discriminate]].
    intros H. exfalso. revert H.
    assert (Hl : exists l, array_or_empty (assets_value thesis) = Normal l /\
                   forallb is_string l = true).
    { destruct (assets_value thesis) as [[]|]; try discriminate;
        eexists; split; try reflexivity; exact E. }
    destruct Hl as [l [-> Hl]]. cbn [bind_thrown].
    destruct (filter_strings_total (is_image toLowerCase) l Hl) as [r1 ->].
    destruct (filter_strings_total (is_pdf toLowerCase) l Hl) as [r2 ->].
    cbn [bind_thrown]. rewrite Ht, Ha. cbn [bind_thrown].
    destruct (and_element_normal a) as [s ->]. discriminate.
  - split; [auto|]. intros _.
    destruct (assets_value thesis) as [[]|]; try discriminate; try reflexivity.
    cbn [array_or_empty bind_thrown]. cbn [strings_or_absent] in E.
    rewrite (filter_strings_throws _ _ E). reflexivity.
Qed.

(** *** split, pop and endsWith *)

Lemma split_nonempty sep s : split sep s <> [].
Proof.
  destruct s as [|c t]; cbn [split]; [discriminate|].
  destruct (is_char sep c); [discriminate|].
  destruct (split sep t); discriminate.
Qed.

Lemma split_app sep y :
  forall x, split sep (x ++ sep :: y) = split sep x ++ split sep y.
Proof.
  induction x as [|c x IH].
  - cbn [app split]. rewrite is_char_refl. reflexivity.
  - change ((c :: x) ++ sep :: y) with (c :: x ++ sep :: y).
    cbn [split]. rewrite IH.
    destruct (is_char sep c); [reflexivity|].
    pose proof (split_nonempty sep x) as Hx.
    destruct (split sep x) as [|piece pieces]; [congruence | reflexivity].
Qed.

Lemma pop_app {A : Type} (l2 : list A) :
  l2 <> [] -> forall l1, pop (l1 ++ l2) = pop l2.
Proof.
  intros Hne. induction l1 as [|a l1 IH]; [reflexivity|].
  change ((a :: l1) ++ l2) with (a :: l1 ++ l2). cbn [pop].
  destruct (l1 ++ l2) as [|b l] eqn:E; [|exact IH].
  destruct l1; [simpl in E; congruence | discriminate E].
Qed.

Lemma pop_map {A B : Type} (g : A -> B) :
  forall l, pop (map g l) = option_map g (pop l).
Proof.
  induction l as [|a l IH]; [reflexivity|].
  cbn [map pop]. destruct l as [|b l']; [reflexivity | exact IH].
Qed.

Lemma split_map f sep :
  (forall c, is_char sep (f c) = is_char sep c) ->
  forall s, split sep (map f s) = map (map f) (split sep s).
Proof.
  intros Hf. induction s as [|c t IH]; [reflexivity|].
  cbn [map split]. rewrite Hf, IH.
  destruct (is_char sep c); [reflexivity|].
  pose proof (split_nonempty sep t) as Ht.
  destruct (split sep t) as [|piece pieces]; [congruence | reflexivity].
Qed.

Lemma split_one sep :
  forall s, has_char sep s = false -> split sep s = [s].
Proof.
  induction s as [|c s IH]; intros H; [reflexivity|].
  apply has_char_head in H. destruct H as [Hc Hs].
  cbn [split]. rewrite Hc, (IH Hs). reflexivity.
Qed.

Lemma last_separator sep :
  forall s, has_char sep s = false \/
    exists x e, s = x ++ sep :: e /\ has_char sep e = false.
Proof.
  induction s as [|c t IH]; [left; reflexivity|].
  destruct IH as [Ht | [x [e [-> He]]]].
  - destruct (is_char sep c) eqn:Ec.
    + right. exists [], t. unfold is_char in Ec. apply N.eqb_eq in Ec.
      subst c. auto.
    + left. unfold has_char in *. cbn [existsb]. rewrite Ec, Ht. reflexivity.
  - right. exists (c :: x), e. auto.
Qed.

(** The piece behind the last separator is an end of the string. *)
Lemma pop_split_suffix sep s :
  exists x e, pop (split sep s) = Some e /\ s = x ++ e /\
    has_char sep e = false.
Proof.
  destruct (last_separator sep s) as [H | [x [e [-> He]]]].
  - exists [], s. rewrite (split_one sep s H). auto.
  - exists (x ++ [sep]), e.
    rewrite split_app, pop_app by apply split_nonempty.
    rewrite (split_one sep e He), <- app_assoc. auto.
Qed.

Lemma string_eqb_eq a : forall b, string_eqb a b = true -> a = b.
Proof.
  induction a as [|c a IH]; intros [|d b] H; try discriminate; [reflexivity|].
  cbn [string_eqb] in H. apply andb_true_iff in H. destruct H as [Hc H].
  apply N.eqb_eq in Hc. rewrite Hc, (IH b H). reflexivity.
Qed.

Lemma endsWith_inv s suffix :
  endsWith s suffix = true -> exists x, s = x ++ suffix.
Proof.
  unfold endsWith. intros H. apply andb_true_iff in H. destruct H as [_ H].
  apply string_eqb_eq in H.
  exists (firstn (length s - length suffix) s).
  rewrite <- H at 2. symmetry. apply firstn_skipn.
Qed.

Lemma ascii_lower_dot c : is_char DOT (ascii_lower c) = is_char DOT c.
Proof.
  unfold ascii_lower, is_char, DOT.
  destruct ((65 <=? c) && (c <=? 90))%N eqn:E; [|reflexivity].
  apply andb_true_iff in E. destruct E as [E1 E2].
  apply N.leb_le in E1, E2.
  destruct (N.eqb_spec (c + 32) 46), (N.eqb_spec c 46); try reflexivity; lia.
Qed.

Section ThesisAssets.

Variable toLowerCase : jsstring -> jsstring.

Lemma ascii_pdf_extension a :
  lowers_ascii toLowerCase -> forallb is_ascii a = true ->
  is_pdf toLowerCase a = true ->
  option_map toLowerCase (pop (split DOT a)) = Some (str "pdf").
Proof.
  intros Hlow Ha Hpdf. unfold is_pdf in Hpdf. rewrite (Hlow a Ha) in Hpdf.
  apply endsWith_inv in Hpdf. destruct Hpdf as [x Hx].
  destruct (pop_split_suffix DOT a) as [y [e [Hp [Hs _]]]].
  rewrite Hp. cbn [option_map].
  assert (He : forallb is_ascii e = true).
  { rewrite Hs, forallb_app in Ha. apply andb_true_iff in Ha. tauto. }
  rewrite (Hlow e He).
  assert (E : pop (split DOT (map ascii_lower a)) = Some (map ascii_lower e)).
  { rewrite (split_map ascii_lower DOT ascii_lower_dot), pop_map.
    change (Some (map ascii_lower e)) with (option_map (map ascii_lower) (Some e)).
    f_equal. exact Hp. }
  rewrite Hx in E.
  change (str ".pdf") with (DOT :: str "pdf") in E.
  rewrite split_app, pop_app in E by apply split_nonempty.
  rewrite (split_one DOT (str "pdf") eq_refl) in E. cbn [pop] in E.
  symmetry. exact E.
Qed.

Lemma pdf_is_no_image a :
  lowers_ascii toLowerCase -> forallb is_ascii a = true ->
  is_pdf toLowerCase a = true -> is_image toLowerCase a = false.
Proof.
  intros Hlow Ha Hpdf. unfold is_image. cbv zeta.
  rewrite (ascii_pdf_extension a Hlow Ha Hpdf). reflexivity.
Qed.

Lemma asset_url_same asset : asset_url asset = asset.
Proof. unfold asset_url. destruct (startsWith _ _); reflexivity. Qed.

(** The frames and images of a view rendered from assets that are
    strings. *)
Lemma render_with_strings thesis l view :
  assets_value thesis = Some (JArray (map JString l)) ->
  ThesisPage_render toLowerCase thesis = Normal view ->
  pdf_frames view =
    map (fun asset =>
           MkFrame (asset_url asset ++ str "#toolbar=0&navpanes=0&scrollbar=0")
             asset (asset_url asset))
      (filter (is_pdf toLowerCase) l) /\
  images_of view =
    map (fun asset => MkImg (asset_url asset) asset)
      (filter (is_image toLowerCase) l).
Proof.
  intros Ha Hr.
  assert (Hn : thesis <> JNull) by (intros ->; discriminate Ha).
  unfold ThesisPage_render in Hr. rewrite (get_assets thesis Hn), Ha in Hr.
  cbn [bind_thrown array_or_empty] in Hr. rewrite !filter_strings_eq in Hr.
  cbn [bind_thrown] in Hr.
  destruct (get_not_null thesis (str "title") Hn) as [t Ht].
  destruct (get_not_null thesis (str "abstract") Hn) as [a Hab].
  rewrite Ht, Hab in Hr. cbn [bind_thrown] in Hr.
  destruct (and_element_normal a) as [s Hs]. rewrite Hs in Hr.
  cbn [bind_thrown] in Hr. injection Hr as <-.
  unfold images_of. cbn [pdf_frames carousel].
  split; [reflexivity|].
  destruct (filter (is_image toLowerCase) l); reflexivity.
Qed.

End ThesisAssets.

(** X14.  The thesis page shows the assets as they are delivered, in the
    order of the assets: the download addresses and the titles of the
    PDFs are the assets that end in [.pdf], the sources and the
    alternative texts of the images are the assets with an image
    extension, and the source of the frame of a PDF is the asset with
    the fragment [#toolbar=0&navpanes=0&scrollbar=0] behind it.  The
    test of the prefix [http] changes nothing, so an address is never
    completed with the address of the backend. *)
Theorem thesis_assets_shown_as_delivered
    (toLowerCase : jsstring -> jsstring) (thesis : json) (l : list jsstring)
    (view : thesis_view) :
  assets_value thesis = Some (JArray (map JString l)) ->
  ThesisPage_render toLowerCase thesis = Normal view ->
  map download_href (pdf_frames view) = filter (is_pdf toLowerCase) l /\
  map iframe_title (pdf_frames view) = filter (is_pdf toLowerCase) l /\
  map iframe_src (pdf_frames view) =
    map (fun asset => asset ++ str "#toolbar=0&navpanes=0&scrollbar=0")
      (filter (is_pdf toLowerCase) l) /\
  map img_src (images_of view) = filter (is_image toLowerCase) l /\
  map img_alt (images_of view) = filter (is_image toLowerCase) l.
Proof.
  intros Ha Hr.
  destruct (render_with_strings toLowerCase thesis l view Ha Hr) as [-> ->].
  rewrite !map_map. cbn [download_href iframe_title iframe_src img_src img_alt].
  rewrite !(map_ext _ (fun x => x) asset_url_same), !map_id.
  repeat split; try reflexivity.
  apply map_ext. intros a. rewrite asset_url_same. reflexivity.
Qed.

(** X15.  With assets of ASCII code units, no asset shown as a PDF is
    shown in the carousel of images as well. *)
Theorem thesis_pdf_is_not_an_image
    (toLowerCase : jsstring -> jsstring) (thesis : json) (l : list jsstring)
    (view : thesis_view) :
  lowers_ascii toLowerCase ->
  forallb (forallb is_ascii) l = true ->
  assets_value thesis = Some (JArray (map JString l)) ->
  ThesisPage_render toLowerCase thesis = Normal view ->
  forall asset,
    In asset (map download_href (pdf_frames view)) ->
    ~ In asset (map img_src (images_of view)).
Proof.
  intros Hlow Hascii Ha Hr asset Hpdf Himg.
  destruct (render_with_strings toLowerCase thesis l view Ha Hr) as [E1 E2].
  rewrite E1 in Hpdf. rewrite E2 in Himg.
  rewrite map_map in Hpdf, Himg. cbn [download_href img_src] in Hpdf, Himg.
  rewrite (map_ext _ (fun x => x) asset_url_same), map_id in Hpdf, Himg.
  apply filter_In in Hpdf. destruct Hpdf as [Hin Hpdf].
  apply filter_In in Himg. destruct Himg as [_ Himg].
  rewrite forallb_forall in Hascii.
  rewrite (pdf_is_no_image toLowerCase asset Hlow (Hascii asset Hin) Hpdf) in Himg.
  discriminate.
Qed.

Lemma thesis_assets_shown_as_delivered_witness :
  ThesisPage_render (map ascii_lower) sample_thesis = Normal sample_thesis_view /\
  map download_href (pdf_frames sample_thesis_view) = [str "thesis.pdf"] /\
  map iframe_src (pdf_frames sample_thesis_view) =
    [str "thesis.pdf#toolbar=0&navpanes=0&scrollbar=0"] /\
  map img_src (images_of sample_thesis_view) = [str "plots/loss.PNG"].
Proof.
  split; [reflexivity|].
  destruct (thesis_assets_shown_as_delivered (map ascii_lower) sample_thesis
              [str "plots/loss.PNG"; str "thesis.pdf"; str "notes.txt"]
              sample_thesis_view eq_refl eq_refl) as [E1 [_ [E2 [E3 _]]]].
  split; [exact E1|]. split; [exact E2 | exact E3].
Defined.

Lemma thesis_pdf_is_not_an_image_witness :
  ThesisPage_render (map ascii_lower) sample_thesis = Normal sample_thesis_view /\
  In (str "thesis.pdf") (map download_href (pdf_frames sample_thesis_view)) /\
  ~ In (str "thesis.pdf") (map img_src (images_of sample_thesis_view)).
Proof.
  split; [reflexivity|]. split; [left; reflexivity|].
  apply (thesis_pdf_is_not_an_image (map ascii_lower) sample_thesis
           [str "plots/loss.PNG"; str "thesis.pdf"; str "notes.txt"]
           sample_thesis_view (fun s _ => eq_refl) eq_refl eq_refl eq_refl).
  left. reflexivity.
Defined.

(** ** The extension of an asset *)

(** X16.  The test for an image reads the text behind the last dot of
    the asset, and the whole asset when it has no dot: an asset named
    after an extension alone counts as an image. *)
Theorem image_test_reads_the_last_piece
    (toLowerCase : jsstring -> jsstring) (x e : jsstring) :
  has_char DOT e = false ->
  is_image toLowerCase (x ++ DOT :: e) = includes image_extensions (toLowerCase e) /\
  is_image toLowerCase e = includes image_extensions (toLowerCase e).
Proof.
  intros He. unfold is_image. cbv zeta.
  rewrite split_app, pop_app by apply split_nonempty.
  rewrite (split_one DOT e He). split; reflexivity.
Qed.

Lemma image_test_reads_the_last_piece_witness :
  is_image (map ascii_lower) (str "archive.tar.PNG") = true /\
  is_image (map ascii_lower) (str "png") = true.
Proof.
  destruct (image_test_reads_the_last_piece (map ascii_lower) (str "archive.tar")
              (str "PNG") eq_refl) as [E1 _].
  destruct (image_test_reads_the_last_piece (map ascii_lower) [] (str "png") eq_refl)
    as [_ E2].
  split; [exact E1 | exact E2].
Defined.

(** ** The home page *)

Lemma and_element_value (v : value) :
  exists s, and_element v (Normal v) = Normal s /\ is_element s = ToBoolean v.
Proof.
  unfold and_element. destruct (ToBoolean v) eqn:E; eexists; split; reflexivity.
Qed.

Lemma ThesisCard_total thesis :
  ToBoolean (Some thesis) = true -> exists c, ThesisCard thesis = Normal c.
Proof.
  intros H. assert (Hn : thesis <> JNull) by (intros ->; discriminate H).
  unfold ThesisCard.
  destruct (get_not_null thesis (str "title") Hn) as [t ->].
  destruct (get_not_null thesis (str "summary") Hn) as [s ->].
  cbn [bind_thrown]. destruct (and_element_normal s) as [x ->].
  eexists. reflexivity.
Qed.

Lemma guarded_get profile key :
  exists v s,
    optional_get (Some profile) key = Normal v /\
    and_element v (get (Some profile) key) = Normal s /\
    is_element s = ToBoolean v /\
    (ToBoolean v = true -> exists fields, profile = JObject fields).
Proof.
  destruct profile as [| | | | |fields];
    try (exists None, (Falsy None); repeat split; try reflexivity; discriminate).
  exists (own_property key fields). cbn [optional_get get].
  unfold and_element.
  destruct (ToBoolean (own_property key fields)) eqn:E;
    eexists; repeat split; try reflexivity; eauto.
Qed.

Lemma and_element_cases {A : Type} (cond : value) (element : thrown A) :
  and_element cond element =
  if ToBoolean cond
  then match element with
       | Normal a => Normal (Element a)
       | TypeError => TypeError
       end
  else Normal (Falsy cond).
Proof. unfold and_element. destruct (ToBoolean cond), element; reflexivity. Qed.

Lemma and_element_total {A : Type} (cond : value) (a : A) :
  exists s, and_element cond (Normal a) = Normal s /\ is_element s = ToBoolean cond.
Proof.
  rewrite and_element_cases. destruct (ToBoolean cond); eexists; split; reflexivity.
Qed.

(** A card is rendered, or a TypeError is thrown: for [null] at the
    first property, for a date that has no string at [new Date]. *)
Lemma RepoCard_cases repo :
  match RepoCard repo with
  | Normal _ => card_renders repo = true
  | TypeError => card_renders repo = false
  end.
Proof.
  destruct repo as [| | | | |fields]; try reflexivity.
  unfold RepoCard, card_renders. cbn [get bind_thrown].
  destruct (own_property (str "updated_at") fields) as [d|]; cbn [stringified].
  - destruct (ToString_returns d); cbn [bind_thrown]; [|reflexivity].
    destruct (and_element_total (own_property (str "cover_url") fields)
                (own_property (str "cover_url") fields,
                 own_property (str "name") fields)) as [s1 [-> _]].
    destruct (and_element_total (own_property (str "language") fields)
                (own_property (str "language") fields)) as [s2 [-> _]].
    reflexivity.
  - cbn [bind_thrown].
    destruct (and_element_total (own_property (str "cover_url") fields)
                (own_property (str "cover_url") fields,
                 own_property (str "name") fields)) as [s1 [-> _]].
    destruct (and_element_total (own_property (str "language") fields)
                (own_property (str "language") fields)) as [s2 [-> _]].
    reflexivity.
Qed.

Lemma map_thrown_cases {A B : Type} (f : A -> thrown B) (ok : A -> bool) :
  (forall a, match f a with
             | Normal _ => ok a = true
             | TypeError => ok a = false
             end) ->
  forall l, match map_thrown f l with
            | Normal bs => forallb ok l = true /\ length bs = length l
            | TypeError => forallb ok l = false
            end.
Proof.
  intros Hf. induction l as [|a l IH]; [split; reflexivity|].
  cbn [map_thrown forallb]. specialize (Hf a).
  destruct (f a) as [b|]; cbn [bind_thrown].
  - rewrite Hf. destruct (map_thrown f l) as [bs|]; cbn [bind_thrown andb].
    + destruct IH as [-> Hl]. split; [reflexivity|]. simpl. rewrite Hl. reflexivity.
    + exact IH.
  - rewrite Hf. reflexivity.
Qed.

Lemma card_key_cases repo :
  match get (Some repo) (str "name") with
  | Normal _ => negb (match repo with JNull => true | _ => false end) = true
  | TypeError => negb (match repo with JNull => true | _ => false end) = false
  end.
Proof. destruct repo; reflexivity. Qed.

Lemma card_renders_not_null l :
  forallb card_renders l = true ->
  forallb (fun repo => negb (match repo with JNull => true | _ => false end)) l = true.
Proof.
  induction l as [|a l IH]; [reflexivity|]. cbn [forallb]. intros H.
  apply andb_true_iff in H. destruct H as [Ha Hl]. rewrite (IH Hl).
  destruct a; try reflexivity. discriminate Ha.
Qed.

(** The grid is rendered, or a TypeError is thrown. *)
Lemma ReposGrid_cases repos :
  match ReposGrid repos with
  | Normal grid =>
      grid_renders repos = true /\
      match repos with
      | JArray l => exists cards, grid = Some cards /\ length cards = length l
      | _ => grid = None
      end
  | TypeError => grid_renders repos = false
  end.
Proof.
  destruct repos as [| | | |l|]; try reflexivity; [split; reflexivity|].
  unfold ReposGrid, grid_renders.
  pose proof (map_thrown_cases RepoCard card_renders RepoCard_cases l) as Hc.
  pose proof (map_thrown_cases (fun repo => get (Some repo) (str "name")) _
                card_key_cases l) as Hk.
  destruct (map_thrown (fun repo => get (Some repo) (str "name")) l) as [keys|];
    cbn [bind_thrown].
  - destruct (map_thrown RepoCard l) as [cards|]; cbn [bind_thrown].
    + destruct Hc as [-> Hc], Hk as [_ Hk]. split; [reflexivity|].
      eexists. split; [reflexivity|]. rewrite length_combine, Hc, Hk.
      apply Nat.min_id.
    + exact Hc.
  - destruct (forallb card_renders l) eqn:E; [|reflexivity].
    rewrite (card_renders_not_null l E) in Hk. discriminate Hk.
Qed.

(** The paragraph with the address: the template literal of the link
    converts the address to a string. *)
Lemma mailto_cases profile :
  match
    bind_thrown (optional_get (Some profile) (str "email")) (fun email =>
      and_element email
        (bind_thrown (get (Some profile) (str "email")) stringified))
  with
  | Normal s =>
      mailto_renders profile = true /\
      (is_element s = true -> exists fields, profile = JObject fields)
  | TypeError => mailto_renders profile = false
  end.
Proof.
  destruct profile as [| | | | |fields];
    try (split; [reflexivity | discriminate]).
  cbn [optional_get get bind_thrown mailto_renders]. rewrite and_element_cases.
  destruct (own_property (str "email") fields) as [e|]; cbn [stringified].
  - destruct (ToString_returns e) eqn:Ee.
    + destruct (ToBoolean (Some e)); (split; [reflexivity | eauto]).
    + assert (Ht : ToBoolean (Some e) = true)
        by (destruct e; try discriminate Ee; reflexivity).
      rewrite Ht. reflexivity.
  - split; [reflexivity | discriminate].
Qed.

Lemma thesis_section_cases thesis :
  exists st, and_element (Some thesis) (ThesisCard thesis) = Normal st /\
             is_element st = ToBoolean (Some thesis).
Proof.
  unfold and_element. destruct (ToBoolean (Some thesis)) eqn:E.
  - destruct (ThesisCard_total thesis E) as [c ->]. eexists. split; reflexivity.
  - eexists. split; reflexivity.
Qed.

(** The rendering of the home page, by cases. *)
Lemma Home_render_cases repos thesis profile :
  match Home_render repos thesis profile with
  | Normal view =>
      grid_renders repos = true /\ mailto_renders profile = true /\
      initialRepos view = repos /\
      is_element (thesis_section view) = ToBoolean (Some thesis) /\
      (is_element (about_section view) = true ->
       exists fields, profile = JObject fields) /\
      (is_element (contact_email view) = true ->
       exists fields, profile = JObject fields) /\
      match repos with
      | JArray l =>
          exists cards, projects view = Some cards /\ length cards = length l
      | _ => projects view = None
      end
  | TypeError => grid_renders repos = false \/ mailto_renders profile = false
  end.
Proof.
  unfold Home_render.
  destruct (guarded_get profile (str "about")) as [a [sa [-> [Ea [Ha Hoa]]]]].
  cbn [bind_thrown]. rewrite Ea. cbn [bind_thrown].
  pose proof (mailto_cases profile) as Hm.
  destruct (optional_get (Some profile) (str "email")) as [email|];
    cbn [bind_thrown] in *; [|right; exact Hm].
  destruct (and_element email _) as [se|]; cbn [bind_thrown]; [|right; exact Hm].
  destruct Hm as [Hm Hoe].
  pose proof (ReposGrid_cases repos) as Hg.
  destruct (ReposGrid repos) as [grid|]; cbn [bind_thrown]; [|left; exact Hg].
  destruct Hg as [Hg Hl].
  destruct (thesis_section_cases thesis) as [st [-> Hst]]. cbn [bind_thrown].
  cbn [initialRepos thesis_section about_section contact_email projects].
  split; [exact Hg|]. split; [exact Hm|]. split; [reflexivity|].
  split; [exact Hst|]. split; [rewrite Ha; exact Hoa|]. split; [exact Hoe|].
  destruct repos; try exact Hl.
Qed.

(** X17.  The first rendering of the home page with its own components
    (Home, ReposGrid, RepoCard, ThesisCard) throws a TypeError exactly
    when the repositories are neither [null] nor an array (the number 5,
    an object with a field detail), or one of them is [null], or the
    date of one of them or the address of the profile cannot be
    converted to a string: an object with a property toString of its
    own, or an array with such an object in it.  The thesis never
    causes one.  When the page is rendered, the
    repositories are handed to the grid as they are, the grid has a card
    for every repository, the thesis section is shown exactly for a
    truthy thesis, and the paragraphs about the profile only for a
    profile that is an object. *)
Theorem home_render_type_errors (repos thesis profile : json) :
  (Home_render repos thesis profile = TypeError <->
   grid_renders repos = false \/ mailto_renders profile = false) /\
  (forall view,
     Home_render repos thesis profile = Normal view ->
     initialRepos view = repos /\
     is_element (thesis_section view) = ToBoolean (Some thesis) /\
     (is_element (about_section view) = true ->
      exists fields, profile = JObject fields) /\
     (is_element (contact_email view) = true ->
      exists fields, profile = JObject fields) /\
     match repos with
     | JArray l =>
         exists cards, projects view = Some cards /\ length cards = length l
     | _ => projects view = None
     end) /\
  Home_render (JNumber 5) thesis profile = TypeError /\
  Home_render (JObject [(str "detail", JString (str "Not Found"))]) thesis profile =
    TypeError /\
  Home_render (JArray [JNull]) thesis profile = TypeError.
Proof.
  assert (Hgrid : forall r, grid_renders r = false ->
                    Home_render r thesis profile = TypeError).
  { intros r Hr. pose proof (Home_render_cases r thesis profile) as H.
    destruct (Home_render r thesis profile) as [v|]; [|reflexivity].
    destruct H as [Hg _]. congruence. }
  split; [|split; [|repeat split; apply Hgrid; reflexivity]].
  - pose proof (Home_render_cases repos thesis profile) as H.
    destruct (Home_render repos thesis profile) as [v|].
    + destruct H as [Hg [Hm H]]. split; [discriminate|].
      intros [E|E]; congruence.
    + split; [intros _; exact H | reflexivity].
  - intros view Hv. pose proof (Home_render_cases repos thesis profile) as H.
    rewrite Hv in H. destruct H as [_ [_ H]]. exact H.
Qed.

(** *** The requests of the home page *)

Lemma app_fetchRepos_cases fetch backend :
  AppPage.fetchRepos fetch backend =
  match fetch (backend ++ str "/api/repos") with
  | Rejected e => Rejected e
  | Fulfilled res =>
      if ok res then body_json res else Rejected (Error "Failed to fetch repos")
  end.
Proof.
  unfold AppPage.fetchRepos.
  destruct (fetch _) as [res|e]; simpl; [|reflexivity].
  destruct (ok res); [destruct (body_json res)|]; reflexivity.
Qed.

Lemma app_fetchThesis_cases fetch backend :
  AppPage.fetchThesis fetch backend =
  match fetch (backend ++ str "/api/thesis") with
  | Rejected e => Rejected e
  | Fulfilled res => if ok res then body_json res else Fulfilled JNull
  end.
Proof.
  unfold AppPage.fetchThesis.
  destruct (fetch _) as [res|e]; simpl; [|reflexivity].
  destruct (ok res); [destruct (body_json res)|]; reflexivity.
Qed.

Lemma app_fetchProfile_cases fetch backend :
  AppPage.fetchProfile fetch backend =
  match fetch (backend ++ str "/api/profile") with
  | Rejected e => Rejected e
  | Fulfilled res => if ok res then body_json res else Fulfilled JNull
  end.
Proof.
  unfold AppPage.fetchProfile.
  destruct (fetch _) as [res|e]; simpl; [|reflexivity].
  destruct (ok res); [destruct (body_json res)|]; reflexivity.
Qed.



(** X19.  Without a backend, all three requests failing, the home page
    with the fallbacks is rendered with no text about the profile, an
    empty list of repositories and a grid without a card, no thesis
    section and no address, while the promise of the home page of
    app/page.tsx is rejected. *)
Theorem home_page_without_backend
    (pick : list error -> error) (fetch : jsstring -> promise Response)
    (backend : jsstring) :
  request_fails fetch (backend ++ str "/api/repos") ->
  request_fails fetch (backend ++ str "/api/thesis") ->
  request_fails fetch (backend ++ str "/api/profile") ->
  Home_page pick fetch backend =
    Page (MkHome (Falsy None) (JArray []) (Some []) (Falsy (Some JNull))
            (Falsy None)) /\
  exists e, AppPage.Home pick fetch backend = PageRejected e.
Proof.
  unfold request_fails, Home_page, AppPage.Home. intros H1 H2 H3.
  rewrite home_fetchRepos_cases, home_fetchThesis_cases, home_fetchProfile_cases.
  rewrite app_fetchRepos_cases, app_fetchThesis_cases, app_fetchProfile_cases.
  destruct (fetch (backend ++ str "/api/repos")) as [r1|e1];
    [rewrite H1|];
  (destruct (fetch (backend ++ str "/api/thesis")) as [r2|e2];
    [rewrite H2|]);
  (destruct (fetch (backend ++ str "/api/profile")) as [r3|e3];
    [rewrite H3|]);
  (split; [reflexivity | eexists; reflexivity]).
Qed.

Lemma home_page_without_backend_witness :
  Home_page (fun _ => NetworkError) (fun _ => Rejected NetworkError)
    (str "http://localhost:8012") =
  Page (MkHome (Falsy None) (JArray []) (Some []) (Falsy (Some JNull))
            (Falsy None)).
Proof.
  apply (proj1 (home_page_without_backend (fun _ => NetworkError)
                  (fun _ => Rejected NetworkError) (str "http://localhost:8012")
                  I I I)).
Defined.

(** X20.  Whenever the home page of app/page.tsx is rendered, the home
    page with the fallbacks renders the same view from the same answers. *)
Theorem home_page_with_fallbacks_extends_the_first
    (pick : list error -> error) (fetch : jsstring -> promise Response)
    (backend : jsstring) (view : home_view) :
  AppPage.Home pick fetch backend = Page view ->
  Home_page pick fetch backend = Page view.
Proof.
  unfold Home_page, AppPage.Home.
  rewrite home_fetchRepos_cases, home_fetchThesis_cases, home_fetchProfile_cases.
  rewrite app_fetchRepos_cases, app_fetchThesis_cases, app_fetchProfile_cases.
  destruct (fetch (backend ++ str "/api/repos")) as [r1|e1];
    [destruct (ok r1); [destruct (body_json r1)|]|];
  (destruct (fetch (backend ++ str "/api/thesis")) as [r2|e2];
    [destruct (ok r2); [destruct (body_json r2)|]|]);
  (destruct (fetch (backend ++ str "/api/profile")) as [r3|e3];
    [destruct (ok r3); [destruct (body_json r3)|]|]);
  cbn [promise_all3 render_page]; intros H; try discriminate H; exact H.
Qed.

Lemma home_page_with_fallbacks_extends_the_first_witness :
  Home_page (fun _ => NetworkError)
    (fun _ => Fulfilled (MkResponse true (Fulfilled (JArray [])))) [] =
  Page (MkHome (Falsy None) (JArray []) (Some [])
          (Element (MkCard None (Falsy None)))
          (Falsy None)).
Proof.
  apply (home_page_with_fallbacks_extends_the_first (fun _ => NetworkError)
           (fun _ => Fulfilled (MkResponse true (Fulfilled (JArray [])))) []).
  reflexivity.
Defined.

(** ** The theme button *)

(** X21.  The theme button.  A click always changes the icon; after the
    first click the theme alternates between [dark] and [light], so two
    clicks restore a theme that is one of the two; from every other theme,
    undefined and [system] included, a click selects [dark]. *)
Theorem theme_toggle_alternates (theme : option jsstring) :
  theme_icon (toggle theme) <> theme_icon theme /\
  toggle (toggle (toggle theme)) = toggle theme /\
  (theme = Some (str "dark") \/ theme = Some (str "light") ->
   toggle (toggle theme) = theme) /\
  (is_dark theme = false -> toggle theme = Some (str "dark")).
Proof.
  unfold toggle, theme_icon.
  destruct (is_dark theme) eqn:E; cbn [is_dark].
  - repeat split; try discriminate.
    intros [-> | ->]; [reflexivity | discriminate E].
  - repeat split; try discriminate.
    intros [-> | ->]; [discriminate E | reflexivity].
Qed.

